(** * The renderer scheduler core: WorkQueueSets, RealTimeDomain, ThrottlingHelper

A shallow embedding of

- [components/scheduler/base/work_queue_sets.cc]
- [components/scheduler/base/real_time_domain.cc]
- [components/scheduler/renderer/throttling_helper.cc]

C++ objects that are reached through pointers live in explicit stores
keyed by their address; a failed [DCHECK] (and the dereference of an
[end()] iterator or of a dangling pointer) makes an operation return
[None]. *)

From stdpp Require Import base option list sorting gmap fin_maps fin_sets.
From Stdlib Require Import ZArith Lia.

#[local] Set Warnings "-clear-no-such-hyp".

Local Open Scope Z_scope.

(** [DCHECK(cond)] of base/logging.h, as in a build where DCHECKs are on:
    the operation goes on only when [cond] holds. *)
Definition DCHECK (P : Prop) `{Decision P} : option unit :=
  if decide P then Some () else None.

(* ================================================================== *)
(** * base::TimeTicks and base::TimeDelta *)

(** [base/time/time.h], with the declarations of [base::TimeTicks] and
    [base::TimeDelta], is not among the sources.  The spec speaks of times
    as points on a line with an epoch and of the remainder by one second: a
    point in time is modelled as a count of microseconds from the epoch and
    a delta as a count of microseconds, with exact integer arithmetic. *)
Module base.

Abbreviation TimeDelta := Z.
Abbreviation TimeTicks := Z.

(** Modelled from the spec: the number of clock units in the spec's
    "1 second"; the clock counts microseconds. *)
Definition kMicrosecondsPerSecond : Z := 1000000.

(** Modelled from the spec: [base::TimeDelta::FromSeconds]. *)
Definition FromSeconds (secs : Z) : TimeDelta := secs * kMicrosecondsPerSecond.

(** Modelled from the spec: the default-constructed [base::TimeTicks()],
    which is the epoch and also the "null" time. *)
Definition TimeTicks_null : TimeTicks := 0.

(** Modelled from the spec: [TimeTicks::is_null]. *)
Definition is_null (t : TimeTicks) : bool := t =? 0.

(** Modelled from the spec: [TimeTicks + TimeDelta]. *)
Definition plus_delta (t : TimeTicks) (d : TimeDelta) : TimeTicks := t + d.

(** Modelled from the spec: [TimeTicks - TimeDelta]. *)
Definition minus_delta (t : TimeTicks) (d : TimeDelta) : TimeTicks := t - d.

(** Modelled from the spec: [TimeTicks - TimeTicks]. *)
Definition since (t other : TimeTicks) : TimeDelta := t - other.

(** Modelled from the spec: [TimeDelta % TimeDelta], the spec's "mod"; as
    the C++ operator on integers it truncates towards zero. *)
Definition delta_rem (a b : TimeDelta) : TimeDelta := Z.rem a b.

End base.

(* ================================================================== *)
(** * scheduler::internal::WorkQueueSets *)

Module internal.

(** Modelled from the spec: [enqueue_order.h] is not among the sources.
    An EnqueueOrder is the value of a process-wide counter that only grows;
    the counter running over is not modelled. *)
Abbreviation EnqueueOrder := N.

(** The address of a [WorkQueue] object. *)
Abbreviation WorkQueuePtr := nat.

(** Modelled from the spec: [work_queue.h/.cc] are not among the sources.
    A WorkQueue holds an ordered sequence of tasks, oldest first, each
    tagged with its EnqueueOrder, and records the index of the set it is
    assigned to. *)
Record Task := mkTask {
  task_id : nat;
  enqueue_order : EnqueueOrder
}.

(** Modelled from the spec: the members of a WorkQueue that WorkQueueSets
    reads and writes, the tasks (oldest first) and the set index. *)
Record WorkQueue := mkWorkQueue {
  work_queue_ : list Task;
  work_queue_set_index_ : nat
}.

(** Modelled from the spec: [bool WorkQueue::GetFrontTaskEnqueueOrder(EnqueueOrder* out)],
    the EnqueueOrder of the front task, when there is one. *)
Definition GetFrontTaskEnqueueOrder (wq : WorkQueue) : option EnqueueOrder :=
  enqueue_order <$> head (work_queue_ wq).

(** Modelled from the spec: [WorkQueue::work_queue_set_index()]. *)
Definition work_queue_set_index (wq : WorkQueue) : nat :=
  work_queue_set_index_ wq.

(** Modelled from the spec: [WorkQueue::set_work_queue_set_index(set_index)]. *)
Definition set_work_queue_set_index (set_index : nat) (wq : WorkQueue) : WorkQueue :=
  mkWorkQueue (work_queue_ wq) set_index.

(** ** [std::map<EnqueueOrder, WorkQueue*>] *)

Abbreviation EnqueueOrderToWorkQueueMap := (gmap N nat).

(** The smaller of two entries by key; on a tie the first one. *)
Definition min_entry (a b : N * WorkQueuePtr) : N * WorkQueuePtr :=
  if (a.1 <=? b.1)%N then a else b.

Definition min_of_list (l : list (N * WorkQueuePtr)) : option (N * WorkQueuePtr) :=
  match l with
  | [] => None
  | a :: l' => Some (foldr min_entry a l')
  end.

(** [*m.begin()]: the entry with the least key; [None] when [m.empty()]. *)
Definition map_begin (m : EnqueueOrderToWorkQueueMap) : option (N * WorkQueuePtr) :=
  min_of_list (map_to_list m).

Definition map_empty (m : EnqueueOrderToWorkQueueMap) : bool :=
  bool_decide (m = ∅).

(** [m.insert(std::make_pair(k, v))]: an existing entry under [k] is kept. *)
Definition map_insert (k : N) (v : WorkQueuePtr)
    (m : EnqueueOrderToWorkQueueMap) : EnqueueOrderToWorkQueueMap :=
  match m !! k with
  | Some _ => m
  | None => <[k := v]> m
  end.

(** [m.erase(k)] *)
Definition map_erase (k : N) (m : EnqueueOrderToWorkQueueMap) : EnqueueOrderToWorkQueueMap :=
  delete k m.

(** ** The state the operations of WorkQueueSets read and write *)

(** [work_queues]: the WorkQueue objects, by address;
    [enqueue_order_to_work_queue_maps_]: the member of WorkQueueSets, one
    ordered map per set index. *)
Record State := mkState {
  work_queues : gmap nat WorkQueue;
  enqueue_order_to_work_queue_maps_ : list EnqueueOrderToWorkQueueMap
}.

Definition set_map (set_index : nat) (m : EnqueueOrderToWorkQueueMap) (σ : State) : State :=
  mkState (work_queues σ) (<[set_index := m]> (enqueue_order_to_work_queue_maps_ σ)).

Definition set_queue (p : WorkQueuePtr) (wq : WorkQueue) (σ : State) : State :=
  mkState (<[p := wq]> (work_queues σ)) (enqueue_order_to_work_queue_maps_ σ).

(** [WorkQueueSets::WorkQueueSets(size_t num_sets)] *)
Definition WorkQueueSets_new (num_sets : nat) : list EnqueueOrderToWorkQueueMap :=
  replicate num_sets ∅.

(** [void WorkQueueSets::RemoveQueue(WorkQueue* work_queue)] *)
Definition RemoveQueue (work_queue : WorkQueuePtr) (σ : State) : option State :=
  wq ← work_queues σ !! work_queue;
  match GetFrontTaskEnqueueOrder wq with
  | None => Some σ
  | Some enqueue_order =>
      let set_index := work_queue_set_index wq in
      m ← enqueue_order_to_work_queue_maps_ σ !! set_index;
      found ← m !! enqueue_order;
      DCHECK (work_queue = found);;
      Some (set_map set_index (map_erase enqueue_order m) σ)
  end.

(** [void WorkQueueSets::AssignQueueToSet(WorkQueue* work_queue, size_t set_index)] *)
Definition AssignQueueToSet (work_queue : WorkQueuePtr) (set_index : nat)
    (σ : State) : option State :=
  DCHECK (set_index < length (enqueue_order_to_work_queue_maps_ σ))%nat;;
  wq ← work_queues σ !! work_queue;
  let has_enqueue_order := GetFrontTaskEnqueueOrder wq in
  let old_set := work_queue_set_index wq in
  DCHECK (old_set < length (enqueue_order_to_work_queue_maps_ σ))%nat;;
  let σ1 := set_queue work_queue (set_work_queue_set_index set_index wq) σ in
  match has_enqueue_order with
  | None => Some σ1
  | Some enqueue_order =>
      m_old ← enqueue_order_to_work_queue_maps_ σ1 !! old_set;
      let σ2 := set_map old_set (map_erase enqueue_order m_old) σ1 in
      m_new ← enqueue_order_to_work_queue_maps_ σ2 !! set_index;
      Some (set_map set_index (map_insert enqueue_order work_queue m_new) σ2)
  end.

(** [void WorkQueueSets::OnPushQueue(WorkQueue* work_queue)] *)
Definition OnPushQueue (work_queue : WorkQueuePtr) (σ : State) : option State :=
  wq ← work_queues σ !! work_queue;
  enqueue_order ← GetFrontTaskEnqueueOrder wq;
  let set_index := work_queue_set_index wq in
  m ← enqueue_order_to_work_queue_maps_ σ !! set_index;
  Some (set_map set_index (map_insert enqueue_order work_queue m) σ).

(** [void WorkQueueSets::OnPopQueue(WorkQueue* work_queue)] *)
Definition OnPopQueue (work_queue : WorkQueuePtr) (σ : State) : option State :=
  wq ← work_queues σ !! work_queue;
  let set_index := work_queue_set_index wq in
  m ← enqueue_order_to_work_queue_maps_ σ !! set_index;
  first ← map_begin m;
  DCHECK (first.2 = work_queue);;
  let m1 := map_erase first.1 m in
  match GetFrontTaskEnqueueOrder wq with
  | None => Some (set_map set_index m1 σ)
  | Some enqueue_order =>
      Some (set_map set_index (map_insert enqueue_order work_queue m1) σ)
  end.

(** [bool WorkQueueSets::GetOldestQueueInSet(size_t set_index, WorkQueue** out_work_queue)]:
    the outer [option] is the [DCHECK_LT] on [set_index], the inner one the
    returned flag together with [*out_work_queue]. *)
Definition GetOldestQueueInSet (set_index : nat) (σ : State)
    : option (option WorkQueuePtr) :=
  m ← enqueue_order_to_work_queue_maps_ σ !! set_index;
  if map_empty m then Some None
  else Some (snd <$> map_begin m).

(** [bool WorkQueueSets::IsSetEmpty(size_t set_index) const] *)
Definition IsSetEmpty (set_index : nat) (σ : State) : option bool :=
  m ← enqueue_order_to_work_queue_maps_ σ !! set_index;
  Some (map_empty m).

(** ** The queues driving WorkQueueSets *)

(** Modelled from the spec: [WorkQueue::Push] ([work_queue.cc] is not among
    the sources).  [OnPushQueue] is "called after a task is pushed and the
    queue previously had no front task". *)
Definition Push (work_queue : WorkQueuePtr) (t : Task) (σ : State) : option State :=
  wq ← work_queues σ !! work_queue;
  let was_empty := bool_decide (work_queue_ wq = []) in
  let σ1 := set_queue work_queue
              (mkWorkQueue (work_queue_ wq ++ [t]) (work_queue_set_index_ wq)) σ in
  if was_empty then OnPushQueue work_queue σ1 else Some σ1.

(** Modelled from the spec: [WorkQueue::TakeTaskFromWorkQueue].
    [OnPopQueue] is "called after a task is popped from the front of a
    queue". *)
Definition TakeTaskFromWorkQueue (work_queue : WorkQueuePtr) (σ : State)
    : option (Task * State) :=
  wq ← work_queues σ !! work_queue;
  match work_queue_ wq with
  | [] => None
  | t :: rest =>
      σ' ← OnPopQueue work_queue
             (set_queue work_queue (mkWorkQueue rest (work_queue_set_index_ wq)) σ);
      Some (t, σ')
  end.

(** Modelled from the spec: queue teardown.  The queue "must be removed
    from its WorkQueueSets before destruction": [RemoveQueue], then the
    object is gone. *)
Definition UnregisterQueue (work_queue : WorkQueuePtr) (σ : State) : option State :=
  σ' ← RemoveQueue work_queue σ;
  Some (mkState (delete work_queue (work_queues σ'))
          (enqueue_order_to_work_queue_maps_ σ')).

(** Modelled from the spec: the EnqueueOrder of a task is the value of a
    process-wide counter at the time the task is enqueued, so that "the one
    enqueued first has a strictly smaller EnqueueOrder; no two tasks share
    the same order". *)
Record System := mkSystem {
  sets : State;
  next_enqueue_order : EnqueueOrder
}.

(** A WorkQueueSets with [num_sets] empty sets and queues that hold no task
    yet, each assigned to one of the sets. *)
Definition initial (num_sets : nat) (s : System) : Prop :=
  enqueue_order_to_work_queue_maps_ (sets s) = WorkQueueSets_new num_sets ∧
  map_Forall
    (λ _ wq, work_queue_ wq = [] ∧ (work_queue_set_index_ wq < num_sets)%nat)
    (work_queues (sets s)).

Inductive step : System → System → Prop :=
| step_push p id σ σ' next :
    Push p (mkTask id next) σ = Some σ' →
    step (mkSystem σ next) (mkSystem σ' (N.succ next))
| step_pop p t σ σ' next :
    TakeTaskFromWorkQueue p σ = Some (t, σ') →
    step (mkSystem σ next) (mkSystem σ' next)
| step_assign p set_index σ σ' next :
    AssignQueueToSet p set_index σ = Some σ' →
    step (mkSystem σ next) (mkSystem σ' next)
| step_unregister p σ σ' next :
    UnregisterQueue p σ = Some σ' →
    step (mkSystem σ next) (mkSystem σ' next).

Inductive reachable (num_sets : nat) : System → Prop :=
| reachable_initial s : initial num_sets s → reachable num_sets s
| reachable_step s s' : reachable num_sets s → step s s' → reachable num_sets s'.

(** The same steps as a program: one operation of a client, and a sequence
    of them. *)
Inductive Op :=
| OpPush (p : WorkQueuePtr) (id : nat)
| OpTake (p : WorkQueuePtr)
| OpAssign (p : WorkQueuePtr) (set_index : nat)
| OpUnregister (p : WorkQueuePtr).

Definition run_op (o : Op) (s : System) : option System :=
  match o with
  | OpPush p id =>
      σ' ← Push p (mkTask id (next_enqueue_order s)) (sets s);
      Some (mkSystem σ' (N.succ (next_enqueue_order s)))
  | OpTake p =>
      r ← TakeTaskFromWorkQueue p (sets s);
      Some (mkSystem r.2 (next_enqueue_order s))
  | OpAssign p set_index =>
      σ' ← AssignQueueToSet p set_index (sets s);
      Some (mkSystem σ' (next_enqueue_order s))
  | OpUnregister p =>
      σ' ← UnregisterQueue p (sets s);
      Some (mkSystem σ' (next_enqueue_order s))
  end.

Fixpoint run_ops (os : list Op) (s : System) : option System :=
  match os with
  | [] => Some s
  | o :: os' => s' ← run_op o s; run_ops os' s'
  end.

(** ** What WorkQueueSets keeps true *)

(** Queue [p] is assigned to set [i] and its front task has EnqueueOrder [k]. *)
Definition front_in_set (σ : State) (i : nat) (k : EnqueueOrder) (p : WorkQueuePtr) : Prop :=
  ∃ wq, work_queues σ !! p = Some wq ∧ work_queue_set_index_ wq = i
        ∧ GetFrontTaskEnqueueOrder wq = Some k.

Definition older (a b : Task) : Prop := (enqueue_order a < enqueue_order b)%N.

(** The map of every set holds exactly the queues of that set that have a
    front task, each under the EnqueueOrder of its front task. *)
Definition maps_agree (σ : State) : Prop :=
  ∀ i m k p, enqueue_order_to_work_queue_maps_ σ !! i = Some m →
    (m !! k = Some p ↔ front_in_set σ i k p).

(** Every queue is assigned to an existing set and holds its tasks oldest
    first; the EnqueueOrders in use are below the counter and no two queues
    share one. *)
Record queues_ok (σ : State) (next : EnqueueOrder) : Prop := mk_queues_ok {
  ok_index : ∀ p wq, work_queues σ !! p = Some wq →
    (work_queue_set_index_ wq < length (enqueue_order_to_work_queue_maps_ σ))%nat;
  ok_sorted : ∀ p wq, work_queues σ !! p = Some wq →
    StronglySorted older (work_queue_ wq);
  ok_below : ∀ p wq t, work_queues σ !! p = Some wq → t ∈ work_queue_ wq →
    (enqueue_order t < next)%N;
  ok_unique : ∀ p1 p2 wq1 wq2 t1 t2,
    work_queues σ !! p1 = Some wq1 → work_queues σ !! p2 = Some wq2 →
    t1 ∈ work_queue_ wq1 → t2 ∈ work_queue_ wq2 →
    enqueue_order t1 = enqueue_order t2 → p1 = p2
}.

Definition Inv (s : System) : Prop :=
  maps_agree (sets s) ∧ queues_ok (sets s) (next_enqueue_order s).

(** [p] is the value of some entry of [m]. *)
Definition registered (p : WorkQueuePtr) (m : EnqueueOrderToWorkQueueMap) : Prop :=
  ∃ k, m !! k = Some p.

(** The calls a client can make on WorkQueueSets for one queue. *)
Inductive Call :=
| CallRemoveQueue (work_queue : WorkQueuePtr)
| CallAssignQueueToSet (work_queue : WorkQueuePtr) (set_index : nat)
| CallOnPushQueue (work_queue : WorkQueuePtr)
| CallOnPopQueue (work_queue : WorkQueuePtr).

Definition call_queue (c : Call) : WorkQueuePtr :=
  match c with
  | CallRemoveQueue p | CallAssignQueueToSet p _
  | CallOnPushQueue p | CallOnPopQueue p => p
  end.

Definition run_call (c : Call) (σ : State) : option State :=
  match c with
  | CallRemoveQueue p => RemoveQueue p σ
  | CallAssignQueueToSet p i => AssignQueueToSet p i σ
  | CallOnPushQueue p => OnPushQueue p σ
  | CallOnPopQueue p => OnPopQueue p σ
  end.

Fixpoint run_calls (cs : list Call) (σ : State) : option State :=
  match cs with
  | [] => Some σ
  | c :: cs' => σ' ← run_call c σ; run_calls cs' σ'
  end.

End internal.

(* ================================================================== *)
(** * scheduler::RealTimeDomain *)

Module RealTimeDomain.
Import base.

(** Modelled from the spec: [task_queue_manager.h] and [lazy_now.h] are not
    among the sources.  The manager supplies the current time (a [LazyNow]
    reads the clock once and keeps the value) and takes requests for a
    delayed [DoWork]; [delayed_work_requests] lists the delays of the calls
    of [MaybeScheduleDelayedWork], oldest first. *)
Record TaskQueueManager := mkTaskQueueManager {
  now_ticks : TimeTicks;
  delayed_work_requests : list TimeDelta
}.

(** Modelled from the spec: [TaskQueueManager::MaybeScheduleDelayedWork(from_here, lazy_now, delay)],
    the manager's "maybe schedule delayed work" primitive; the request is
    recorded. *)
Definition MaybeScheduleDelayedWork (delay : TimeDelta)
    (tqm : TaskQueueManager) : TaskQueueManager :=
  mkTaskQueueManager (now_ticks tqm) (delayed_work_requests tqm ++ [delay]).

(** [delayed_wakeups]: the run-times the queues of the domain have
    registered with the base class [TimeDomain] ([time_domain.cc] is not
    among the sources); [task_queue_manager_]: the manager the domain is
    registered with. *)
Record State := mkState {
  delayed_wakeups : list TimeTicks;
  task_queue_manager_ : TaskQueueManager
}.

(** Modelled from the spec: [TimeDomain::NextScheduledRunTime] "returns
    the earliest pending delayed run-time across all queues in this
    domain, or none if empty". *)
Definition NextScheduledRunTime (d : State) : option TimeTicks :=
  match delayed_wakeups d with
  | [] => None
  | t :: l => Some (foldr Z.min t l)
  end.

(** [t] is the earliest of the run-times scheduled in the domain. *)
Definition earliest_run_time (d : State) (t : TimeTicks) : Prop :=
  t ∈ delayed_wakeups d ∧ ∀ t', t' ∈ delayed_wakeups d → t ≤ t'.

(** [base::TimeTicks RealTimeDomain::ComputeDelayedRunTime(time_domain_now, delay) const] *)
Definition ComputeDelayedRunTime (time_domain_now : TimeTicks) (delay : TimeDelta) : TimeTicks :=
  plus_delta time_domain_now delay.

(** [void RealTimeDomain::RequestWakeup(LazyNow* lazy_now, base::TimeDelta delay)] *)
Definition RequestWakeup (delay : TimeDelta) (d : State) : State :=
  mkState (delayed_wakeups d) (MaybeScheduleDelayedWork delay (task_queue_manager_ d)).

(** [bool RealTimeDomain::MaybeAdvanceTime()] *)
Definition MaybeAdvanceTime (d : State) : bool * State :=
  match NextScheduledRunTime d with
  | None => (false, d)
  | Some next_run_time =>
      let lazy_now := now_ticks (task_queue_manager_ d) in
      if (next_run_time <=? lazy_now) then (true, d)
      else
        (false,
         mkState (delayed_wakeups d)
           (MaybeScheduleDelayedWork (since next_run_time lazy_now)
              (task_queue_manager_ d)))
  end.

End RealTimeDomain.

(* ================================================================== *)
(** * scheduler::ThrottlingHelper *)

Module ThrottlingHelper.
Import base.

(** The address of a [TaskQueue] object. *)
Abbreviation TaskQueuePtr := nat.

(** Modelled from the spec: [task_queue.h] is not among the sources.  The
    spec's PumpPolicy has the two values the helper sets. *)
Inductive PumpPolicy := AUTO | MANUAL.

(** The time domains a queue can be bound to: the one
    [renderer_scheduler_->real_time_domain()] returns, the helper's own
    [time_domain_], or some other registered domain. *)
Inductive TimeDomainPtr :=
| real_time_domain
| throttled_time_domain
| other_time_domain (addr : nat).

(** Modelled from the spec: a TaskQueue "references exactly one TimeDomain
    (reassignable)" and has a pump policy; these are the two attributes
    [SetTimeDomain] and [SetPumpPolicy] assign. *)
Record TaskQueue := mkTaskQueue {
  time_domain : TimeDomainPtr;
  pump_policy : PumpPolicy
}.

(** Modelled from the spec: the closures the helper posts to its control
    task runner, the pump callback and the forwarded immediate-work
    notification.  [cancelable_closure_holder.h] is not among the sources;
    [Cancel()] disables every callback handed out so far and [callback()]
    hands out a callback of the current generation. *)
Inductive Closure :=
| pump_throttled_tasks_closure (generation : nat)
| forward_immediate_work_closure.

(** Modelled from the spec: a task posted to the control task runner, a
    closure and the delay it was posted with. *)
Record PostedTask := mkPostedTask {
  posted_closure : Closure;
  posted_delay : TimeDelta
}.

#[global] Instance PumpPolicy_eq_dec : EqDecision PumpPolicy.
Proof. solve_decision. Defined.
#[global] Instance TimeDomainPtr_eq_dec : EqDecision TimeDomainPtr.
Proof. solve_decision. Defined.
#[global] Instance TaskQueue_eq_dec : EqDecision TaskQueue.
Proof. solve_decision. Defined.
#[global] Instance Closure_eq_dec : EqDecision Closure.
Proof. solve_decision. Defined.

(** The collaborators whose code is not among the sources
    ([TaskQueue], [ThrottledTimeDomain], [base::TickClock]), taken as
    parameters: an interface over a state [Env] of their own.  What their
    queries answer and how their commands change that state is left open. *)
Class Collaborators (Env : Type) := {
  (** [tick_clock_->NowTicks()] *)
  NowTicks : Env → TimeTicks;
  (** [task_queue->IsEmpty()], [->HasPendingImmediateWork()],
      [->PumpQueue(may_post_dowork)], [->RunsTasksOnCurrentThread()] *)
  IsEmpty : TaskQueuePtr → Env → bool;
  HasPendingImmediateWork : TaskQueuePtr → Env → bool;
  PumpQueue : TaskQueuePtr → bool → Env → Env;
  RunsTasksOnCurrentThread : TaskQueuePtr → Env → bool;
  (** what [task_queue->SetTimeDomain(d)] and [->SetPumpPolicy(p)] do
      beyond assigning the attribute *)
  OnSetTimeDomain : TaskQueuePtr → TimeDomainPtr → Env → Env;
  OnSetPumpPolicy : TaskQueuePtr → PumpPolicy → Env → Env;
  (** [time_domain_->NextScheduledRunTime(&t)], [->AdvanceTo(now)],
      [->ClearExpiredWakeups()] *)
  NextScheduledRunTime : Env → option TimeTicks;
  AdvanceTo : TimeTicks → Env → Env;
  ClearExpiredWakeups : Env → Env
}.

(** The members of ThrottlingHelper, the TaskQueue objects it points to,
    the tasks posted to its control task runner and not yet run, and the
    state of the collaborators. *)
Record World (Env : Type) := mkWorld {
  throttled_queues_ : gset nat;
  task_runner_ : TaskQueuePtr;
  pending_pump_throttled_tasks_runtime_ : TimeTicks;
  closure_generation : nat;
  task_queues : gmap nat TaskQueue;
  posted_tasks : list PostedTask;
  env : Env
}.
Arguments mkWorld {Env}.
Arguments throttled_queues_ {Env}.
Arguments task_runner_ {Env}.
Arguments pending_pump_throttled_tasks_runtime_ {Env}.
Arguments closure_generation {Env}.
Arguments task_queues {Env}.
Arguments posted_tasks {Env}.
Arguments env {Env}.

(** [static base::TimeTicks ThrottlingHelper::ThrottledRunTime(unthrottled_runtime)] *)
Definition ThrottledRunTime (unthrottled_runtime : TimeTicks) : TimeTicks :=
  let one_second := FromSeconds 1 in
  minus_delta (plus_delta unthrottled_runtime one_second)
    (delta_rem (since unthrottled_runtime TimeTicks_null) one_second).

Section Helper.
Context {Env : Type} `{!Collaborators Env}.

Definition set_throttled_queues (s : gset nat) (w : World Env) : World Env :=
  mkWorld s (task_runner_ w) (pending_pump_throttled_tasks_runtime_ w)
    (closure_generation w) (task_queues w) (posted_tasks w) (env w).

Definition set_pending_pump_throttled_tasks_runtime (t : TimeTicks)
    (w : World Env) : World Env :=
  mkWorld (throttled_queues_ w) (task_runner_ w) t
    (closure_generation w) (task_queues w) (posted_tasks w) (env w).

Definition set_task_queues (qs : gmap nat TaskQueue) (w : World Env) : World Env :=
  mkWorld (throttled_queues_ w) (task_runner_ w)
    (pending_pump_throttled_tasks_runtime_ w)
    (closure_generation w) qs (posted_tasks w) (env w).

Definition set_env (e : Env) (w : World Env) : World Env :=
  mkWorld (throttled_queues_ w) (task_runner_ w)
    (pending_pump_throttled_tasks_runtime_ w)
    (closure_generation w) (task_queues w) (posted_tasks w) e.

(** [ThrottlingHelper::ThrottlingHelper]: nothing throttled, no pump
    pending, nothing posted. *)
Definition ThrottlingHelper_new (control_task_runner : TaskQueuePtr)
    (qs : gmap nat TaskQueue) (e : Env) : World Env :=
  mkWorld ∅ control_task_runner TimeTicks_null 0%nat qs [] e.

(** Modelled from the spec: [task_queue->SetTimeDomain(d)] binds the queue
    to [d]; what else it does is up to the collaborators. *)
Definition SetTimeDomain (task_queue : TaskQueuePtr) (d : TimeDomainPtr)
    (w : World Env) : option (World Env) :=
  tq ← task_queues w !! task_queue;
  Some (set_env (OnSetTimeDomain task_queue d (env w))
         (set_task_queues
            (<[task_queue := mkTaskQueue d (pump_policy tq)]> (task_queues w)) w)).

(** Modelled from the spec: [task_queue->SetPumpPolicy(p)] sets the pump
    policy; what else it does is up to the collaborators. *)
Definition SetPumpPolicy (task_queue : TaskQueuePtr) (p : PumpPolicy)
    (w : World Env) : option (World Env) :=
  tq ← task_queues w !! task_queue;
  Some (set_env (OnSetPumpPolicy task_queue p (env w))
         (set_task_queues
            (<[task_queue := mkTaskQueue (time_domain tq) p]> (task_queues w)) w)).

(** Modelled from the spec: [suspend_timers_when_backgrounded_closure_.Cancel()]. *)
Definition Cancel (w : World Env) : World Env :=
  mkWorld (throttled_queues_ w) (task_runner_ w)
    (pending_pump_throttled_tasks_runtime_ w)
    (S (closure_generation w)) (task_queues w) (posted_tasks w) (env w).

(** Modelled from the spec: [suspend_timers_when_backgrounded_closure_.callback()]. *)
Definition callback (w : World Env) : Closure :=
  pump_throttled_tasks_closure (closure_generation w).

(** Modelled from the spec: [task_runner_->PostDelayedTask(from_here, closure, delay)]. *)
Definition PostDelayedTask (c : Closure) (delay : TimeDelta)
    (w : World Env) : World Env :=
  mkWorld (throttled_queues_ w) (task_runner_ w)
    (pending_pump_throttled_tasks_runtime_ w)
    (closure_generation w) (task_queues w)
    (posted_tasks w ++ [mkPostedTask c delay]) (env w).

(** Modelled from the spec: [task_runner_->PostTask(from_here, closure)]. *)
Definition PostTask (c : Closure) (w : World Env) : World Env :=
  PostDelayedTask c 0 w.

(** [void ThrottlingHelper::MaybeSchedulePumpThrottledTasksLocked(from_here, now, unthrottled_runtime)] *)
Definition MaybeSchedulePumpThrottledTasksLocked
    (now unthrottled_runtime : TimeTicks) (w : World Env) : World Env :=
  let throttled_runtime := ThrottledRunTime unthrottled_runtime in
  if negb (is_null (pending_pump_throttled_tasks_runtime_ w)) &&
     (pending_pump_throttled_tasks_runtime_ w <=? throttled_runtime)
  then w
  else
    let w1 := set_pending_pump_throttled_tasks_runtime throttled_runtime w in
    let w2 := Cancel w1 in
    PostDelayedTask (callback w2)
      (since (pending_pump_throttled_tasks_runtime_ w2) now) w2.

(** [void ThrottlingHelper::OnTimeDomainHasImmediateWork()] *)
Definition OnTimeDomainHasImmediateWork (w : World Env) : World Env :=
  if negb (RunsTasksOnCurrentThread (task_runner_ w) (env w))
  then PostTask forward_immediate_work_closure w
  else
    let now := NowTicks (env w) in
    MaybeSchedulePumpThrottledTasksLocked now now w.

(** [void ThrottlingHelper::OnTimeDomainHasDelayedWork()] *)
Definition OnTimeDomainHasDelayedWork (w : World Env) : option (World Env) :=
  next_scheduled_delayed_task ← NextScheduledRunTime (env w);
  let now := NowTicks (env w) in
  Some (MaybeSchedulePumpThrottledTasksLocked now next_scheduled_delayed_task w).

(** [void ThrottlingHelper::Throttle(TaskQueue* task_queue)] *)
Definition Throttle (task_queue : TaskQueuePtr) (w : World Env) : option (World Env) :=
  DCHECK (task_queue ≠ task_runner_ w);;
  let w1 := set_throttled_queues ({[task_queue]} ∪ throttled_queues_ w) w in
  w2 ← SetTimeDomain task_queue throttled_time_domain w1;
  w3 ← SetPumpPolicy task_queue MANUAL w2;
  if negb (IsEmpty task_queue (env w3)) then
    if HasPendingImmediateWork task_queue (env w3)
    then Some (OnTimeDomainHasImmediateWork w3)
    else OnTimeDomainHasDelayedWork w3
  else Some w3.

(** [void ThrottlingHelper::Unthrottle(TaskQueue* task_queue)] *)
Definition Unthrottle (task_queue : TaskQueuePtr) (w : World Env) : option (World Env) :=
  let w1 := set_throttled_queues (throttled_queues_ w ∖ {[task_queue]}) w in
  w2 ← SetTimeDomain task_queue real_time_domain w1;
  SetPumpPolicy task_queue AUTO w2.

(** The body of the loop of [PumpThrottledTasks].  The loop goes through
    the [std::set] in the order of the addresses; [elements] lists the set in
    an order of its own, each member once. *)
Definition pump_if_not_empty (e : Env) (task_queue : TaskQueuePtr) : Env :=
  if IsEmpty task_queue e then e else PumpQueue task_queue false e.

(** [void ThrottlingHelper::PumpThrottledTasks()] *)
Definition PumpThrottledTasks (w : World Env) : World Env :=
  let w1 := set_pending_pump_throttled_tasks_runtime TimeTicks_null w in
  let now := NowTicks (env w1) in
  let w2 := set_env (AdvanceTo now (env w1)) w1 in
  let w3 := set_env (foldl pump_if_not_empty (env w2)
                       (elements (throttled_queues_ w2))) w2 in
  let w4 := set_env (ClearExpiredWakeups (env w3)) w3 in
  match NextScheduledRunTime (env w4) with
  | Some next_scheduled_delayed_task =>
      MaybeSchedulePumpThrottledTasksLocked now next_scheduled_delayed_task w4
  | None => w4
  end.

(** Modelled from the spec: the control task runner takes one of the
    tasks posted to it and runs its closure; a callback of the closure
    holder that was cancelled since does nothing. *)
Definition RunPostedTask (i : nat) (w : World Env) : option (World Env) :=
  t ← posted_tasks w !! i;
  let w1 := mkWorld (throttled_queues_ w) (task_runner_ w)
              (pending_pump_throttled_tasks_runtime_ w)
              (closure_generation w) (task_queues w)
              (delete i (posted_tasks w)) (env w) in
  match posted_closure t with
  | pump_throttled_tasks_closure g =>
      if decide (g = closure_generation w1) then Some (PumpThrottledTasks w1)
      else Some w1
  | forward_immediate_work_closure => Some (OnTimeDomainHasImmediateWork w1)
  end.

(** The pump wake-ups that are pending: the posted pump callbacks that
    have not been cancelled. *)
Definition is_live_pump (generation : nat) (t : PostedTask) : bool :=
  bool_decide (posted_closure t = pump_throttled_tasks_closure generation).

Definition pending_pumps (w : World Env) : list PostedTask :=
  filter (λ t, is_live_pump (closure_generation w) t = true) (posted_tasks w).

(** The world after the three assignments at the head of [Throttle]: a
    closed form used to state what [Throttle] does. *)
Definition throttled_world (q : TaskQueuePtr) (w : World Env) : World Env :=
  mkWorld ({[q]} ∪ throttled_queues_ w) (task_runner_ w)
    (pending_pump_throttled_tasks_runtime_ w) (closure_generation w)
    (<[q := mkTaskQueue throttled_time_domain MANUAL]> (task_queues w))
    (posted_tasks w)
    (OnSetPumpPolicy q MANUAL (OnSetTimeDomain q throttled_time_domain (env w))).

(** The world after [Unthrottle], in closed form. *)
Definition unthrottled_world (q : TaskQueuePtr) (w : World Env) : World Env :=
  mkWorld (throttled_queues_ w ∖ {[q]}) (task_runner_ w)
    (pending_pump_throttled_tasks_runtime_ w) (closure_generation w)
    (<[q := mkTaskQueue real_time_domain AUTO]> (task_queues w))
    (posted_tasks w)
    (OnSetPumpPolicy q AUTO (OnSetTimeDomain q real_time_domain (env w))).

(** No posted pump callback is of a later generation than the closure
    holder, and at most one is of the current one. *)
Definition timers_ok (generation : nat) (posted : list PostedTask) : Prop :=
  Forall (λ t, ∀ g, posted_closure t = pump_throttled_tasks_closure g →
                    (g ≤ generation)%nat)
    posted
  ∧ (length (filter (λ t, is_live_pump generation t = true) posted) ≤ 1)%nat.

(** The recorded pending run-time stands for a posted pump: when it is not
    null, exactly one live pump callback is posted. *)
Definition pending_runtime_ok (w : World Env) : Prop :=
  timers_ok (closure_generation w) (posted_tasks w)
  ∧ (is_null (pending_pump_throttled_tasks_runtime_ w) = false →
     length (pending_pumps w) = 1%nat).

(** What can happen to a helper: its public entry points are called, the
    time domain notifies it, a posted task runs, or the collaborators
    change on their own (time passes, tasks are posted and run). *)
Inductive step : World Env → World Env → Prop :=
| step_Throttle q w w' : Throttle q w = Some w' → step w w'
| step_Unthrottle q w w' : Unthrottle q w = Some w' → step w w'
| step_immediate_work w : step w (OnTimeDomainHasImmediateWork w)
| step_delayed_work w w' : OnTimeDomainHasDelayedWork w = Some w' → step w w'
| step_run_posted i w w' : RunPostedTask i w = Some w' → step w w'
| step_env e w : step w (set_env e w).

Inductive reachable : World Env → Prop :=
| reachable_new r qs e : reachable (ThrottlingHelper_new r qs e)
| reachable_step w w' : reachable w → step w w' → reachable w'.

(** Several requests for a pump made at the same time [now], one after the
    other. *)
Definition schedule_all (now : TimeTicks) (unthrottled_runtimes : list TimeTicks)
    (w : World Env) : World Env :=
  foldl (λ w0 u, MaybeSchedulePumpThrottledTasksLocked now u w0) w
    unthrottled_runtimes.

(** The helper's bookkeeping matches the queues: the control task runner is
    not throttled, every throttled queue is a live queue, a throttled queue
    is bound to the throttled time domain with pump policy MANUAL and every
    other queue to the real time domain with pump policy AUTO. *)
Definition helper_ok (w : World Env) : Prop :=
  (task_runner_ w ∉ throttled_queues_ w)
  ∧ (throttled_queues_ w ⊆ dom (task_queues w))
  ∧ map_Forall
      (λ q tq, tq = if bool_decide (q ∈ throttled_queues_ w)
                    then mkTaskQueue throttled_time_domain MANUAL
                    else mkTaskQueue real_time_domain AUTO)
      (task_queues w).

End Helper.

(** Modelled from the spec: the tasks of the queues.  [task_queue_impl.cc]
    and [task_queue_manager.cc] are not among the sources.  A TaskQueue is
    "a logical queue of tasks" and a pump is "the act of draining ready tasks
    from a queue into the dispatch path".  [queued q e] are the tasks queue
    [q] holds and [dispatched q e] the tasks of [q] that have entered the
    dispatch path, oldest first.  The laws say of each command what the spec
    says: [IsEmpty] tells whether the queue holds a task; [SetTimeDomain] and
    [SetPumpPolicy] reassign an attribute of the queue and move no task; a
    pump moves tasks of the queue it is called on, and of no other queue,
    from the queue into the dispatch path; [AdvanceTo] and
    [ClearExpiredWakeups] act on the clock and the wake-up bookkeeping of the
    throttled time domain and move no task. *)
Class TaskAccounting (Env : Type) `{!Collaborators Env} := {
  queued : TaskQueuePtr → Env → list nat;
  dispatched : TaskQueuePtr → Env → list nat;
  IsEmpty_queued q e : IsEmpty q e = bool_decide (queued q e = []);
  OnSetTimeDomain_queued q q' d e :
    queued q (OnSetTimeDomain q' d e) = queued q e;
  OnSetTimeDomain_dispatched q q' d e :
    dispatched q (OnSetTimeDomain q' d e) = dispatched q e;
  OnSetPumpPolicy_queued q q' p e :
    queued q (OnSetPumpPolicy q' p e) = queued q e;
  OnSetPumpPolicy_dispatched q q' p e :
    dispatched q (OnSetPumpPolicy q' p e) = dispatched q e;
  PumpQueue_queued_other q q' b e :
    q ≠ q' → queued q (PumpQueue q' b e) = queued q e;
  PumpQueue_dispatched_other q q' b e :
    q ≠ q' → dispatched q (PumpQueue q' b e) = dispatched q e;
  PumpQueue_conserves q b e :
    dispatched q (PumpQueue q b e) ++ queued q (PumpQueue q b e)
    = dispatched q e ++ queued q e;
  AdvanceTo_queued q t e : queued q (AdvanceTo t e) = queued q e;
  AdvanceTo_dispatched q t e : dispatched q (AdvanceTo t e) = dispatched q e;
  ClearExpiredWakeups_queued q e : queued q (ClearExpiredWakeups e) = queued q e;
  ClearExpiredWakeups_dispatched q e :
    dispatched q (ClearExpiredWakeups e) = dispatched q e
}.

End ThrottlingHelper.

(* ================================================================== *)
(** * Concrete scenarios *)

Module scenario.
Import internal.

(** Two priority sets, 0 the higher one; queues 1 and 2 are assigned to
    set 0, queue 3 to set 1. *)
Definition start : System :=
  mkSystem
    (mkState
       (<[1%nat := mkWorkQueue [] 0]>
          (<[2%nat := mkWorkQueue [] 0]>
             (<[3%nat := mkWorkQueue [] 1]> ∅)))
       (WorkQueueSets_new 2))
    1%N.

(** Task A goes to the low priority queue 3, then B to queue 1 and C to
    queue 2. *)
Definition pushes : list Op := [OpPush 3 100; OpPush 1 101; OpPush 2 102].

Definition after_pushes : System := default start (run_ops pushes start).

(** Two tasks go to queue 1 and then one to queue 2; the first task of
    queue 1 is taken. *)
Definition pushes_two : list Op := [OpPush 1 100; OpPush 1 101; OpPush 2 102].

Definition two_in_queue : System := default start (run_ops pushes_two start).

Definition after_take : State :=
  default (sets two_in_queue)
    (snd <$> TakeTaskFromWorkQueue 1 (sets two_in_queue)).

(** The dispatch loop of the spec: the oldest queue of the first set that
    is not empty. *)
Fixpoint select_queue (set_indexes : list nat) (σ : State) : option WorkQueuePtr :=
  match set_indexes with
  | [] => None
  | set_index :: rest =>
      match IsSetEmpty set_index σ with
      | Some false => mjoin (GetOldestQueueInSet set_index σ)
      | _ => select_queue rest σ
      end
  end.

(** Take the next task [fuel] times; the ids of the tasks in the order
    they are taken. *)
Fixpoint drain (fuel : nat) (σ : State) : list nat :=
  match fuel with
  | O => []
  | S fuel' =>
      match select_queue [0; 1]%nat σ with
      | None => []
      | Some p =>
          match TakeTaskFromWorkQueue p σ with
          | Some (t, σ') => task_id t :: drain fuel' σ'
          | None => []
          end
      end
  end.

End scenario.

(* ================================================================== *)
(** * A recording environment for ThrottlingHelper *)

Module recording.
Import base ThrottlingHelper.

(** The commands the helper gives its collaborators. *)
Inductive Command :=
| CmdSetTimeDomain (q : TaskQueuePtr) (d : TimeDomainPtr)
| CmdSetPumpPolicy (q : TaskQueuePtr) (p : PumpPolicy)
| CmdPumpQueue (q : TaskQueuePtr) (may_post_dowork : bool)
| CmdAdvanceTo (t : TimeTicks)
| CmdClearExpiredWakeups.

(** Collaborators with fixed answers that record the commands they are
    given, oldest first: the clock reads [clock]; the queues of [non_empty]
    hold tasks and those of [immediate] have immediate work pending; the
    throttled domain reports [next_run_time]. *)
Record Env := mkEnv {
  clock : TimeTicks;
  non_empty : list nat;
  immediate : list nat;
  next_run_time : option TimeTicks;
  on_control_thread : bool;
  commands : list Command
}.

Definition record (c : Command) (e : Env) : Env :=
  mkEnv (clock e) (non_empty e) (immediate e) (next_run_time e)
    (on_control_thread e) (commands e ++ [c]).

#[global] Instance recording_collaborators : Collaborators Env := {|
  NowTicks e := clock e;
  IsEmpty q e := negb (bool_decide (q ∈ non_empty e));
  HasPendingImmediateWork q e := bool_decide (q ∈ immediate e);
  PumpQueue q may_post_dowork e := record (CmdPumpQueue q may_post_dowork) e;
  RunsTasksOnCurrentThread _ e := on_control_thread e;
  OnSetTimeDomain q d e := record (CmdSetTimeDomain q d) e;
  OnSetPumpPolicy q p e := record (CmdSetPumpPolicy q p) e;
  NextScheduledRunTime e := next_run_time e;
  AdvanceTo t e := record (CmdAdvanceTo t) e;
  ClearExpiredWakeups e := record CmdClearExpiredWakeups e
|}.

(** One second after the epoch; queue 1 holds a delayed task due at 2.3 s,
    queue 2 is empty, queue 3 has immediate work; queue 0 is the control
    task runner. *)
Definition env0 : Env :=
  mkEnv 1000000 [1; 3]%nat [3]%nat (Some 2300000) true [].

Definition unthrottled : TaskQueue := mkTaskQueue real_time_domain AUTO.

Definition world0 : World Env :=
  ThrottlingHelper_new 0%nat
    (<[0%nat := unthrottled]>
       (<[1%nat := unthrottled]>
          (<[2%nat := unthrottled]> (<[3%nat := unthrottled]> ∅))))
    env0.

(** Queue 1 throttled. *)
Definition world1 : World Env := default world0 (Throttle 1%nat world0).

(** Queues 1, 2 and 3 throttled. *)
Definition world3 : World Env :=
  default world0
    (w1 ← Throttle 1%nat world0; w2 ← Throttle 2%nat w1; Throttle 3%nat w2).

(** The commands a pump cycle started in [w] gives the collaborators. *)
Definition cycle_commands (w : World Env) : list Command :=
  drop (length (commands (env w))) (commands (env (PumpThrottledTasks w))).

(** [env0] seen from another thread. *)
Definition env0_off_thread : Env :=
  mkEnv 1000000 [1; 3]%nat [3]%nat (Some 2300000) false [].

End recording.

(* ================================================================== *)
(** * Queues that hold tasks *)

Module task_model.
Import base ThrottlingHelper.

(** Modelled from the spec: collaborators whose queues hold tasks.  [held]
    are the tasks of each queue, [dispatch_path] the tasks each queue has
    handed to the dispatch path; the queues of [immediate] have immediate
    work pending; the clock reads [clock], the throttled time domain is at
    [domain_now] and reports [next_run_time].  A pump drains the whole queue
    into the dispatch path; the two assignments leave the tasks alone. *)
Record Env := mkEnv {
  clock : TimeTicks;
  held : gmap nat (list nat);
  dispatch_path : gmap nat (list nat);
  immediate : list nat;
  next_run_time : option TimeTicks;
  domain_now : TimeTicks
}.

Definition tasks_of (q : TaskQueuePtr) (m : gmap nat (list nat)) : list nat :=
  default [] (m !! q).

Definition pump (q : TaskQueuePtr) (e : Env) : Env :=
  mkEnv (clock e) (<[q := []]> (held e))
    (<[q := tasks_of q (dispatch_path e) ++ tasks_of q (held e)]> (dispatch_path e))
    (immediate e) (next_run_time e) (domain_now e).

Definition advance (t : TimeTicks) (e : Env) : Env :=
  mkEnv (clock e) (held e) (dispatch_path e) (immediate e) (next_run_time e) t.

Definition clear_expired (e : Env) : Env :=
  mkEnv (clock e) (held e) (dispatch_path e) (immediate e)
    (match next_run_time e with
     | Some t => if t <=? domain_now e then None else Some t
     | None => None
     end)
    (domain_now e).

#[export] Instance task_collaborators : Collaborators Env := {|
  NowTicks e := clock e;
  IsEmpty q e := bool_decide (tasks_of q (held e) = []);
  HasPendingImmediateWork q e := bool_decide (q ∈ immediate e);
  PumpQueue q _ e := pump q e;
  RunsTasksOnCurrentThread _ _ := true;
  OnSetTimeDomain _ _ e := e;
  OnSetPumpPolicy _ _ e := e;
  NextScheduledRunTime e := next_run_time e;
  AdvanceTo t e := advance t e;
  ClearExpiredWakeups e := clear_expired e
|}.

(** One second after the epoch; queue 1 holds the tasks 7 and 8, the first
    of them due at 2.3 s, queue 3 holds task 9; queue 0 is the control task
    runner. *)
Definition env0 : Env :=
  mkEnv 1000000 (<[1%nat := [7; 8]%nat]> (<[3%nat := [9]%nat]> ∅)) ∅ []
    (Some 2300000) 0.

Definition unthrottled : TaskQueue := mkTaskQueue real_time_domain AUTO.

Definition world0 : World Env :=
  ThrottlingHelper_new 0%nat
    (<[0%nat := unthrottled]>
       (<[1%nat := unthrottled]>
          (<[2%nat := unthrottled]> (<[3%nat := unthrottled]> ∅))))
    env0.

(** Queue 3 throttled; then queue 1 as well. *)
Definition world_3 : World Env := default world0 (Throttle 3%nat world0).

Definition world_31 : World Env := default world_3 (Throttle 1%nat world_3).

(** The tasks of these queues obey the laws of [TaskAccounting]. *)
Lemma pump_held_other (q q' : TaskQueuePtr) (e : Env) :
  q ≠ q' → tasks_of q (held (pump q' e)) = tasks_of q (held e).
Proof. intros ?. unfold tasks_of; simpl. by rewrite lookup_insert_ne. Qed.

Lemma pump_dispatch_path_other (q q' : TaskQueuePtr) (e : Env) :
  q ≠ q' → tasks_of q (dispatch_path (pump q' e)) = tasks_of q (dispatch_path e).
Proof. intros ?. unfold tasks_of; simpl. by rewrite lookup_insert_ne. Qed.

Lemma pump_conserves (q : TaskQueuePtr) (e : Env) :
  tasks_of q (dispatch_path (pump q e)) ++ tasks_of q (held (pump q e))
  = tasks_of q (dispatch_path e) ++ tasks_of q (held e).
Proof.
  unfold tasks_of at 1 2; simpl. rewrite !lookup_insert_eq. simpl.
  by rewrite app_nil_r.
Qed.

#[export] Instance task_accounting : TaskAccounting Env := {|
  queued q e := tasks_of q (held e);
  dispatched q e := tasks_of q (dispatch_path e);
  IsEmpty_queued _ _ := eq_refl;
  OnSetTimeDomain_queued _ _ _ _ := eq_refl;
  OnSetTimeDomain_dispatched _ _ _ _ := eq_refl;
  OnSetPumpPolicy_queued _ _ _ _ := eq_refl;
  OnSetPumpPolicy_dispatched _ _ _ _ := eq_refl;
  PumpQueue_queued_other q q' _ e := pump_held_other q q' e;
  PumpQueue_dispatched_other q q' _ e := pump_dispatch_path_other q q' e;
  PumpQueue_conserves q _ e := pump_conserves q e;
  AdvanceTo_queued _ _ _ := eq_refl;
  AdvanceTo_dispatched _ _ _ := eq_refl;
  ClearExpiredWakeups_queued _ _ := eq_refl;
  ClearExpiredWakeups_dispatched _ _ := eq_refl
|}.

End task_model.

(* ================================================================== *)
(** * Properties of ThrottledRunTime *)

Section ThrottledRunTime_properties.
Import base ThrottlingHelper.

Lemma one_second_value : FromSeconds 1 = 1000000.
Proof. reflexivity. Qed.

Lemma ThrottledRunTime_eq (t : TimeTicks) :
  ThrottledRunTime t = t + 1000000 - Z.rem t 1000000.
Proof.
  unfold ThrottledRunTime, minus_delta, plus_delta, delta_rem, since, TimeTicks_null.
  rewrite one_second_value. by rewrite Z.sub_0_r.
Qed.

Lemma ThrottledRunTime_quot (t : TimeTicks) :
  ThrottledRunTime t = (Z.quot t 1000000 + 1) * 1000000.
Proof.
  rewrite ThrottledRunTime_eq.
  pose proof (Z.quot_rem' t 1000000) as Hqr. lia.
Qed.

(** C1: for every time [t], [ThrottledRunTime t] is
    [t + 1s - ((t - epoch) % 1s)]; it is strictly later than [t], it lies a
    whole number of seconds from the epoch, and a [t] that lies exactly [N]
    seconds from the epoch is sent to [N + 1] seconds. *)
Theorem ThrottledRunTime_next_boundary (t : TimeTicks) :
  ThrottledRunTime t
    = t + FromSeconds 1 - Z.rem (t - TimeTicks_null) (FromSeconds 1)
  ∧ t < ThrottledRunTime t
  ∧ (∃ k, ThrottledRunTime t - TimeTicks_null = FromSeconds k)
  ∧ (∀ N, t - TimeTicks_null = FromSeconds N →
          ThrottledRunTime t - TimeTicks_null = FromSeconds (N + 1)).
Proof.
  unfold TimeTicks_null. rewrite !Z.sub_0_r, one_second_value.
  split; [apply ThrottledRunTime_eq|].
  split.
  - rewrite ThrottledRunTime_eq.
    pose proof (Z.rem_bound_abs t 1000000 ltac:(lia)). lia.
  - split.
    + exists (Z.quot t 1000000 + 1). by rewrite ThrottledRunTime_quot.
    + intros N ->. rewrite ThrottledRunTime_eq. unfold FromSeconds.
      change kMicrosecondsPerSecond with 1000000.
      rewrite Z.rem_mul by lia. lia.
Qed.

(** From the epoch on, the result is the first second boundary after [t]. *)
Lemma ThrottledRunTime_least (t : TimeTicks) (k : Z) :
  0 ≤ t → t < FromSeconds k → ThrottledRunTime t ≤ FromSeconds k.
Proof.
  intros Ht Hk. rewrite ThrottledRunTime_quot. unfold FromSeconds in *.
  change kMicrosecondsPerSecond with 1000000 in *.
  assert (Z.quot t 1000000 < k); [|lia].
  rewrite Z.quot_div_nonneg by lia.
  apply Z.div_lt_upper_bound; lia.
Qed.

Example ThrottledRunTime_2_3s : ThrottledRunTime 2300000 = 3000000.
Proof. reflexivity. Qed.

Example ThrottledRunTime_on_boundary : ThrottledRunTime 2000000 = 3000000.
Proof. reflexivity. Qed.

End ThrottledRunTime_properties.

(* ================================================================== *)
(** * Properties of RealTimeDomain *)

Section RealTimeDomain_properties.
Import base RealTimeDomain.

Lemma foldr_min_elem (t : Z) (l : list Z) :
  foldr Z.min t l ∈ t :: l ∧ ∀ t', t' ∈ t :: l → foldr Z.min t l ≤ t'.
Proof.
  induction l as [|a l [IHin IHle]]; simpl.
  - split; [by left|]. intros t' Ht'. apply list_elem_of_singleton in Ht'. lia.
  - split.
    + destruct (Z.min_spec a (foldr Z.min t l)) as [[_ ->]|[_ ->]].
      * right. by left.
      * apply elem_of_cons in IHin as [->|?]; [by left|]. right. by right.
    + intros t' Ht'.
      assert (t' = a ∨ t' ∈ t :: l) as [->|Hin]; [|lia|].
      { rewrite !elem_of_cons in Ht'. rewrite elem_of_cons. tauto. }
      specialize (IHle _ Hin). lia.
Qed.

Lemma NextScheduledRunTime_earliest (d : State) (t : TimeTicks) :
  NextScheduledRunTime d = Some t ↔ earliest_run_time d t.
Proof.
  unfold NextScheduledRunTime, earliest_run_time.
  destruct (delayed_wakeups d) as [|a l].
  - split; [done|]. intros [Hin _]. by apply elem_of_nil in Hin.
  - destruct (foldr_min_elem a l) as [Hin Hle]. split.
    + intros [= <-]. done.
    + intros [Hin' Hle']. f_equal.
      specialize (Hle _ Hin'). specialize (Hle' _ Hin). lia.
Qed.

Lemma NextScheduledRunTime_None (d : State) :
  NextScheduledRunTime d = None ↔ delayed_wakeups d = [].
Proof. unfold NextScheduledRunTime. by destruct (delayed_wakeups d). Qed.

(** C4: [MaybeAdvanceTime] returns true exactly when there is an earliest
    scheduled run-time and it is not after the current time, and then asks
    for nothing; when the earliest run-time is still ahead it asks the
    manager for a delayed wake-up after [next_run_time - now] and returns
    false; when nothing is scheduled it returns false and asks for
    nothing. *)
Theorem MaybeAdvanceTime_spec (d : State) :
  let now := now_ticks (task_queue_manager_ d) in
  ((MaybeAdvanceTime d).1 = true ↔ ∃ t, earliest_run_time d t ∧ t ≤ now)
  ∧ ((MaybeAdvanceTime d).1 = true → (MaybeAdvanceTime d).2 = d)
  ∧ (∀ t, earliest_run_time d t → now < t →
       (MaybeAdvanceTime d).1 = false
       ∧ delayed_wakeups (MaybeAdvanceTime d).2 = delayed_wakeups d
       ∧ now_ticks (task_queue_manager_ (MaybeAdvanceTime d).2) = now
       ∧ delayed_work_requests (task_queue_manager_ (MaybeAdvanceTime d).2)
           = delayed_work_requests (task_queue_manager_ d) ++ [t - now])
  ∧ (delayed_wakeups d = [] → MaybeAdvanceTime d = (false, d)).
Proof.
  intros now. unfold MaybeAdvanceTime.
  destruct (NextScheduledRunTime d) as [next|] eqn:Hnext.
  - apply NextScheduledRunTime_earliest in Hnext as Hearly.
    fold now.
    assert (∀ t, earliest_run_time d t → t = next) as Huniq.
    { intros t Ht. apply NextScheduledRunTime_earliest in Ht. congruence. }
    destruct (Z.leb_spec next now) as [Hle|Hgt]; simpl.
    + split; [split; [eauto|done]|].
      split; [done|]. split.
      * intros t Ht Hlt. apply Huniq in Ht. lia.
      * intros Hnil. apply NextScheduledRunTime_None in Hnil. congruence.
    + split.
      { split; [done|]. intros (t & Ht & Hle). apply Huniq in Ht. lia. }
      split; [done|]. split.
      * intros t Ht _. apply Huniq in Ht as ->. done.
      * intros Hnil. apply NextScheduledRunTime_None in Hnil. congruence.
  - simpl. apply NextScheduledRunTime_None in Hnext as Hnil.
    split.
    { split; [done|]. intros (t & [Hin _] & _). rewrite Hnil in Hin.
      by apply elem_of_nil in Hin. }
    split; [done|]. split; [|done].
    intros t [Hin _]. rewrite Hnil in Hin. by apply elem_of_nil in Hin.
Qed.

End RealTimeDomain_properties.

(* ================================================================== *)
(** * Properties of WorkQueueSets *)

Section WorkQueueSets_properties.
Import internal.
Local Open Scope nat_scope.

(** ** The ordered map *)

Lemma foldr_min_entry_elem (a : N * WorkQueuePtr) (l : list (N * WorkQueuePtr)) :
  foldr min_entry a l ∈ a :: l
  ∧ ∀ e, e ∈ a :: l → ((foldr min_entry a l).1 ≤ e.1)%N.
Proof.
  induction l as [|b l [IHin IHle]]; simpl.
  - split; [by left|]. intros e He. apply list_elem_of_singleton in He as ->. lia.
  - unfold min_entry at 1 3.
    destruct (N.leb_spec b.1 (foldr min_entry a l).1) as [Hle|Hgt].
    + split; [right; by left|].
      intros e He. rewrite !elem_of_cons in He.
      destruct He as [->|[->|He]]; [|lia|].
      * specialize (IHle a ltac:(by left)). lia.
      * specialize (IHle e ltac:(by right)). lia.
    + split.
      * apply elem_of_cons in IHin as [->|?]; [by left|]. right. by right.
      * intros e He. rewrite !elem_of_cons in He.
        destruct He as [->|[->|He]]; [|lia|].
        -- apply IHle. by left.
        -- apply IHle. by right.
Qed.

Lemma map_begin_None (m : gmap N nat) : map_begin m = None ↔ m = ∅.
Proof.
  unfold map_begin, min_of_list. split.
  - destruct (map_to_list m) eqn:Hl; [|done].
    intros _. by apply map_to_list_empty_iff.
  - intros ->. by rewrite map_to_list_empty.
Qed.

Lemma map_begin_Some (m : gmap N nat) (k : N) (p : WorkQueuePtr) :
  map_begin m = Some (k, p) →
  m !! k = Some p ∧ ∀ k' p', m !! k' = Some p' → (k ≤ k')%N.
Proof.
  unfold map_begin, min_of_list.
  destruct (map_to_list m) as [|a l] eqn:Hl; [done|].
  intros [= Hmin]. destruct (foldr_min_entry_elem a l) as [Hin Hle].
  rewrite Hmin, <- Hl in Hin. rewrite Hmin in Hle. split.
  - by apply elem_of_map_to_list.
  - intros k' p' Hk'. apply elem_of_map_to_list in Hk'. rewrite Hl in Hk'.
    apply (Hle (k', p')), Hk'.
Qed.

(** The least key determines the entry [begin()] points to. *)
Lemma map_begin_least (m : gmap N nat) (k : N) (p : WorkQueuePtr) :
  m !! k = Some p → (∀ k' p', m !! k' = Some p' → (k ≤ k')%N) →
  map_begin m = Some (k, p).
Proof.
  intros Hk Hleast.
  destruct (map_begin m) as [[k0 p0]|] eqn:Hb.
  - apply map_begin_Some in Hb as [Hk0 Hle0].
    specialize (Hleast _ _ Hk0). specialize (Hle0 _ _ Hk).
    assert (k0 = k) as -> by lia. congruence.
  - apply map_begin_None in Hb. subst m. by rewrite lookup_empty in Hk.
Qed.

Lemma map_empty_true (m : gmap N nat) : map_empty m = true ↔ m = ∅.
Proof. unfold map_empty. by rewrite bool_decide_eq_true. Qed.

Lemma map_empty_false (m : gmap N nat) :
  map_empty m = false ↔ ∃ k p, map_begin m = Some (k, p).
Proof.
  unfold map_empty. rewrite bool_decide_eq_false. split.
  - intros Hne. destruct (map_begin m) as [[k p]|] eqn:Hb; [eauto|].
    by apply map_begin_None in Hb.
  - intros (k & p & Hb) ->. unfold map_begin in Hb.
    by rewrite map_to_list_empty in Hb.
Qed.

Lemma lookup_map_insert (k k' : N) (p : WorkQueuePtr) (m : gmap N nat) :
  map_insert k p m !! k' =
    if decide (k = k') then Some (default p (m !! k)) else m !! k'.
Proof.
  unfold map_insert. destruct (m !! k) eqn:Hk; simpl.
  - case_decide; by subst.
  - by rewrite lookup_insert.
Qed.

Lemma map_insert_fresh (k : N) (p : WorkQueuePtr) (m : gmap N nat) :
  m !! k = None → map_insert k p m = <[k := p]> m.
Proof. unfold map_insert. by intros ->. Qed.

Lemma registered_map_insert (p q : WorkQueuePtr) (k : N) (m : gmap N nat) :
  registered p (map_insert k q m) → p = q ∨ registered p m.
Proof.
  intros [k' Hk']. rewrite lookup_map_insert in Hk'. case_decide.
  - subst k'. destruct (m !! k) eqn:Hk; simpl in *.
    + right. exists k. congruence.
    + left. congruence.
  - right. by exists k'.
Qed.

Lemma registered_map_erase (p : WorkQueuePtr) (k : N) (m : gmap N nat) :
  registered p (map_erase k m) → registered p m.
Proof.
  intros [k' Hk']. unfold map_erase in Hk'.
  apply lookup_delete_Some in Hk' as [_ ?]. by exists k'.
Qed.

(** ** The state after each operation *)

Lemma lookup_set_map (i j : nat) (m : gmap N nat) (σ : State) :
  i < length (enqueue_order_to_work_queue_maps_ σ) →
  enqueue_order_to_work_queue_maps_ (set_map i m σ) !! j
    = if decide (i = j) then Some m else enqueue_order_to_work_queue_maps_ σ !! j.
Proof.
  intros Hi. unfold set_map; simpl. rewrite list_lookup_insert.
  destruct (decide (i = j)) as [->|Hne].
  - by rewrite decide_True.
  - rewrite decide_False; [done|]. by intros [? _].
Qed.

Lemma lookup_set_queue (p q : WorkQueuePtr) (wq : WorkQueue) (σ : State) :
  work_queues (set_queue p wq σ) !! q
    = if decide (p = q) then Some wq else work_queues σ !! q.
Proof. unfold set_queue; simpl. apply lookup_insert. Qed.

Lemma GetFront_cons (t : Task) (l : list Task) (i : nat) :
  GetFrontTaskEnqueueOrder (mkWorkQueue (t :: l) i) = Some (enqueue_order t).
Proof. done. Qed.

Lemma GetFront_None (wq : WorkQueue) :
  GetFrontTaskEnqueueOrder wq = None ↔ work_queue_ wq = [].
Proof. unfold GetFrontTaskEnqueueOrder. by destruct (work_queue_ wq). Qed.

Lemma GetFront_Some (wq : WorkQueue) (k : N) :
  GetFrontTaskEnqueueOrder wq = Some k ↔
  ∃ t l, work_queue_ wq = t :: l ∧ enqueue_order t = k.
Proof.
  unfold GetFrontTaskEnqueueOrder. destruct (work_queue_ wq) as [|t l]; simpl.
  - split; [done|]. by intros (? & ? & ? & ?).
  - split.
    + intros [= <-]. eauto.
    + intros (t' & l' & [= <- <-] & <-). done.
Qed.

Lemma GetFront_elem (wq : WorkQueue) (k : N) :
  GetFrontTaskEnqueueOrder wq = Some k →
  ∃ t, t ∈ work_queue_ wq ∧ enqueue_order t = k.
Proof.
  intros (t & l & Hl & Hk)%GetFront_Some. exists t. rewrite Hl. split; [by left|done].
Qed.

Lemma OnPushQueue_Some (p : WorkQueuePtr) (σ σ' : State) :
  OnPushQueue p σ = Some σ' ↔
  ∃ wq k m, work_queues σ !! p = Some wq
    ∧ GetFrontTaskEnqueueOrder wq = Some k
    ∧ enqueue_order_to_work_queue_maps_ σ !! work_queue_set_index_ wq = Some m
    ∧ σ' = set_map (work_queue_set_index_ wq) (map_insert k p m) σ.
Proof.
  unfold OnPushQueue, work_queue_set_index. split.
  - intros H. simplify_option_eq. eauto 10.
  - intros (wq & k & m & -> & Hk & Hm & ->). simpl. rewrite Hk. simpl.
    by rewrite Hm.
Qed.

Lemma OnPopQueue_Some (p : WorkQueuePtr) (σ σ' : State) :
  OnPopQueue p σ = Some σ' ↔
  ∃ wq m k, work_queues σ !! p = Some wq
    ∧ enqueue_order_to_work_queue_maps_ σ !! work_queue_set_index_ wq = Some m
    ∧ map_begin m = Some (k, p)
    ∧ σ' = set_map (work_queue_set_index_ wq)
             (match GetFrontTaskEnqueueOrder wq with
              | None => map_erase k m
              | Some k' => map_insert k' p (map_erase k m)
              end) σ.
Proof.
  unfold OnPopQueue, work_queue_set_index, DCHECK. split.
  - intros H. simplify_option_eq.
    match goal with H : map_begin _ = Some ?f |- _ => destruct f as [k q] end.
    simpl in *. subst. eexists _, _, _. repeat split; [done..|].
    destruct (GetFrontTaskEnqueueOrder _); congruence.
  - intros (wq & m & k & -> & Hm & Hb & ->). simpl. rewrite Hm. simpl.
    rewrite Hb. simpl. rewrite decide_True by done. simpl.
    by destruct (GetFrontTaskEnqueueOrder _).
Qed.

Lemma RemoveQueue_Some (p : WorkQueuePtr) (σ σ' : State) :
  RemoveQueue p σ = Some σ' ↔
  ∃ wq, work_queues σ !! p = Some wq ∧
    match GetFrontTaskEnqueueOrder wq with
    | None => σ' = σ
    | Some k => ∃ m,
        enqueue_order_to_work_queue_maps_ σ !! work_queue_set_index_ wq = Some m
        ∧ m !! k = Some p
        ∧ σ' = set_map (work_queue_set_index_ wq) (map_erase k m) σ
    end.
Proof.
  unfold RemoveQueue, work_queue_set_index, DCHECK. split.
  - intros H. destruct (work_queues σ !! p) as [wq|] eqn:Hp; simpl in H; [|done].
    exists wq. split; [done|].
    destruct (GetFrontTaskEnqueueOrder wq) as [k|]; [|congruence].
    simplify_option_eq. eauto.
  - intros (wq & -> & H). simpl.
    destruct (GetFrontTaskEnqueueOrder wq) as [k|]; [|by subst].
    destruct H as (m & -> & Hk & ->). simpl. rewrite Hk. simpl.
    by rewrite decide_True.
Qed.

Lemma AssignQueueToSet_Some (p : WorkQueuePtr) (j : nat) (σ σ' : State) :
  AssignQueueToSet p j σ = Some σ' ↔
  ∃ wq, work_queues σ !! p = Some wq
    ∧ j < length (enqueue_order_to_work_queue_maps_ σ)
    ∧ work_queue_set_index_ wq < length (enqueue_order_to_work_queue_maps_ σ)
    ∧ let σ1 := set_queue p (mkWorkQueue (work_queue_ wq) j) σ in
      match GetFrontTaskEnqueueOrder wq with
      | None => σ' = σ1
      | Some k => ∃ m_old m_new,
          enqueue_order_to_work_queue_maps_ σ !! work_queue_set_index_ wq = Some m_old
          ∧ enqueue_order_to_work_queue_maps_
              (set_map (work_queue_set_index_ wq) (map_erase k m_old) σ1) !! j
            = Some m_new
          ∧ σ' = set_map j (map_insert k p m_new)
                   (set_map (work_queue_set_index_ wq) (map_erase k m_old) σ1)
      end.
Proof.
  unfold AssignQueueToSet, work_queue_set_index, set_work_queue_set_index, DCHECK.
  split.
  - intros H. case_decide as Hj; simpl in H; [|done].
    destruct (work_queues σ !! p) as [wq|] eqn:Hp; simpl in H; [|done].
    case_decide as Hold; simpl in H; [|done].
    exists wq. do 3 (split; [done|]). simpl.
    destruct (GetFrontTaskEnqueueOrder wq) as [k|]; [|congruence].
    simpl in H. simplify_option_eq. eauto.
  - intros (wq & Hp & Hj & Hold & H). rewrite decide_True by done. simpl.
    rewrite Hp. simpl. rewrite decide_True by done. simpl.
    destruct (GetFrontTaskEnqueueOrder wq) as [k|]; [|by subst].
    destruct H as (m_old & m_new & Hm_old & Hm_new & ->).
    simpl in *. rewrite Hm_old. simpl. by rewrite Hm_new.
Qed.

(** ** The invariant is kept *)

Lemma front_in_set_set_queue (p q : WorkQueuePtr) (wq : WorkQueue) (σ : State)
    (i : nat) (k : N) :
  front_in_set (set_queue p wq σ) i k q ↔
  if decide (p = q)
  then work_queue_set_index_ wq = i ∧ GetFrontTaskEnqueueOrder wq = Some k
  else front_in_set σ i k q.
Proof.
  unfold front_in_set. setoid_rewrite lookup_set_queue.
  case_decide; [|done]. split.
  - by intros (wq' & [= <-] & ? & ?).
  - intros [? ?]. eauto.
Qed.

Lemma front_in_set_set_map (j : nat) (m : gmap N nat) (σ : State)
    (i : nat) (k : N) (q : WorkQueuePtr) :
  front_in_set (set_map j m σ) i k q ↔ front_in_set σ i k q.
Proof. done. Qed.

Lemma queues_ok_set_map (j : nat) (m : gmap N nat) (σ : State) (next : N) :
  queues_ok σ next → queues_ok (set_map j m σ) next.
Proof.
  intros [Hidx Hsort Hbelow Huniq]. split; simpl; try done.
  intros p wq Hp. rewrite length_insert. eauto.
Qed.

Lemma front_in_set_below (σ : State) (next : N) (i : nat) (k : N) (p : WorkQueuePtr) :
  queues_ok σ next → front_in_set σ i k p → (k < next)%N.
Proof.
  intros Hok (wq & Hp & _ & Hk). apply GetFront_elem in Hk as (t & Ht & <-).
  eapply ok_below; eauto.
Qed.

Lemma front_in_set_unique (σ : State) (next : N) (i i' : nat) (k : N)
    (p p' : WorkQueuePtr) :
  queues_ok σ next → front_in_set σ i k p → front_in_set σ i' k p' →
  p = p' ∧ i = i'.
Proof.
  intros Hok (wq & Hp & Hi & Hk) (wq' & Hp' & Hi' & Hk').
  apply GetFront_elem in Hk as (t & Ht & Hkt).
  apply GetFront_elem in Hk' as (t' & Ht' & Hkt').
  assert (p = p') as <-.
  { eapply (ok_unique _ _ Hok p p' wq wq' t t'); eauto. congruence. }
  split; [done|]. congruence.
Qed.

Lemma queues_ok_push (p : WorkQueuePtr) (wq : WorkQueue) (id : nat) (σ : State)
    (next : N) :
  queues_ok σ next → work_queues σ !! p = Some wq →
  queues_ok
    (set_queue p (mkWorkQueue (work_queue_ wq ++ [mkTask id next])
                    (work_queue_set_index_ wq)) σ)
    (N.succ next).
Proof.
  intros [Hidx Hsort Hbelow Huniq] Hp. split; simpl.
  - intros q wq'. rewrite lookup_insert. case_decide.
    + intros [= <-]. simpl. eauto.
    + eauto.
  - intros q wq'. rewrite lookup_insert. case_decide; [|by eauto].
    intros [= <-]. simpl. apply StronglySorted_app. split_and!.
    + intros t1 t2 Ht1 ->%list_elem_of_singleton. unfold older; simpl. eauto.
    + eauto.
    + repeat constructor.
  - intros q wq' t. rewrite lookup_insert. case_decide.
    + intros [= <-]. simpl. rewrite elem_of_app, list_elem_of_singleton.
      intros [Ht| ->]; [|simpl; lia]. specialize (Hbelow _ _ _ Hp Ht). lia.
    + intros Hq Ht. specialize (Hbelow _ _ _ Hq Ht). lia.
  - intros p1 p2 wq1 wq2 t1 t2. rewrite !lookup_insert.
    destruct (decide (p = p1)) as [<-|Hp1], (decide (p = p2)) as [<-|Hp2];
      try done.
    + intros [= <-] Hq2. simpl. rewrite elem_of_app, list_elem_of_singleton.
      intros [Ht1| ->] Ht2 Heq; [by eapply (Huniq p p2)|].
      specialize (Hbelow _ _ _ Hq2 Ht2). simpl in Heq. lia.
    + intros Hq1 [= <-]. simpl. rewrite elem_of_app, list_elem_of_singleton.
      intros Ht1 [Ht2| ->] Heq; [by eapply (Huniq p1 p)|].
      specialize (Hbelow _ _ _ Hq1 Ht1). simpl in Heq. lia.
    + eauto.
Qed.

Lemma Push_Inv (p : WorkQueuePtr) (id : nat) (σ σ' : State) (next : N) :
  Inv (mkSystem σ next) → Push p (mkTask id next) σ = Some σ' →
  Inv (mkSystem σ' (N.succ next)).
Proof.
  intros [Hmaps Hok]; simpl in *. unfold Push.
  destruct (work_queues σ !! p) as [wq|] eqn:Hp; simpl; [|done].
  pose proof (queues_ok_push p wq id σ next Hok Hp) as Hok1.
  set (wq1 := mkWorkQueue _ _) in *. set (σ1 := set_queue p wq1 σ) in *.
  case_bool_decide as Hempty.
  - intros (wq' & k & m & Hp' & Hk & Hm & ->)%OnPushQueue_Some.
    unfold σ1 in Hp'. rewrite lookup_set_queue, decide_True in Hp' by done.
    injection Hp' as <-. subst wq1. simpl in *. rewrite Hempty in Hk.
    injection Hk as <-.
    split; simpl; [|by apply queues_ok_set_map].
    assert (m !! next = None) as Hfresh.
    { destruct (m !! next) as [q|] eqn:Hq; [|done].
      apply (Hmaps _ _ _ _ Hm) in Hq.
      pose proof (front_in_set_below _ _ _ _ _ Hok Hq). lia. }
    intros i m' k q. rewrite lookup_set_map by (eapply lookup_lt_Some, Hm).
    rewrite front_in_set_set_map. unfold σ1.
    rewrite front_in_set_set_queue. simpl. rewrite Hempty. simpl.
    destruct (decide (work_queue_set_index_ wq = i)) as [<-|Hi].
    + intros [= <-]. rewrite lookup_map_insert, Hfresh. simpl.
      destruct (decide (p = q)) as [<-|Hpq].
      * unfold GetFrontTaskEnqueueOrder; simpl.
        case_decide as Hk; [by subst k|].
        split; [|intros [_ [= ?]]; done]. intros Hq.
        apply (Hmaps _ _ _ _ Hm) in Hq.
        destruct Hq as (wq' & Hp' & _ & Hfront). rewrite Hp in Hp'.
        injection Hp' as <-. apply GetFront_None in Hempty. congruence.
      * rewrite <- (Hmaps _ _ _ _ Hm). case_decide as Hk; [|done].
        subst k. rewrite Hfresh. split; [congruence|done].
    + intros Hm'. rewrite (Hmaps _ _ _ _ Hm').
      case_decide as Hpq; [|done]. subst q.
      split; [|by intros [? _]].
      intros (wq' & Hp' & _ & Hfront). rewrite Hp in Hp'.
      injection Hp' as <-. apply GetFront_None in Hempty. congruence.
  - intros [= <-]. split; simpl; [|done].
    intros i m k q Hm. unfold σ1 in *. simpl in Hm.
    rewrite (Hmaps _ _ _ _ Hm), front_in_set_set_queue.
    case_decide as Hpq; [|done]. subst q. subst wq1. simpl.
    unfold front_in_set. rewrite Hp.
    assert (GetFrontTaskEnqueueOrder
              (mkWorkQueue (work_queue_ wq ++ [mkTask id next])
                 (work_queue_set_index_ wq))
            = GetFrontTaskEnqueueOrder wq) as ->.
    { unfold GetFrontTaskEnqueueOrder. simpl.
      by destruct (work_queue_ wq). }
    simpl. split.
    + intros (wq' & [= <-] & ? & ?). done.
    + intros [? ?]. eauto.
Qed.

Lemma queues_ok_update (p : WorkQueuePtr) (wq wq' : WorkQueue) (σ : State)
    (next : N) :
  queues_ok σ next → work_queues σ !! p = Some wq →
  work_queue_set_index_ wq' < length (enqueue_order_to_work_queue_maps_ σ) →
  StronglySorted older (work_queue_ wq') →
  (∀ t, t ∈ work_queue_ wq' → t ∈ work_queue_ wq) →
  queues_ok (set_queue p wq' σ) next.
Proof.
  intros [Hidx Hsort Hbelow Huniq] Hp Hi Hs Hsub. split; simpl.
  - intros q wq0. rewrite lookup_insert. case_decide; [by intros [= <-]|eauto].
  - intros q wq0. rewrite lookup_insert. case_decide; [by intros [= <-]|eauto].
  - intros q wq0 t. rewrite lookup_insert. case_decide; [|by eauto].
    intros [= <-] Ht. eauto.
  - intros p1 p2 wq1 wq2 t1 t2. rewrite !lookup_insert.
    destruct (decide (p = p1)) as [<-|Hp1], (decide (p = p2)) as [<-|Hp2];
      try done.
    + intros [= <-] Hq2 Ht1 Ht2. eapply (Huniq p p2); eauto.
    + intros Hq1 [= <-] Ht1 Ht2. eapply (Huniq p1 p); eauto.
    + eauto.
Qed.

Lemma front_in_set_lookup (σ : State) (i : nat) (k : N) (p : WorkQueuePtr)
    (wq : WorkQueue) :
  work_queues σ !! p = Some wq →
  front_in_set σ i k p ↔
  work_queue_set_index_ wq = i ∧ GetFrontTaskEnqueueOrder wq = Some k.
Proof.
  intros Hp. unfold front_in_set. rewrite Hp. split.
  - by intros (wq' & [= <-] & ? & ?).
  - intros [? ?]. eauto.
Qed.

Lemma TakeTaskFromWorkQueue_Inv (p : WorkQueuePtr) (t : Task) (σ σ' : State)
    (next : N) :
  Inv (mkSystem σ next) → TakeTaskFromWorkQueue p σ = Some (t, σ') →
  Inv (mkSystem σ' next).
Proof.
  intros [Hmaps Hok]; simpl in *. unfold TakeTaskFromWorkQueue.
  destruct (work_queues σ !! p) as [wq|] eqn:Hp; simpl; [|done].
  destruct (work_queue_ wq) as [|t0 rest] eqn:Htasks; [done|].
  set (wq1 := mkWorkQueue rest _). set (σ1 := set_queue p wq1 σ).
  destruct (OnPopQueue p σ1) as [σ2|] eqn:Hpop; simpl; [|done].
  intros [= <- <-].
  apply OnPopQueue_Some in Hpop as (wq' & m & k & Hp' & Hm & Hbegin & ->).
  unfold σ1 in Hp'. rewrite lookup_set_queue, decide_True in Hp' by done.
  injection Hp' as <-. simpl in Hm.
  pose proof (ok_sorted _ _ Hok _ _ Hp) as Hsorted. rewrite Htasks in Hsorted.
  apply StronglySorted_cons in Hsorted as [Hfirst Hsorted].
  assert (queues_ok σ1 next) as Hok1.
  { eapply queues_ok_update; eauto.
    - simpl. eapply ok_index; eauto.
    - intros t' Ht'. rewrite Htasks. by right. }
  split; simpl; [|by apply queues_ok_set_map].
  (* the entry [begin()] points to is the old front task of [p] *)
  apply map_begin_Some in Hbegin as [Hk _].
  assert (k = enqueue_order t0) as ->.
  { apply (Hmaps _ _ _ _ Hm) in Hk. rewrite (front_in_set_lookup _ _ _ _ _ Hp) in Hk.
    destruct Hk as [_ Hk]. unfold GetFrontTaskEnqueueOrder in Hk.
    rewrite Htasks in Hk. by injection Hk. }
  assert (∀ k0 q, m !! k0 = Some q → q ≠ p → k0 ≠ enqueue_order t0) as Hother.
  { intros k0 q Hq Hne ->. congruence. }
  assert (∀ k0, m !! k0 = Some p → k0 = enqueue_order t0) as Hself.
  { intros k0 Hk0. apply (Hmaps _ _ _ _ Hm) in Hk, Hk0.
    apply (front_in_set_lookup _ _ _ _ _ Hp) in Hk as [_ Hk].
    apply (front_in_set_lookup _ _ _ _ _ Hp) in Hk0 as [_ Hk0].
    congruence. }
  assert (∀ t' q, t' ∈ rest → m !! enqueue_order t' = Some q → False) as Hrest.
  { intros t' q Ht' Hq.
    assert (q = p) as ->.
    { apply (Hmaps _ _ _ _ Hm) in Hq as (wq' & Hwq' & _ & Hfront).
      apply GetFront_elem in Hfront as (t'' & Ht'' & Heq).
      eapply (ok_unique _ _ Hok q p wq' wq t'' t'); eauto.
      rewrite Htasks. by right. }
    apply Hself in Hq. rewrite Forall_forall in Hfirst.
    specialize (Hfirst _ Ht'). unfold older in Hfirst. lia. }
  intros i m' k0 q. rewrite lookup_set_map by (eapply lookup_lt_Some, Hm).
  rewrite front_in_set_set_map. unfold σ1. rewrite front_in_set_set_queue.
  simpl. destruct (decide (work_queue_set_index_ wq = i)) as [<-|Hi].
  - intros [= <-]. unfold map_erase.
    destruct rest as [|t1 rest']; unfold GetFrontTaskEnqueueOrder; simpl.
    + rewrite lookup_delete_Some. destruct (decide (p = q)) as [<-|Hpq].
      * split; [|by intros [_ ?]]. intros [Hne Hk0]. apply Hself in Hk0. done.
      * rewrite <- (Hmaps _ _ _ _ Hm). split; [by intros [_ ?]|].
        intros Hk0. split; [|done]. apply not_eq_sym. eauto.
    + assert (delete (enqueue_order t0) m !! enqueue_order t1 = None) as Hfresh.
      { apply lookup_delete_None. right.
        destruct (m !! enqueue_order t1) as [q'|] eqn:Hq'; [|done].
        exfalso. eapply (Hrest t1); [by left|done]. }
      rewrite lookup_map_insert, Hfresh. simpl.
      destruct (decide (p = q)) as [<-|Hpq].
      * case_decide as Hk1; [by subst k0|].
        rewrite lookup_delete_Some. split.
        -- intros [Hne Hk0]. apply Hself in Hk0. done.
        -- intros [_ [= ?]]. done.
      * rewrite <- (Hmaps _ _ _ _ Hm). case_decide as Hk1.
        -- subst k0. split; [congruence|]. intros Hq. exfalso.
           eapply (Hrest t1); [by left|done].
        -- rewrite lookup_delete_Some. split; [by intros [_ ?]|].
           intros Hk0. split; [|done]. apply not_eq_sym. eauto.
  - intros Hm'. rewrite (Hmaps _ _ _ _ Hm').
    case_decide as Hpq; [|done]. subst q.
    rewrite (front_in_set_lookup _ _ _ _ _ Hp). split; intros [? _]; done.
Qed.

Lemma agree_self (σ : State) (p : WorkQueuePtr) (wq : WorkQueue) (i : nat)
    (m : gmap N nat) (k0 : N) :
  maps_agree σ → work_queues σ !! p = Some wq →
  enqueue_order_to_work_queue_maps_ σ !! i = Some m → m !! k0 = Some p →
  i = work_queue_set_index_ wq ∧ GetFrontTaskEnqueueOrder wq = Some k0.
Proof.
  intros Hmaps Hp Hm Hk0. apply (Hmaps _ _ _ _ Hm) in Hk0.
  apply (front_in_set_lookup _ _ _ _ _ Hp) in Hk0 as [? ?]. done.
Qed.

Lemma agree_key (σ : State) (next : N) (p q : WorkQueuePtr) (wq : WorkQueue)
    (i : nat) (m : gmap N nat) (k : N) :
  maps_agree σ → queues_ok σ next → work_queues σ !! p = Some wq →
  GetFrontTaskEnqueueOrder wq = Some k →
  enqueue_order_to_work_queue_maps_ σ !! i = Some m → m !! k = Some q →
  q = p ∧ i = work_queue_set_index_ wq.
Proof.
  intros Hmaps Hok Hp Hk Hm Hq. apply (Hmaps _ _ _ _ Hm) in Hq.
  assert (front_in_set σ (work_queue_set_index_ wq) k p) as Hfront.
  { by apply (front_in_set_lookup _ _ _ _ _ Hp). }
  by destruct (front_in_set_unique _ _ _ _ _ _ _ Hok Hq Hfront).
Qed.

Lemma agree_registered (σ : State) (p : WorkQueuePtr) (wq : WorkQueue) (k : N)
    (m : gmap N nat) :
  maps_agree σ → work_queues σ !! p = Some wq →
  GetFrontTaskEnqueueOrder wq = Some k →
  enqueue_order_to_work_queue_maps_ σ !! work_queue_set_index_ wq = Some m →
  m !! k = Some p.
Proof.
  intros Hmaps Hp Hk Hm. apply (Hmaps _ _ _ _ Hm).
  by apply (front_in_set_lookup _ _ _ _ _ Hp).
Qed.

Lemma AssignQueueToSet_Inv (p : WorkQueuePtr) (j : nat) (σ σ' : State) (next : N) :
  Inv (mkSystem σ next) → AssignQueueToSet p j σ = Some σ' →
  Inv (mkSystem σ' next).
Proof.
  intros [Hmaps Hok]; simpl in *.
  intros (wq & Hp & Hj & Hold & H)%AssignQueueToSet_Some. cbv zeta in H.
  set (σ1 := set_queue p (mkWorkQueue (work_queue_ wq) j) σ) in *.
  assert (queues_ok σ1 next) as Hok1.
  { eapply queues_ok_update; eauto. simpl. eapply ok_sorted; eauto. }
  destruct (GetFrontTaskEnqueueOrder wq) as [k|] eqn:Hk.
  - destruct H as (m_old & m_new & Hm_old & Hm_new & ->).
    split; simpl; [|by do 2 apply queues_ok_set_map].
    pose proof (agree_registered _ _ _ _ _ Hmaps Hp Hk Hm_old) as Hreg.
    pose proof (λ i m k0, agree_self σ p wq i m k0 Hmaps Hp) as Hself.
    pose proof (λ q i m, agree_key σ next p q wq i m k Hmaps Hok Hp Hk) as Hkey.
    rewrite lookup_set_map in Hm_new by done.
    intros i m' k0 q.
    rewrite lookup_set_map by (unfold set_map; simpl; by rewrite length_insert).
    rewrite lookup_set_map by done.
    rewrite !front_in_set_set_map. unfold σ1 at 2.
    rewrite front_in_set_set_queue. simpl. fold (GetFrontTaskEnqueueOrder wq).
    assert (GetFrontTaskEnqueueOrder (mkWorkQueue (work_queue_ wq) j)
            = Some k) as -> by done.
    unfold map_erase in *.
    destruct (decide (j = i)) as [<-|Hji].
    + intros [= <-]. rewrite lookup_map_insert.
      destruct (decide (work_queue_set_index_ wq = j)) as [Hoj|Hoj].
      * (* the queue stays in its set *)
        injection Hm_new as <-. rewrite Hoj in Hm_old.
        rewrite lookup_delete_eq. simpl.
        destruct (decide (p = q)) as [<-|Hpq].
        -- destruct (decide (k = k0)) as [->|Hkk]; [done|].
           split; [|by intros [_ [= ?]]]. intros Hk0. exfalso.
           apply lookup_delete_Some in Hk0 as [_ Hk0].
           destruct (Hself _ _ _ Hm_old Hk0) as [_ ?]. congruence.
        -- rewrite <- (Hmaps _ _ _ _ Hm_old).
           destruct (decide (k = k0)) as [<-|Hkk].
           ++ split; [congruence|]. intros Hq. congruence.
           ++ rewrite lookup_delete_Some. split; [by intros [_ ?]|done].
      * simpl in Hm_new.
        assert (m_new !! k = None) as Hfresh.
        { destruct (m_new !! k) as [q'|] eqn:Hq'; [|done].
          destruct (Hkey _ _ _ Hm_new Hq') as [_ ->]. done. }
        rewrite Hfresh. simpl.
        destruct (decide (p = q)) as [<-|Hpq].
        -- destruct (decide (k = k0)) as [->|Hkk]; [done|].
           split; [|by intros [_ [= ?]]]. intros Hk0. exfalso.
           destruct (Hself _ _ _ Hm_new Hk0) as [? _]. done.
        -- rewrite <- (Hmaps _ _ _ _ Hm_new).
           destruct (decide (k = k0)) as [<-|Hkk]; [|done].
           rewrite Hfresh. split; [congruence|done].
    + destruct (decide (work_queue_set_index_ wq = i)) as [<-|Hoi].
      * intros [= <-]. rewrite lookup_delete_Some.
        destruct (decide (p = q)) as [<-|Hpq].
        -- split; [|by intros [? _]]. intros [Hne Hk0].
           destruct (Hself _ _ _ Hm_old Hk0) as [_ ?]. congruence.
        -- rewrite <- (Hmaps _ _ _ _ Hm_old). split; [by intros [_ ?]|].
           intros Hk0. split; [|done]. intros <-. congruence.
      * simpl. intros Hm'. destruct (decide (p = q)) as [<-|Hpq].
        -- split; [|by intros [? _]]. intros Hk0.
           destruct (Hself _ _ _ Hm' Hk0) as [? _]. done.
        -- by rewrite <- (Hmaps _ _ _ _ Hm').
  - subst σ'. split; simpl; [|done].
    intros i m k q Hm. unfold σ1 in *. simpl in Hm.
    rewrite (Hmaps _ _ _ _ Hm), front_in_set_set_queue.
    case_decide as Hpq; [|done]. subst q.
    rewrite (front_in_set_lookup _ _ _ _ _ Hp). simpl.
    fold (GetFrontTaskEnqueueOrder wq).
    assert (GetFrontTaskEnqueueOrder (mkWorkQueue (work_queue_ wq) j)
            = None) as -> by done.
    rewrite Hk. split; intros [_ ?]; done.
Qed.

Lemma UnregisterQueue_Inv (p : WorkQueuePtr) (σ σ' : State) (next : N) :
  Inv (mkSystem σ next) → UnregisterQueue p σ = Some σ' →
  Inv (mkSystem σ' next).
Proof.
  intros [Hmaps Hok]; simpl in *. unfold UnregisterQueue.
  destruct (RemoveQueue p σ) as [σ1|] eqn:Hrem; simpl; [|done].
  intros [= <-]. apply RemoveQueue_Some in Hrem as (wq & Hp & H).
  assert (∀ i k q, front_in_set
            (mkState (delete p (work_queues σ1))
               (enqueue_order_to_work_queue_maps_ σ1)) i k q
          ↔ q ≠ p ∧ front_in_set (mkState (work_queues σ1) []) i k q) as Hfront.
  { intros i k q. unfold front_in_set; simpl. split.
    - intros (wq' & Hq%lookup_delete_Some & ? & ?). naive_solver.
    - intros (Hne & wq' & Hq & ? & ?). exists wq'. by rewrite lookup_delete_ne. }
  assert (queues_ok
            (mkState (delete p (work_queues σ))
               (enqueue_order_to_work_queue_maps_ σ)) next) as Hok'.
  { destruct Hok as [Hidx Hsort Hbelow Huniq]. split; simpl.
    - intros q wq' [_ ?]%lookup_delete_Some. eauto.
    - intros q wq' [_ ?]%lookup_delete_Some. eauto.
    - intros q wq' t [_ ?]%lookup_delete_Some. eauto.
    - intros p1 p2 wq1 wq2 t1 t2 [_ ?]%lookup_delete_Some [_ ?]%lookup_delete_Some.
      eauto. }
  pose proof (λ i m k0, agree_self σ p wq i m k0 Hmaps Hp) as Hself.
  destruct (GetFrontTaskEnqueueOrder wq) as [k|] eqn:Hk.
  - destruct H as (m & Hm & Hreg & ->). simpl in *. split; simpl.
    + intros i m' k0 q. rewrite Hfront. simpl.
      rewrite list_lookup_insert.
      destruct (decide (work_queue_set_index_ wq = i)) as [<-|Hi].
      * rewrite decide_True by (split; [done|]; eapply lookup_lt_Some, Hm).
        intros [= <-]. unfold map_erase. rewrite lookup_delete_Some.
        rewrite (Hmaps _ _ _ _ Hm). split.
        -- intros [Hne Hq]. split; [|done]. intros ->.
           apply (Hmaps _ _ _ _ Hm) in Hq.
           destruct (Hself _ _ _ Hm Hq) as [_ ?]. congruence.
        -- intros [Hne Hq]. split; [|done]. intros <-.
           apply (Hmaps _ _ _ _ Hm) in Hq. congruence.
      * rewrite decide_False by (by intros [? _]).
        intros Hm'. rewrite (Hmaps _ _ _ _ Hm'). split; [|by intros [_ ?]].
        intros Hq. split; [|done]. intros ->.
        apply (Hmaps _ _ _ _ Hm') in Hq.
        destruct (Hself _ _ _ Hm' Hq) as [? _]. done.
    + destruct Hok' as [Hidx Hsort Hbelow Huniq]. split; simpl; try done.
      intros q wq' Hq. rewrite length_insert. eauto.
  - subst σ1. split; simpl; [|done].
    intros i m k q Hm. rewrite Hfront. simpl. rewrite (Hmaps _ _ _ _ Hm).
    split; [|by intros [_ ?]].
    intros Hq. split; [|done]. intros ->.
    apply (Hmaps _ _ _ _ Hm) in Hq.
    destruct (Hself _ _ _ Hm Hq) as [_ ?]. congruence.
Qed.

Lemma initial_Inv (n : nat) (s : System) : initial n s → Inv s.
Proof.
  intros [Hmaps Hqueues]. unfold map_Forall in Hqueues. split.
  - intros i m k p Hm. rewrite Hmaps in Hm. unfold WorkQueueSets_new in Hm.
    apply lookup_replicate in Hm as [-> _]. rewrite lookup_empty. split; [done|].
    intros (wq & Hp & _ & Hk). destruct (Hqueues _ _ Hp) as [Hnil _].
    apply GetFront_None in Hnil. congruence.
  - split.
    + intros p wq Hp. destruct (Hqueues _ _ Hp) as [_ Hi].
      rewrite Hmaps. unfold WorkQueueSets_new. by rewrite length_replicate.
    + intros p wq Hp. destruct (Hqueues _ _ Hp) as [-> _]. constructor.
    + intros p wq t Hp Ht. destruct (Hqueues _ _ Hp) as [Hnil _].
      rewrite Hnil in Ht. by apply elem_of_nil in Ht.
    + intros p1 p2 wq1 wq2 t1 t2 Hp1 _ Ht1. destruct (Hqueues _ _ Hp1) as [Hnil _].
      rewrite Hnil in Ht1. by apply elem_of_nil in Ht1.
Qed.

Lemma step_Inv (s s' : System) : Inv s → step s s' → Inv s'.
Proof.
  intros HInv Hstep. destruct Hstep.
  - eapply Push_Inv; eauto.
  - eapply TakeTaskFromWorkQueue_Inv; eauto.
  - eapply AssignQueueToSet_Inv; eauto.
  - eapply UnregisterQueue_Inv; eauto.
Qed.

Lemma reachable_Inv (n : nat) (s : System) : reachable n s → Inv s.
Proof.
  induction 1 as [s Hinit|s s' _ IH Hstep].
  - by eapply initial_Inv.
  - by eapply step_Inv.
Qed.

Lemma run_call_length (c : Call) (σ σ' : State) :
  run_call c σ = Some σ' →
  length (enqueue_order_to_work_queue_maps_ σ')
    = length (enqueue_order_to_work_queue_maps_ σ).
Proof.
  destruct c as [p|p j|p|p]; simpl.
  - intros (wq & _ & H)%RemoveQueue_Some.
    destruct (GetFrontTaskEnqueueOrder wq); [|by subst].
    destruct H as (m & _ & _ & ->). simpl. by rewrite length_insert.
  - intros (wq & _ & _ & _ & H)%AssignQueueToSet_Some. cbv zeta in H.
    destruct (GetFrontTaskEnqueueOrder wq); [|by subst].
    destruct H as (? & ? & _ & _ & ->). simpl. by rewrite !length_insert.
  - intros (wq & k & m & _ & _ & _ & ->)%OnPushQueue_Some. simpl.
    by rewrite length_insert.
  - intros (wq & m & k & _ & _ & _ & ->)%OnPopQueue_Some. simpl.
    by rewrite length_insert.
Qed.

Lemma step_length (s s' : System) :
  step s s' →
  length (enqueue_order_to_work_queue_maps_ (sets s'))
    = length (enqueue_order_to_work_queue_maps_ (sets s)).
Proof.
  intros Hstep. destruct Hstep as [p id σ σ' next H|p t σ σ' next H
    |p j σ σ' next H|p σ σ' next H]; simpl.
  - unfold Push in H. destruct (work_queues σ !! p) as [wq|]; simpl in H; [|done].
    case_bool_decide; [|by injection H as <-].
    by apply (run_call_length (CallOnPushQueue p)) in H.
  - unfold TakeTaskFromWorkQueue in H.
    destruct (work_queues σ !! p) as [wq|]; simpl in H; [|done].
    destruct (work_queue_ wq); [done|].
    destruct (OnPopQueue _ _) as [σ2|] eqn:Hpop; simpl in H; [|done].
    injection H as _ <-. by apply (run_call_length (CallOnPopQueue p)) in Hpop.
  - by apply (run_call_length (CallAssignQueueToSet p j)) in H.
  - unfold UnregisterQueue in H.
    destruct (RemoveQueue p σ) as [σ1|] eqn:Hrem; simpl in H; [|done].
    injection H as <-. simpl.
    by apply (run_call_length (CallRemoveQueue p)) in Hrem.
Qed.

Lemma reachable_length (n : nat) (s : System) :
  reachable n s → length (enqueue_order_to_work_queue_maps_ (sets s)) = n.
Proof.
  induction 1 as [s [Hmaps _]|s s' _ IH Hstep].
  - rewrite Hmaps. apply length_replicate.
  - by rewrite (step_length _ _ Hstep).
Qed.

(** What [GetOldestQueueInSet] returns, in any state. *)
Lemma GetOldestQueueInSet_begin (set_index : nat) (σ : State) (m : gmap N nat) :
  enqueue_order_to_work_queue_maps_ σ !! set_index = Some m →
  GetOldestQueueInSet set_index σ = Some (snd <$> map_begin m).
Proof.
  intros Hm. unfold GetOldestQueueInSet. rewrite Hm. simpl.
  destruct (map_empty m) eqn:He; [|done].
  apply map_empty_true in He as ->. unfold map_begin.
  by rewrite map_to_list_empty.
Qed.

(** A call for another queue does not register [p]. *)
Lemma run_call_registered (c : Call) (p : WorkQueuePtr) (σ σ' : State)
    (i : nat) (m' : gmap N nat) :
  call_queue c ≠ p → run_call c σ = Some σ' →
  enqueue_order_to_work_queue_maps_ σ' !! i = Some m' → registered p m' →
  ∃ m, enqueue_order_to_work_queue_maps_ σ !! i = Some m ∧ registered p m.
Proof.
  intros Hne Hrun Hm' Hreg. destruct c as [q|q j|q|q]; simpl in *.
  - apply RemoveQueue_Some in Hrun as (wq & _ & H).
    destruct (GetFrontTaskEnqueueOrder wq); [|subst; eauto].
    destruct H as (m & Hm & _ & ->). simpl in Hm'.
    apply list_lookup_insert_Some in Hm' as [(<- & <- & _)|[_ Hm']]; [|eauto].
    apply registered_map_erase in Hreg. eauto.
  - apply AssignQueueToSet_Some in Hrun as (wq & _ & Hj & Hold & H).
    cbv zeta in H. destruct (GetFrontTaskEnqueueOrder wq).
    + destruct H as (m_old & m_new & Hm_old & Hm_new & ->). simpl in *.
      apply list_lookup_insert_Some in Hm' as [(<- & <- & _)|[_ Hm']].
      * apply registered_map_insert in Hreg as [->|Hreg]; [done|].
        apply list_lookup_insert_Some in Hm_new as [(<- & <- & _)|[_ Hm_new]].
        -- apply registered_map_erase in Hreg. eauto.
        -- eauto.
      * apply list_lookup_insert_Some in Hm' as [(<- & <- & _)|[_ Hm']].
        -- apply registered_map_erase in Hreg. eauto.
        -- eauto.
    + subst σ'. simpl in Hm'. eauto.
  - apply OnPushQueue_Some in Hrun as (wq & k & m & _ & _ & Hm & ->).
    simpl in Hm'.
    apply list_lookup_insert_Some in Hm' as [(<- & <- & _)|[_ Hm']]; [|eauto].
    apply registered_map_insert in Hreg as [->|Hreg]; [done|eauto].
  - apply OnPopQueue_Some in Hrun as (wq & m & k & _ & Hm & _ & ->).
    simpl in Hm'.
    apply list_lookup_insert_Some in Hm' as [(<- & <- & _)|[_ Hm']]; [|eauto].
    destruct (GetFrontTaskEnqueueOrder wq).
    + apply registered_map_insert in Hreg as [->|Hreg]; [done|].
      apply registered_map_erase in Hreg. eauto.
    + apply registered_map_erase in Hreg. eauto.
Qed.

Lemma run_calls_registered (cs : list Call) (p : WorkQueuePtr) (σ σ' : State)
    (i : nat) (m' : gmap N nat) :
  Forall (λ c, call_queue c ≠ p) cs → run_calls cs σ = Some σ' →
  enqueue_order_to_work_queue_maps_ σ' !! i = Some m' → registered p m' →
  ∃ m, enqueue_order_to_work_queue_maps_ σ !! i = Some m ∧ registered p m.
Proof.
  intros Hcs. revert σ. induction Hcs as [|c cs Hc _ IH]; intros σ; simpl.
  - intros [= <-]. eauto.
  - destruct (run_call c σ) as [σ1|] eqn:Hrun; simpl; [|done].
    intros Hrest Hm' Hreg.
    destruct (IH _ Hrest Hm' Hreg) as (m1 & Hm1 & Hreg1).
    eapply run_call_registered; eauto.
Qed.

Lemma GetOldestQueueInSet_registered (set_index : nat) (σ : State)
    (p : WorkQueuePtr) :
  GetOldestQueueInSet set_index σ = Some (Some p) →
  ∃ m, enqueue_order_to_work_queue_maps_ σ !! set_index = Some m ∧ registered p m.
Proof.
  unfold GetOldestQueueInSet.
  destruct (enqueue_order_to_work_queue_maps_ σ !! set_index) as [m|]; [|done].
  simpl. destruct (map_empty m); [done|].
  destruct (map_begin m) as [[k q]|] eqn:Hb; [|done].
  intros [= <-]. apply map_begin_Some in Hb as [Hk _]. exists m.
  split; [done|]. by exists k.
Qed.

(** C3: in a WorkQueueSets driven by pushes and pops (and set changes and
    queue teardown), [GetOldestQueueInSet set_index] answers "none" exactly
    when the map of the set is empty, and then no queue of the set holds a
    task; otherwise it answers the queue registered under the least
    EnqueueOrder of the map, that queue is in the set, that EnqueueOrder is
    the one of its front task, and no task of any queue of the set has a
    smaller one. *)
Theorem GetOldestQueueInSet_oldest (n : nat) (s : System) (set_index : nat) :
  reachable n s → set_index < n →
  ∃ m, enqueue_order_to_work_queue_maps_ (sets s) !! set_index = Some m ∧
    ((m = ∅
      ∧ GetOldestQueueInSet set_index (sets s) = Some None
      ∧ ∀ p wq, work_queues (sets s) !! p = Some wq →
          work_queue_set_index_ wq = set_index → work_queue_ wq = [])
     ∨
     (∃ k p wq t rest,
        GetOldestQueueInSet set_index (sets s) = Some (Some p)
        ∧ m !! k = Some p
        ∧ (∀ k' p', m !! k' = Some p' → (k ≤ k')%N)
        ∧ work_queues (sets s) !! p = Some wq
        ∧ work_queue_set_index_ wq = set_index
        ∧ work_queue_ wq = t :: rest
        ∧ enqueue_order t = k
        ∧ ∀ p' wq' t', work_queues (sets s) !! p' = Some wq' →
            work_queue_set_index_ wq' = set_index → t' ∈ work_queue_ wq' →
            (k ≤ enqueue_order t')%N)).
Proof.
  intros Hreach Hlt. pose proof (reachable_Inv _ _ Hreach) as [Hmaps Hok].
  rewrite <- (reachable_length _ _ Hreach) in Hlt.
  apply lookup_lt_is_Some_2 in Hlt as [m Hm]. exists m. split; [done|].
  rewrite (GetOldestQueueInSet_begin _ _ _ Hm).
  destruct (map_begin m) as [[k p]|] eqn:Hb.
  - right. apply map_begin_Some in Hb as [Hk Hleast].
    pose proof Hk as Hfront. apply (Hmaps _ _ _ _ Hm) in Hfront.
    destruct Hfront as (wq & Hp & Hi & (t & rest & Htasks & Ht)%GetFront_Some).
    exists k, p, wq, t, rest. do 7 (split; [done|]).
    intros p' wq' t' Hp' Hi' Ht'.
    destruct (work_queue_ wq') as [|t0 rest'] eqn:Htasks';
      [by apply elem_of_nil in Ht'|].
    (* the front task of [p'] is registered, so it is not older than [k] *)
    assert (m !! enqueue_order t0 = Some p') as Hreg0.
    { apply (Hmaps _ _ _ _ Hm). exists wq'. do 2 (split; [done|]).
      unfold GetFrontTaskEnqueueOrder. by rewrite Htasks'. }
    specialize (Hleast _ _ Hreg0).
    pose proof (ok_sorted _ _ Hok _ _ Hp') as Hsorted. rewrite Htasks' in Hsorted.
    apply StronglySorted_cons in Hsorted as [Hfirst _].
    apply elem_of_cons in Ht' as [->|Ht']; [done|].
    rewrite Forall_forall in Hfirst. specialize (Hfirst _ Ht').
    unfold older in Hfirst. lia.
  - left. apply map_begin_None in Hb as ->. do 2 (split; [done|]).
    intros p wq Hp Hi. apply GetFront_None.
    destruct (GetFrontTaskEnqueueOrder wq) as [k|] eqn:Hk; [|done].
    assert ((∅ : gmap N nat) !! k = Some p) as Habs.
    { apply (Hmaps _ _ _ _ Hm). by exists wq. }
    by rewrite lookup_empty in Habs.
Qed.

(** What [OnPopQueue] leaves in the map of the queue's set, entry by entry:
    the least entry is gone; the queue is found under the EnqueueOrder of
    its front task unless another entry holds that key, which [insert]
    keeps; every other entry is as before. *)
Lemma OnPopQueue_entries (p : WorkQueuePtr) (σ σ' : State) :
  OnPopQueue p σ = Some σ' →
  ∃ wq m k m',
    work_queues σ !! p = Some wq
    ∧ enqueue_order_to_work_queue_maps_ σ !! work_queue_set_index_ wq = Some m
    ∧ m !! k = Some p
    ∧ (∀ k' p', m !! k' = Some p' → (k ≤ k')%N)
    ∧ work_queues σ' = work_queues σ
    ∧ enqueue_order_to_work_queue_maps_ σ' !! work_queue_set_index_ wq = Some m'
    ∧ (∀ i, i ≠ work_queue_set_index_ wq →
         enqueue_order_to_work_queue_maps_ σ' !! i
         = enqueue_order_to_work_queue_maps_ σ !! i)
    ∧ match GetFrontTaskEnqueueOrder wq with
      | Some k' =>
          (k' = k ∨ m !! k' = None → m' !! k' = Some p)
          ∧ (∀ q, k' ≠ k → m !! k' = Some q → m' !! k' = Some q)
          ∧ (k' ≠ k → m' !! k = None)
          ∧ (∀ j, j ≠ k → j ≠ k' → m' !! j = m !! j)
      | None => m' !! k = None ∧ ∀ j, j ≠ k → m' !! j = m !! j
      end.
Proof.
  intros (wq & m & k & Hp & Hm & Hb & ->)%OnPopQueue_Some.
  apply map_begin_Some in Hb as [Hk Hleast].
  pose proof (lookup_lt_Some _ _ _ Hm) as Hlt.
  eexists wq, m, k, _. do 5 (split; [done|]).
  split; [by rewrite lookup_set_map, decide_True|].
  split.
  { intros i Hi. rewrite lookup_set_map by done. by rewrite decide_False. }
  unfold map_erase. destruct (GetFrontTaskEnqueueOrder wq) as [k'|].
  - split_and!.
    + intros Hfree. rewrite lookup_map_insert, decide_True by done.
      destruct (decide (k' = k)) as [->|Hne].
      * by rewrite lookup_delete_eq.
      * rewrite lookup_delete_ne by done.
        destruct Hfree as [?|Hfree]; [done|]. by rewrite Hfree.
    + intros q Hne Hq. rewrite lookup_map_insert, decide_True by done.
      rewrite lookup_delete_ne by done. by rewrite Hq.
    + intros Hne. rewrite lookup_map_insert, decide_False by done.
      apply lookup_delete_eq.
    + intros j Hj Hj'. rewrite lookup_map_insert, decide_False by done.
      by rewrite lookup_delete_ne.
  - split; [apply lookup_delete_eq|].
    intros j Hj. by rewrite lookup_delete_ne.
Qed.

(** C5: [OnPopQueue queue] goes through only when the map of the queue's
    set is not empty and its least entry is [queue]; in every other case a
    DCHECK fails.  When it goes through, that least entry is erased; when
    the queue has a front task the queue is then found under the
    EnqueueOrder of that task (an entry another queue holds under that key
    is kept, as [insert] does), and when the queue is empty nothing is
    inserted; the other entries, the other sets and the queues stay as they
    are.  In a WorkQueueSets driven by pushes and pops the new key is always
    free: after a task is taken from the front of a queue, the entry under
    the EnqueueOrder of that task is gone and the queue is registered under
    the EnqueueOrder of its new front task, or not at all when it is
    empty. *)
Theorem OnPopQueue_checks_and_reinserts (work_queue : WorkQueuePtr) (σ : State) :
  match OnPopQueue work_queue σ with
  | Some σ' =>
      ∃ wq m k m',
        work_queues σ !! work_queue = Some wq
        ∧ enqueue_order_to_work_queue_maps_ σ !! work_queue_set_index_ wq = Some m
        ∧ m !! k = Some work_queue
        ∧ (∀ k' p', m !! k' = Some p' → (k ≤ k')%N)
        ∧ work_queues σ' = work_queues σ
        ∧ enqueue_order_to_work_queue_maps_ σ'
          = <[work_queue_set_index_ wq :=
                match GetFrontTaskEnqueueOrder wq with
                | Some k' => map_insert k' work_queue (delete k m)
                | None => delete k m
                end]> (enqueue_order_to_work_queue_maps_ σ)
        ∧ enqueue_order_to_work_queue_maps_ σ' !! work_queue_set_index_ wq = Some m'
        ∧ (∀ i, i ≠ work_queue_set_index_ wq →
             enqueue_order_to_work_queue_maps_ σ' !! i
             = enqueue_order_to_work_queue_maps_ σ !! i)
        ∧ match GetFrontTaskEnqueueOrder wq with
          | Some k' =>
              (k' = k ∨ m !! k' = None → m' !! k' = Some work_queue)
              ∧ (∀ q, k' ≠ k → m !! k' = Some q → m' !! k' = Some q)
              ∧ (k' ≠ k → m' !! k = None)
              ∧ (∀ j, j ≠ k → j ≠ k' → m' !! j = m !! j)
          | None => m' !! k = None ∧ ∀ j, j ≠ k → m' !! j = m !! j
          end
  | None =>
      ∀ wq m, work_queues σ !! work_queue = Some wq →
        enqueue_order_to_work_queue_maps_ σ !! work_queue_set_index_ wq = Some m →
        m = ∅
        ∨ ∃ k p, map_begin m = Some (k, p) ∧ p ≠ work_queue
                 ∧ m !! k = Some p ∧ ∀ k' p', m !! k' = Some p' → (k ≤ k')%N
  end
  ∧
  (∀ n next t σ',
     reachable n (mkSystem σ next) →
     TakeTaskFromWorkQueue work_queue σ = Some (t, σ') →
     ∃ wq' m m',
       work_queues σ' !! work_queue = Some wq'
       ∧ enqueue_order_to_work_queue_maps_ σ !! work_queue_set_index_ wq' = Some m
       ∧ enqueue_order_to_work_queue_maps_ σ' !! work_queue_set_index_ wq' = Some m'
       ∧ m !! enqueue_order t = Some work_queue
       ∧ m' !! enqueue_order t = None
       ∧ match GetFrontTaskEnqueueOrder wq' with
         | Some k' =>
             m !! k' = None
             ∧ m' !! k' = Some work_queue
             ∧ ∀ j, j ≠ enqueue_order t → j ≠ k' → m' !! j = m !! j
         | None =>
             ¬ registered work_queue m'
             ∧ ∀ j, j ≠ enqueue_order t → m' !! j = m !! j
         end).
Proof.
  split.
  - destruct (OnPopQueue work_queue σ) as [σ'|] eqn:Hpop.
    + destruct (OnPopQueue_entries _ _ _ Hpop)
        as (wq & m & k & m' & Hp & Hm & Hk & Hleast & Hqs & Hm' & Hother & Hent).
      apply OnPopQueue_Some in Hpop as (wq0 & m0 & k0 & Hp0 & Hm0 & Hb & ->).
      rewrite Hp in Hp0. injection Hp0 as <-.
      rewrite Hm in Hm0. injection Hm0 as <-.
      apply map_begin_Some in Hb as [Hk0 Hleast0].
      assert (k0 = k) as ->.
      { apply N.le_antisymm; [by eapply Hleast0|by eapply Hleast]. }
      exists wq, m, k, m'. do 5 (split; [done|]).
      split; [simpl; by destruct (GetFrontTaskEnqueueOrder wq)|].
      done.
    + intros wq m Hp Hm. destruct (map_begin m) as [[k p]|] eqn:Hb.
      * right. exists k, p. split; [done|].
        pose proof Hb as [Hk Hleast]%map_begin_Some.
        split; [|done]. intros ->.
        assert (is_Some (OnPopQueue work_queue σ)) as [σ' Hσ'].
        { eexists. apply OnPopQueue_Some. eauto 10. }
        congruence.
      * left. by apply map_begin_None.
  - intros n next t σ' Hreach Htake.
    pose proof (reachable_Inv _ _ Hreach) as [Hmaps Hok]. simpl in *.
    unfold TakeTaskFromWorkQueue in Htake.
    destruct (work_queues σ !! work_queue) as [wq|] eqn:Hp; simpl in Htake; [|done].
    destruct (work_queue_ wq) as [|t0 rest] eqn:Htasks; [done|].
    destruct (OnPopQueue work_queue _) as [σ2|] eqn:Hpop; simpl in Htake; [|done].
    injection Htake as -> ->.
    destruct (OnPopQueue_entries _ _ _ Hpop)
      as (wq1 & m & k & m' & Hp1 & Hm & Hk & Hleast & Hqs & Hm' & _ & Hent).
    rewrite lookup_set_queue, decide_True in Hp1 by done.
    injection Hp1 as <-. simpl in *.
    (* the least entry is the one of the task that was taken *)
    destruct (agree_self σ work_queue wq _ m k Hmaps Hp Hm Hk) as [_ Hfront].
    unfold GetFrontTaskEnqueueOrder in Hfront. rewrite Htasks in Hfront.
    injection Hfront as <-.
    pose proof (ok_sorted _ _ Hok _ _ Hp) as Hsorted. rewrite Htasks in Hsorted.
    apply StronglySorted_cons in Hsorted as [Hfirst _].
    eexists _, m, m'. rewrite Hqs, lookup_insert_eq.
    split; [done|]. simpl. do 3 (split; [done|]).
    unfold GetFrontTaskEnqueueOrder in *. simpl in *.
    destruct rest as [|t1 rest]; simpl in *.
    + destruct Hent as [Hgone Hsame]. split; [done|]. split; [|done].
      intros [j Hj]. destruct (decide (j = enqueue_order t)) as [->|Hne];
        [congruence|].
      rewrite (Hsame _ Hne) in Hj.
      destruct (agree_self σ work_queue wq _ m j Hmaps Hp Hm Hj) as [_ Hfront].
      unfold GetFrontTaskEnqueueOrder in Hfront. rewrite Htasks in Hfront.
      by injection Hfront.
    + destruct Hent as (Hnew & _ & Hgone & Hsame).
      assert (enqueue_order t1 ≠ enqueue_order t) as Hne.
      { apply Forall_cons in Hfirst as [Hlt _]. unfold older in Hlt. lia. }
      assert (m !! enqueue_order t1 = None) as Hfree.
      { destruct (m !! enqueue_order t1) as [q|] eqn:Hq; [|done].
        pose proof Hq as Hq'. apply (Hmaps _ _ _ _ Hm) in Hq'.
        destruct Hq' as (wq_q & Hwq_q & _ & (t_q & rest_q & Htq & Hkq)%GetFront_Some).
        assert (q = work_queue) as ->.
        { eapply (ok_unique _ _ Hok q work_queue wq_q wq t_q t1); eauto.
          - rewrite Htq. by left.
          - rewrite Htasks. right. by left. }
        destruct (agree_self σ work_queue wq _ m _ Hmaps Hp Hm Hq) as [_ Hfront].
        unfold GetFrontTaskEnqueueOrder in Hfront. rewrite Htasks in Hfront.
        by injection Hfront. }
      split; [by apply Hgone|]. split; [done|].
      split; [apply Hnew; by right|]. intros j Hj Hj'. by apply Hsame.
Qed.

(** In a system driven by pushes and pops the key under which [OnPopQueue]
    inserts the queue is free: taking a task leaves the queue registered
    under the EnqueueOrder of its new front task. *)
Lemma TakeTaskFromWorkQueue_reinserted (n : nat) (p : WorkQueuePtr) (t : Task)
    (σ σ' : State) (next : N) (wq' : WorkQueue) (k' : N) :
  reachable n (mkSystem σ next) →
  TakeTaskFromWorkQueue p σ = Some (t, σ') →
  work_queues σ' !! p = Some wq' →
  GetFrontTaskEnqueueOrder wq' = Some k' →
  ∃ m', enqueue_order_to_work_queue_maps_ σ' !! work_queue_set_index_ wq' = Some m'
        ∧ m' !! k' = Some p.
Proof.
  intros Hreach Htake Hp' Hk'.
  assert (reachable n (mkSystem σ' next)) as Hreach'.
  { eapply reachable_step; [done|]. by eapply step_pop. }
  pose proof (reachable_Inv _ _ Hreach') as [Hmaps Hok]. simpl in *.
  pose proof (ok_index _ _ Hok _ _ Hp') as Hlt.
  apply lookup_lt_is_Some_2 in Hlt as [m' Hm']. exists m'. split; [done|].
  eapply agree_registered; eauto.
Qed.

Lemma run_op_step (o : Op) (s s' : System) : run_op o s = Some s' → step s s'.
Proof.
  destruct s as [σ next]. destruct o as [p id|p|p j|p]; simpl.
  - destruct (Push p _ σ) as [σ'|] eqn:H; simpl; [|done].
    intros [= <-]. by eapply step_push.
  - destruct (TakeTaskFromWorkQueue p σ) as [[t σ']|] eqn:H; simpl; [|done].
    intros [= <-]. by eapply step_pop.
  - destruct (AssignQueueToSet p j σ) as [σ'|] eqn:H; simpl; [|done].
    intros [= <-]. by eapply step_assign.
  - destruct (UnregisterQueue p σ) as [σ'|] eqn:H; simpl; [|done].
    intros [= <-]. by eapply step_unregister.
Qed.

Lemma run_ops_reachable (n : nat) (os : list Op) (s s' : System) :
  reachable n s → run_ops os s = Some s' → reachable n s'.
Proof.
  revert s. induction os as [|o os IH]; intros s Hs; simpl.
  - by intros [= <-].
  - destruct (run_op o s) as [s1|] eqn:Ho; simpl; [|done].
    apply IH. eapply reachable_step; [done|]. by eapply run_op_step.
Qed.

Lemma scenario_start_initial : initial 2 scenario.start.
Proof.
  split; [done|]. simpl.
  repeat (apply map_Forall_insert_2; [simpl; split; [done|lia]|]).
  apply map_Forall_empty.
Qed.

Lemma scenario_after_pushes_reachable : reachable 2 scenario.after_pushes.
Proof.
  apply (run_ops_reachable 2 scenario.pushes scenario.start).
  - apply reachable_initial, scenario_start_initial.
  - vm_compute. reflexivity.
Qed.

(** The end-to-end scenario of the spec: B and C of the high priority set
    are taken before the older A of the low priority set. *)
Example scenario_drain_order :
  scenario.drain 5 (sets scenario.after_pushes) = [101; 102; 100].
Proof. vm_compute. reflexivity. Qed.

Lemma scenario_two_in_queue_reachable : reachable 2 scenario.two_in_queue.
Proof.
  apply (run_ops_reachable 2 scenario.pushes_two scenario.start).
  - apply reachable_initial, scenario_start_initial.
  - vm_compute. reflexivity.
Qed.

(** Queue 1 holds the tasks enqueued first and second, queue 2 the third.
    Taking the first task erases the entry 1 of queue 1 and registers the
    queue under 2; the entry of queue 2 stays. *)
Lemma OnPopQueue_checks_and_reinserts_witness :
  TakeTaskFromWorkQueue 1 (sets scenario.two_in_queue)
    = Some (mkTask 100 1, scenario.after_take)
  ∧ ∃ m m',
      enqueue_order_to_work_queue_maps_ (sets scenario.two_in_queue) !! 0 = Some m
      ∧ enqueue_order_to_work_queue_maps_ scenario.after_take !! 0 = Some m'
      ∧ m !! 1%N = Some 1
      ∧ m' !! 1%N = None
      ∧ m !! 2%N = None
      ∧ m' !! 2%N = Some 1
      ∧ m' !! 3%N = m !! 3%N.
Proof.
  assert (TakeTaskFromWorkQueue 1 (sets scenario.two_in_queue)
          = Some (mkTask 100 1, scenario.after_take)) as Htake.
  { vm_compute. reflexivity. }
  split; [exact Htake|].
  destruct (proj2 (OnPopQueue_checks_and_reinserts 1 (sets scenario.two_in_queue))
              2 (next_enqueue_order scenario.two_in_queue) (mkTask 100 1)
              scenario.after_take scenario_two_in_queue_reachable Htake)
    as (wq' & m & m' & Hwq' & Hm & Hm' & Hold & Hgone & Hent).
  assert (wq' = mkWorkQueue [mkTask 101 2] 0) as ->.
  { vm_compute in Hwq'. by injection Hwq' as <-. }
  simpl in *. destruct Hent as (Hfree & Hnew & Hsame).
  exists m, m'. do 6 (split; [done|]). by apply Hsame.
Defined.

(** C9: [RemoveQueue] leaves the state as it is when the queue has no
    front task.  In a WorkQueueSets driven by pushes and pops, removing a
    queue that has a front task erases the entry of the queue from the map
    of its set, and from then on, whatever is called for other queues,
    [GetOldestQueueInSet] does not return the queue, for any set. *)
Theorem RemoveQueue_removes :
  (∀ σ work_queue wq,
     work_queues σ !! work_queue = Some wq →
     GetFrontTaskEnqueueOrder wq = None →
     RemoveQueue work_queue σ = Some σ)
  ∧
  (∀ n s work_queue wq k,
     reachable n s →
     work_queues (sets s) !! work_queue = Some wq →
     GetFrontTaskEnqueueOrder wq = Some k →
     ∃ m, enqueue_order_to_work_queue_maps_ (sets s) !! work_queue_set_index_ wq
            = Some m
       ∧ m !! k = Some work_queue
       ∧ RemoveQueue work_queue (sets s)
           = Some (set_map (work_queue_set_index_ wq) (delete k m) (sets s))
       ∧ ∀ cs σ' set_index,
           Forall (λ c, call_queue c ≠ work_queue) cs →
           run_calls cs (set_map (work_queue_set_index_ wq) (delete k m) (sets s))
             = Some σ' →
           GetOldestQueueInSet set_index σ' ≠ Some (Some work_queue)).
Proof.
  split.
  - intros σ p wq Hp Hk. apply RemoveQueue_Some. exists wq. by rewrite Hk.
  - intros n s p wq k Hreach Hp Hk.
    pose proof (reachable_Inv _ _ Hreach) as [Hmaps Hok].
    pose proof (ok_index _ _ Hok _ _ Hp) as Hlt.
    apply lookup_lt_is_Some_2 in Hlt as [m Hm]. exists m. split; [done|].
    pose proof (agree_registered _ _ _ _ _ Hmaps Hp Hk Hm) as Hreg.
    split; [done|]. split.
    { apply RemoveQueue_Some. exists wq. rewrite Hk. eauto. }
    intros cs σ' i Hcs Hrun Hget.
    apply GetOldestQueueInSet_registered in Hget as (m' & Hm' & Hreg').
    destruct (run_calls_registered _ _ _ _ _ _ Hcs Hrun Hm' Hreg')
      as (m0 & Hm0 & [k0 Hk0]).
    rewrite lookup_set_map in Hm0 by (eapply lookup_lt_Some, Hm).
    case_decide as Hi.
    + injection Hm0 as <-. apply lookup_delete_Some in Hk0 as [Hne Hk0].
      destruct (agree_self _ _ _ _ _ _ Hmaps Hp Hm Hk0) as [_ ?]. congruence.
    + destruct (agree_self _ _ _ _ _ _ Hmaps Hp Hm0 Hk0) as [? _]. done.
Qed.

Lemma GetOldestQueueInSet_oldest_witness :
  ∃ m, enqueue_order_to_work_queue_maps_ (sets scenario.after_pushes) !! 0 = Some m ∧
    ((m = ∅
      ∧ GetOldestQueueInSet 0 (sets scenario.after_pushes) = Some None
      ∧ ∀ p wq, work_queues (sets scenario.after_pushes) !! p = Some wq →
          work_queue_set_index_ wq = 0 → work_queue_ wq = [])
     ∨
     (∃ k p wq t rest,
        GetOldestQueueInSet 0 (sets scenario.after_pushes) = Some (Some p)
        ∧ m !! k = Some p
        ∧ (∀ k' p', m !! k' = Some p' → (k ≤ k')%N)
        ∧ work_queues (sets scenario.after_pushes) !! p = Some wq
        ∧ work_queue_set_index_ wq = 0
        ∧ work_queue_ wq = t :: rest
        ∧ enqueue_order t = k
        ∧ ∀ p' wq' t', work_queues (sets scenario.after_pushes) !! p' = Some wq' →
            work_queue_set_index_ wq' = 0 → t' ∈ work_queue_ wq' →
            (k ≤ enqueue_order t')%N)).
Proof.
  apply (GetOldestQueueInSet_oldest 2 scenario.after_pushes 0).
  - apply scenario_after_pushes_reachable.
  - lia.
Defined.

Lemma RemoveQueue_removes_witness :
  RemoveQueue 1 (sets scenario.start) = Some (sets scenario.start)
  ∧ ∃ m, enqueue_order_to_work_queue_maps_ (sets scenario.after_pushes) !! 0
           = Some m
      ∧ m !! 2%N = Some 1
      ∧ RemoveQueue 1 (sets scenario.after_pushes)
          = Some (set_map 0 (delete 2%N m) (sets scenario.after_pushes))
      ∧ ∀ cs σ' set_index,
          Forall (λ c, call_queue c ≠ 1) cs →
          run_calls cs (set_map 0 (delete 2%N m) (sets scenario.after_pushes))
            = Some σ' →
          GetOldestQueueInSet set_index σ' ≠ Some (Some 1).
Proof.
  split.
  - apply (proj1 RemoveQueue_removes (sets scenario.start) 1 (mkWorkQueue [] 0)).
    + vm_compute. reflexivity.
    + reflexivity.
  - apply (proj2 RemoveQueue_removes 2 scenario.after_pushes 1
             (mkWorkQueue [mkTask 101 2] 0) 2%N).
    + apply scenario_after_pushes_reachable.
    + vm_compute. reflexivity.
    + reflexivity.
Defined.

End WorkQueueSets_properties.

(* ================================================================== *)
(** * Properties of ThrottlingHelper *)

Section ThrottlingHelper_properties.
Import base ThrottlingHelper.
Context {Env : Type} `{!Collaborators Env}.
Local Open Scope nat_scope.

(** ** Scheduling the pump *)

(** The world after the pump has been (re)scheduled for [throttled_runtime]. *)
Lemma MaybeSchedule_post (now unthrottled_runtime : TimeTicks) (w : World Env) :
  is_null (pending_pump_throttled_tasks_runtime_ w) = true
  ∨ (ThrottledRunTime unthrottled_runtime < pending_pump_throttled_tasks_runtime_ w)%Z →
  MaybeSchedulePumpThrottledTasksLocked now unthrottled_runtime w
  = mkWorld (throttled_queues_ w) (task_runner_ w)
      (ThrottledRunTime unthrottled_runtime)
      (S (closure_generation w)) (task_queues w)
      (posted_tasks w ++
         [mkPostedTask (pump_throttled_tasks_closure (S (closure_generation w)))
            (ThrottledRunTime unthrottled_runtime - now)%Z])
      (env w).
Proof.
  intros Hcond. unfold MaybeSchedulePumpThrottledTasksLocked.
  destruct (negb _ && _) eqn:Hskip; [|done].
  apply andb_true_iff in Hskip as [Hnull Hle].
  apply negb_true_iff in Hnull. apply Z.leb_le in Hle.
  destruct Hcond as [Hcond|Hcond]; [congruence|lia].
Qed.

Lemma MaybeSchedule_skip (now unthrottled_runtime : TimeTicks) (w : World Env) :
  is_null (pending_pump_throttled_tasks_runtime_ w) = false →
  (pending_pump_throttled_tasks_runtime_ w ≤ ThrottledRunTime unthrottled_runtime)%Z →
  MaybeSchedulePumpThrottledTasksLocked now unthrottled_runtime w = w.
Proof.
  intros Hnull Hle. unfold MaybeSchedulePumpThrottledTasksLocked.
  rewrite Hnull. apply Z.leb_le in Hle. by rewrite Hle.
Qed.

Lemma MaybeSchedule_cases (now unthrottled_runtime : TimeTicks) (w : World Env) :
  (is_null (pending_pump_throttled_tasks_runtime_ w) = false
   ∧ (pending_pump_throttled_tasks_runtime_ w ≤ ThrottledRunTime unthrottled_runtime)%Z)
  ∨ (is_null (pending_pump_throttled_tasks_runtime_ w) = true
     ∨ (ThrottledRunTime unthrottled_runtime < pending_pump_throttled_tasks_runtime_ w)%Z).
Proof.
  destruct (is_null (pending_pump_throttled_tasks_runtime_ w)); [by right; left|].
  destruct (Z.le_gt_cases (pending_pump_throttled_tasks_runtime_ w)
              (ThrottledRunTime unthrottled_runtime)); [by left|right; right; lia].
Qed.

(** ** At most one pump is pending *)

Lemma timers_ok_cancel_post (generation : nat) (posted : list PostedTask)
    (delay : TimeDelta) :
  timers_ok generation posted →
  timers_ok (S generation)
    (posted ++ [mkPostedTask (pump_throttled_tasks_closure (S generation)) delay]).
Proof.
  intros [Hbound _]. split.
  - apply Forall_app. split.
    + eapply Forall_impl; [done|]. intros t Ht g Hg. specialize (Ht g Hg). lia.
    + constructor; [|done]. simpl. intros g [= <-]. done.
  - rewrite filter_app, length_app.
    assert (filter (λ t, is_live_pump (S generation) t = true) posted = []) as ->.
    { clear -Hbound. induction Hbound as [|t l Ht _ IH]; [done|].
      rewrite filter_cons_False; [done|]. unfold is_live_pump.
      intros Heq%bool_decide_eq_true. specialize (Ht _ Heq). lia. }
    simpl. rewrite filter_cons. case_decide; simpl; lia.
Qed.

Lemma timers_ok_post_forward (generation : nat) (posted : list PostedTask)
    (delay : TimeDelta) :
  timers_ok generation posted →
  timers_ok generation (posted ++ [mkPostedTask forward_immediate_work_closure delay]).
Proof.
  intros [Hbound Hone]. split.
  - apply Forall_app. split; [done|]. by constructor.
  - rewrite filter_app, length_app.
    rewrite filter_cons_False; [simpl; lia|]. unfold is_live_pump. simpl.
    done.
Qed.

Lemma Forall_list_delete {A} (P : A → Prop) (l : list A) (i : nat) :
  Forall P l → Forall P (delete i l).
Proof.
  intros Hl. revert i. induction Hl as [|x l Hx Hl IH]; intros [|i]; simpl;
    try done. constructor; [done|apply IH].
Qed.

Lemma length_filter_delete {A} (P : A → Prop) `{!∀ x, Decision (P x)}
    (l : list A) (i : nat) :
  length (filter P (delete i l)) ≤ length (filter P l).
Proof.
  revert i. induction l as [|x l IH]; intros [|i]; simpl; try done.
  - rewrite filter_cons. case_decide; simpl; lia.
  - rewrite !filter_cons. specialize (IH i).
    case_decide; simpl; [lia|done].
Qed.

Lemma timers_ok_delete (generation : nat) (posted : list PostedTask) (i : nat) :
  timers_ok generation posted → timers_ok generation (delete i posted).
Proof.
  intros [Hbound Hone]. split.
  - by apply Forall_list_delete.
  - etrans; [apply length_filter_delete|done].
Qed.

Lemma MaybeSchedule_timers_ok (now unthrottled_runtime : TimeTicks) (w : World Env) :
  timers_ok (closure_generation w) (posted_tasks w) →
  timers_ok
    (closure_generation (MaybeSchedulePumpThrottledTasksLocked now unthrottled_runtime w))
    (posted_tasks (MaybeSchedulePumpThrottledTasksLocked now unthrottled_runtime w)).
Proof.
  intros Hok.
  destruct (MaybeSchedule_cases now unthrottled_runtime w) as [[Hnull Hle]|Hpost].
  - by rewrite MaybeSchedule_skip.
  - rewrite MaybeSchedule_post by done. simpl. by apply timers_ok_cancel_post.
Qed.

Lemma OnTimeDomainHasImmediateWork_timers_ok (w : World Env) :
  timers_ok (closure_generation w) (posted_tasks w) →
  timers_ok (closure_generation (OnTimeDomainHasImmediateWork w))
    (posted_tasks (OnTimeDomainHasImmediateWork w)).
Proof.
  intros Hok. unfold OnTimeDomainHasImmediateWork.
  destruct (negb _).
  - simpl. by apply timers_ok_post_forward.
  - by apply MaybeSchedule_timers_ok.
Qed.

Lemma OnTimeDomainHasDelayedWork_timers_ok (w w' : World Env) :
  timers_ok (closure_generation w) (posted_tasks w) →
  OnTimeDomainHasDelayedWork w = Some w' →
  timers_ok (closure_generation w') (posted_tasks w').
Proof.
  intros Hok. unfold OnTimeDomainHasDelayedWork.
  destruct (NextScheduledRunTime (env w)) as [next|]; simpl; [|done].
  intros [= <-]. by apply MaybeSchedule_timers_ok.
Qed.

Lemma PumpThrottledTasks_timers_ok (w : World Env) :
  timers_ok (closure_generation w) (posted_tasks w) →
  timers_ok (closure_generation (PumpThrottledTasks w))
    (posted_tasks (PumpThrottledTasks w)).
Proof.
  intros Hok. unfold PumpThrottledTasks. cbv zeta.
  destruct (NextScheduledRunTime _) as [next|]; [|exact Hok].
  apply MaybeSchedule_timers_ok. exact Hok.
Qed.

Lemma SetTimeDomain_Some (q : TaskQueuePtr) (d : TimeDomainPtr) (w w' : World Env) :
  SetTimeDomain q d w = Some w' ↔
  ∃ tq, task_queues w !! q = Some tq ∧
    w' = mkWorld (throttled_queues_ w) (task_runner_ w)
           (pending_pump_throttled_tasks_runtime_ w) (closure_generation w)
           (<[q := mkTaskQueue d (pump_policy tq)]> (task_queues w))
           (posted_tasks w) (OnSetTimeDomain q d (env w)).
Proof.
  unfold SetTimeDomain. destruct (task_queues w !! q) as [tq|]; simpl.
  - split; [intros [= <-]; eauto|]. by intros (tq' & [= <-] & ->).
  - split; [done|]. by intros (? & ? & _).
Qed.

Lemma SetPumpPolicy_Some (q : TaskQueuePtr) (pol : PumpPolicy) (w w' : World Env) :
  SetPumpPolicy q pol w = Some w' ↔
  ∃ tq, task_queues w !! q = Some tq ∧
    w' = mkWorld (throttled_queues_ w) (task_runner_ w)
           (pending_pump_throttled_tasks_runtime_ w) (closure_generation w)
           (<[q := mkTaskQueue (time_domain tq) pol]> (task_queues w))
           (posted_tasks w) (OnSetPumpPolicy q pol (env w)).
Proof.
  unfold SetPumpPolicy. destruct (task_queues w !! q) as [tq|]; simpl.
  - split; [intros [= <-]; eauto|]. by intros (tq' & [= <-] & ->).
  - split; [done|]. by intros (? & ? & _).
Qed.

Lemma Throttle_unfold (q : TaskQueuePtr) (w : World Env) (tq : TaskQueue) :
  q ≠ task_runner_ w → task_queues w !! q = Some tq →
  Throttle q w =
    if IsEmpty q (env (throttled_world q w)) then Some (throttled_world q w)
    else if HasPendingImmediateWork q (env (throttled_world q w))
         then Some (OnTimeDomainHasImmediateWork (throttled_world q w))
         else OnTimeDomainHasDelayedWork (throttled_world q w).
Proof.
  intros Hne Hq. unfold Throttle, DCHECK. rewrite decide_True by done. simpl.
  unfold SetTimeDomain at 1. simpl. rewrite Hq. simpl.
  unfold SetPumpPolicy at 1. simpl. rewrite lookup_insert_eq. simpl.
  rewrite insert_insert_eq. fold (throttled_world q w).
  by destruct (IsEmpty q _).
Qed.

Lemma Throttle_None_control (q : TaskQueuePtr) (w : World Env) :
  q = task_runner_ w → Throttle q w = None.
Proof. intros ->. unfold Throttle, DCHECK. by rewrite decide_False by naive_solver. Qed.

Lemma Throttle_Some_inv (q : TaskQueuePtr) (w w' : World Env) :
  Throttle q w = Some w' →
  q ≠ task_runner_ w ∧ ∃ tq, task_queues w !! q = Some tq.
Proof.
  unfold Throttle, DCHECK. case_decide as Hne; simpl; [|done].
  unfold SetTimeDomain at 1. simpl.
  destruct (task_queues w !! q) as [tq|]; simpl; [|done]. eauto.
Qed.

Lemma Unthrottle_unfold (q : TaskQueuePtr) (w : World Env) (tq : TaskQueue) :
  task_queues w !! q = Some tq →
  Unthrottle q w = Some (unthrottled_world q w).
Proof.
  intros Hq. unfold Unthrottle.
  unfold SetTimeDomain at 1. simpl. rewrite Hq. simpl.
  unfold SetPumpPolicy at 1. simpl. rewrite lookup_insert_eq. simpl.
  by rewrite insert_insert_eq.
Qed.

Lemma Unthrottle_Some_inv (q : TaskQueuePtr) (w w' : World Env) :
  Unthrottle q w = Some w' → ∃ tq, task_queues w !! q = Some tq.
Proof.
  unfold Unthrottle. unfold SetTimeDomain at 1. simpl.
  destruct (task_queues w !! q) as [tq|]; simpl; [|done]. eauto.
Qed.

Lemma Throttle_timers_ok (q : TaskQueuePtr) (w w' : World Env) :
  timers_ok (closure_generation w) (posted_tasks w) →
  Throttle q w = Some w' →
  timers_ok (closure_generation w') (posted_tasks w').
Proof.
  intros Hok Hthr.
  destruct (Throttle_Some_inv _ _ _ Hthr) as (Hne & tq & Hq).
  rewrite (Throttle_unfold _ _ _ Hne Hq) in Hthr.
  destruct (IsEmpty q _); [by injection Hthr as <-|].
  destruct (HasPendingImmediateWork q _).
  - injection Hthr as <-. by apply OnTimeDomainHasImmediateWork_timers_ok.
  - by eapply OnTimeDomainHasDelayedWork_timers_ok in Hthr.
Qed.

Lemma Unthrottle_timers_ok (q : TaskQueuePtr) (w w' : World Env) :
  timers_ok (closure_generation w) (posted_tasks w) →
  Unthrottle q w = Some w' →
  timers_ok (closure_generation w') (posted_tasks w').
Proof.
  intros Hok Hun. destruct (Unthrottle_Some_inv _ _ _ Hun) as (tq & Hq).
  rewrite (Unthrottle_unfold _ _ _ Hq) in Hun. by injection Hun as <-.
Qed.

Lemma RunPostedTask_timers_ok (i : nat) (w w' : World Env) :
  timers_ok (closure_generation w) (posted_tasks w) →
  RunPostedTask i w = Some w' →
  timers_ok (closure_generation w') (posted_tasks w').
Proof.
  intros Hok. unfold RunPostedTask.
  destruct (posted_tasks w !! i) as [t|]; simpl; [|done].
  apply (timers_ok_delete _ _ i) in Hok.
  destruct (posted_closure t) as [g|].
  - case_decide; intros [= <-]; [|done].
    by apply PumpThrottledTasks_timers_ok.
  - intros [= <-]. by apply OnTimeDomainHasImmediateWork_timers_ok.
Qed.

Lemma step_timers_ok (w w' : World Env) :
  timers_ok (closure_generation w) (posted_tasks w) → step w w' →
  timers_ok (closure_generation w') (posted_tasks w').
Proof.
  intros Hok Hstep. destruct Hstep.
  - by eapply Throttle_timers_ok.
  - by eapply Unthrottle_timers_ok.
  - by apply OnTimeDomainHasImmediateWork_timers_ok.
  - by eapply OnTimeDomainHasDelayedWork_timers_ok.
  - by eapply RunPostedTask_timers_ok.
  - done.
Qed.

Lemma reachable_timers_ok (w : World Env) :
  reachable w → timers_ok (closure_generation w) (posted_tasks w).
Proof.
  induction 1 as [r qs e|w w' _ IH Hstep].
  - split; simpl; [constructor|lia].
  - by eapply step_timers_ok.
Qed.

(** C2: with [throttled_runtime = ThrottledRunTime unthrottled_runtime],
    [MaybeSchedulePumpThrottledTasksLocked] posts the pump callback, after
    cancelling the one posted before, exactly when no pump is pending or
    [throttled_runtime] is strictly earlier than the pending one; it then
    records [throttled_runtime] as the pending run-time and posts the
    callback with the delay [throttled_runtime - now].  A request whose
    throttled time is at or after the pending one changes nothing.  In every
    state a helper can reach, at most one posted pump callback is live. *)
Theorem MaybeSchedulePumpThrottledTasksLocked_coalesces
    (now unthrottled_runtime : TimeTicks) (w : World Env) :
  let throttled_runtime := ThrottledRunTime unthrottled_runtime in
  let pending := pending_pump_throttled_tasks_runtime_ w in
  let w' := MaybeSchedulePumpThrottledTasksLocked now unthrottled_runtime w in
  (posted_tasks w' ≠ posted_tasks w
     ↔ is_null pending = true ∨ (throttled_runtime < pending)%Z)
  ∧ (is_null pending = true ∨ (throttled_runtime < pending)%Z →
       pending_pump_throttled_tasks_runtime_ w' = throttled_runtime
       ∧ closure_generation w' = S (closure_generation w)
       ∧ posted_tasks w'
         = posted_tasks w ++ [mkPostedTask (callback w') (throttled_runtime - now)%Z]
       ∧ throttled_queues_ w' = throttled_queues_ w
       ∧ task_queues w' = task_queues w
       ∧ env w' = env w)
  ∧ (is_null pending = false ∧ (pending ≤ throttled_runtime)%Z → w' = w)
  ∧ (timers_ok (closure_generation w) (posted_tasks w) →
       length (pending_pumps w') ≤ 1)
  ∧ (∀ w0 : World Env, reachable w0 → length (pending_pumps w0) ≤ 1).
Proof.
  intros throttled_runtime pending w'. split_and!.
  - subst w'. destruct (MaybeSchedule_cases now unthrottled_runtime w)
      as [[Hnull Hle]|Hpost].
    + rewrite MaybeSchedule_skip by done. split; [done|].
      fold pending throttled_runtime in Hnull, Hle.
      intros [?|?]; [congruence|lia].
    + rewrite MaybeSchedule_post by done. simpl. split; [done|].
      intros _ Heq. apply (f_equal length) in Heq.
      rewrite length_app in Heq. simpl in Heq. lia.
  - intros Hpost. subst w'. by rewrite MaybeSchedule_post.
  - intros [Hnull Hle]. by apply MaybeSchedule_skip.
  - intros Hok. by apply MaybeSchedule_timers_ok.
  - intros w0 Hreach. by apply reachable_timers_ok.
Qed.

(** ** A recorded pending run-time has its pump *)

Lemma pending_pumps_cancel_post (generation : nat) (posted : list PostedTask)
    (delay : TimeDelta) :
  timers_ok generation posted →
  length (filter (λ t, is_live_pump (S generation) t = true)
            (posted ++ [mkPostedTask (pump_throttled_tasks_closure (S generation))
                          delay])) = 1.
Proof.
  intros [Hbound _]. rewrite filter_app, length_app.
  assert (filter (λ t, is_live_pump (S generation) t = true) posted = []) as ->.
  { clear -Hbound. induction Hbound as [|t l Ht _ IH]; [done|].
    rewrite filter_cons_False; [done|]. unfold is_live_pump.
    intros Heq%bool_decide_eq_true. specialize (Ht _ Heq). lia. }
  rewrite filter_cons_True; [done|]. unfold is_live_pump. simpl.
  by apply bool_decide_eq_true.
Qed.

Lemma filter_delete_not {A} (P : A → Prop) `{!∀ x, Decision (P x)}
    (l : list A) (i : nat) (x : A) :
  l !! i = Some x → ¬ P x → filter P (delete i l) = filter P l.
Proof.
  revert i. induction l as [|y l IH]; intros [|i]; simpl; try done.
  - intros [= ->] Hx. by rewrite filter_cons_False.
  - intros Hi Hx. rewrite !filter_cons. by rewrite (IH i Hi Hx).
Qed.

Lemma MaybeSchedule_pending_runtime_ok (now unthrottled_runtime : TimeTicks)
    (w : World Env) :
  pending_runtime_ok w →
  pending_runtime_ok (MaybeSchedulePumpThrottledTasksLocked now unthrottled_runtime w).
Proof.
  intros [Hok Hone].
  destruct (MaybeSchedule_cases now unthrottled_runtime w) as [[Hnull Hle]|Hpost].
  - by rewrite MaybeSchedule_skip.
  - rewrite MaybeSchedule_post by done. split; simpl.
    + by apply timers_ok_cancel_post.
    + intros _. unfold pending_pumps; simpl. by apply pending_pumps_cancel_post.
Qed.

Lemma OnTimeDomainHasImmediateWork_pending_runtime_ok (w : World Env) :
  pending_runtime_ok w → pending_runtime_ok (OnTimeDomainHasImmediateWork w).
Proof.
  intros Hinv. unfold OnTimeDomainHasImmediateWork.
  destruct (negb _); [|by apply MaybeSchedule_pending_runtime_ok].
  destruct Hinv as [Hok Hone]. split; simpl.
  - by apply timers_ok_post_forward.
  - intros Hnull. specialize (Hone Hnull). unfold pending_pumps in *; simpl.
    rewrite filter_app, filter_cons_False, filter_nil, app_nil_r; [done|].
    unfold is_live_pump; simpl. done.
Qed.

Lemma PumpThrottledTasks_pending_runtime_ok (w : World Env) :
  timers_ok (closure_generation w) (posted_tasks w) →
  pending_runtime_ok (PumpThrottledTasks w).
Proof.
  intros Hok. unfold PumpThrottledTasks. cbv zeta.
  destruct (NextScheduledRunTime _) as [next|].
  - apply MaybeSchedule_pending_runtime_ok. split; [exact Hok|]. simpl. done.
  - split; [exact Hok|]. simpl. done.
Qed.

Lemma step_pending_runtime_ok (w w' : World Env) :
  pending_runtime_ok w → step w w' → pending_runtime_ok w'.
Proof.
  intros Hinv Hstep.
  destruct Hstep as [q w w' Hthr|q w w' Hun|w|w w' Hdel|i w w' Hrun|e w].
  - destruct (Throttle_Some_inv _ _ _ Hthr) as (Hne & tq & Hq).
    rewrite (Throttle_unfold _ _ _ Hne Hq) in Hthr.
    assert (pending_runtime_ok (throttled_world q w)) as Hinv' by done.
    destruct (IsEmpty q _); [by injection Hthr as <-|].
    destruct (HasPendingImmediateWork q _).
    + injection Hthr as <-.
      by apply OnTimeDomainHasImmediateWork_pending_runtime_ok.
    + unfold OnTimeDomainHasDelayedWork in Hthr.
      destruct (NextScheduledRunTime _); simpl in Hthr; [|done].
      injection Hthr as <-. by apply MaybeSchedule_pending_runtime_ok.
  - destruct (Unthrottle_Some_inv _ _ _ Hun) as (tq & Hq).
    rewrite (Unthrottle_unfold _ _ _ Hq) in Hun. by injection Hun as <-.
  - by apply OnTimeDomainHasImmediateWork_pending_runtime_ok.
  - unfold OnTimeDomainHasDelayedWork in Hdel.
    destruct (NextScheduledRunTime _); simpl in Hdel; [|done].
    injection Hdel as <-. by apply MaybeSchedule_pending_runtime_ok.
  - unfold RunPostedTask in Hrun.
    destruct (posted_tasks w !! i) as [t|] eqn:Hi; simpl in Hrun; [|done].
    destruct Hinv as [Hok Hone].
    pose proof (timers_ok_delete _ _ i Hok) as Hok'.
    destruct (posted_closure t) as [g|] eqn:Hclosure.
    + case_decide as Hg; injection Hrun as <-.
      * by apply PumpThrottledTasks_pending_runtime_ok.
      * split; [done|]. simpl in *. intros Hnull. specialize (Hone Hnull).
        unfold pending_pumps in *; simpl.
        rewrite (filter_delete_not _ _ _ _ Hi); [done|].
        unfold is_live_pump. rewrite Hclosure.
        intros [= ?]%bool_decide_eq_true. done.
    + injection Hrun as <-.
      apply OnTimeDomainHasImmediateWork_pending_runtime_ok.
      split; [done|]. simpl. intros Hnull. specialize (Hone Hnull).
      unfold pending_pumps in *; simpl.
      rewrite (filter_delete_not _ _ _ _ Hi); [done|].
      unfold is_live_pump. rewrite Hclosure.
      by intros ?%bool_decide_eq_true.
  - done.
Qed.

(** In every state a helper can reach, a recorded pending run-time has its
    one live pump callback posted, so a request that is dropped because a
    pump is pending is served by that pump. *)
Lemma reachable_pending_runtime_ok (w : World Env) :
  reachable w → pending_runtime_ok w.
Proof.
  induction 1 as [r qs e|w w' _ IH Hstep].
  - split; [split; simpl; [constructor|lia]|done].
  - by eapply step_pending_runtime_ok.
Qed.

(** ** The pump cycle *)

Lemma PumpThrottledTasks_unfold (w : World Env) :
  PumpThrottledTasks w =
    let now := NowTicks (env w) in
    let cleared :=
      ClearExpiredWakeups
        (foldl (λ e task_queue,
                  if IsEmpty task_queue e then e else PumpQueue task_queue false e)
           (AdvanceTo now (env w)) (elements (throttled_queues_ w))) in
    let w4 := mkWorld (throttled_queues_ w) (task_runner_ w) TimeTicks_null
                (closure_generation w) (task_queues w) (posted_tasks w) cleared in
    match NextScheduledRunTime cleared with
    | Some next_scheduled_delayed_task =>
        MaybeSchedulePumpThrottledTasksLocked now next_scheduled_delayed_task w4
    | None => w4
    end.
Proof. reflexivity. Qed.

(** C6: [PumpThrottledTasks] reads the clock, advances the throttled domain
    to [now], goes through the throttled queues, each one once, pumping each
    one that is not empty at that point and skipping the others, and clears
    the expired wake-ups, in this order; the set of throttled queues and the
    queues' attributes stay as they are.  The pending run-time was cleared first, so
    when the domain then reports a next run-time the pump is scheduled anew
    for [ThrottledRunTime] of it, and otherwise no pump is pending. *)
Theorem PumpThrottledTasks_cycle (w : World Env) :
  let now := NowTicks (env w) in
  let advanced := AdvanceTo now (env w) in
  let pumped :=
    foldl (λ e task_queue,
             if IsEmpty task_queue e then e else PumpQueue task_queue false e)
      advanced (elements (throttled_queues_ w)) in
  let cleared := ClearExpiredWakeups pumped in
  let w' := PumpThrottledTasks w in
  env w' = cleared
  ∧ NoDup (elements (throttled_queues_ w))
  ∧ (∀ q, q ∈ elements (throttled_queues_ w) ↔ q ∈ throttled_queues_ w)
  ∧ throttled_queues_ w' = throttled_queues_ w
  ∧ task_queues w' = task_queues w
  ∧ task_runner_ w' = task_runner_ w
  ∧ match NextScheduledRunTime cleared with
    | Some next_scheduled_delayed_task =>
        w' = MaybeSchedulePumpThrottledTasksLocked now next_scheduled_delayed_task
               (mkWorld (throttled_queues_ w) (task_runner_ w) TimeTicks_null
                  (closure_generation w) (task_queues w) (posted_tasks w) cleared)
        ∧ pending_pump_throttled_tasks_runtime_ w'
          = ThrottledRunTime next_scheduled_delayed_task
        ∧ closure_generation w' = S (closure_generation w)
        ∧ posted_tasks w'
          = posted_tasks w ++
              [mkPostedTask (pump_throttled_tasks_closure (S (closure_generation w)))
                 (ThrottledRunTime next_scheduled_delayed_task - now)%Z]
    | None =>
        pending_pump_throttled_tasks_runtime_ w' = TimeTicks_null
        ∧ closure_generation w' = closure_generation w
        ∧ posted_tasks w' = posted_tasks w
    end.
Proof.
  intros now advanced pumped cleared w'. subst now advanced pumped cleared w'.
  rewrite PumpThrottledTasks_unfold. cbv zeta.
  destruct (NextScheduledRunTime _) as [next|] eqn:Hnext.
  - rewrite MaybeSchedule_post by (by left). simpl.
    split_and!; try done; [apply NoDup_elements|apply elem_of_elements].
  - simpl. split_and!; try done; [apply NoDup_elements|apply elem_of_elements].
Qed.

(** ** Throttle and Unthrottle *)

Lemma MaybeSchedule_frame (now unthrottled_runtime : TimeTicks) (w : World Env) :
  let w' := MaybeSchedulePumpThrottledTasksLocked now unthrottled_runtime w in
  throttled_queues_ w' = throttled_queues_ w ∧ task_queues w' = task_queues w
  ∧ task_runner_ w' = task_runner_ w ∧ env w' = env w.
Proof.
  intros w'. subst w'. unfold MaybeSchedulePumpThrottledTasksLocked.
  by destruct (negb _ && _).
Qed.

Lemma OnTimeDomainHasImmediateWork_frame (w : World Env) :
  let w' := OnTimeDomainHasImmediateWork w in
  throttled_queues_ w' = throttled_queues_ w ∧ task_queues w' = task_queues w
  ∧ task_runner_ w' = task_runner_ w ∧ env w' = env w.
Proof.
  intros w'. subst w'. unfold OnTimeDomainHasImmediateWork.
  destruct (negb _); [done|]. apply MaybeSchedule_frame.
Qed.

Lemma OnTimeDomainHasDelayedWork_frame (w w' : World Env) :
  OnTimeDomainHasDelayedWork w = Some w' →
  throttled_queues_ w' = throttled_queues_ w ∧ task_queues w' = task_queues w
  ∧ task_runner_ w' = task_runner_ w ∧ env w' = env w.
Proof.
  unfold OnTimeDomainHasDelayedWork.
  destruct (NextScheduledRunTime (env w)) as [next|]; simpl; [|done].
  intros [= <-]. apply MaybeSchedule_frame.
Qed.

(** What [Throttle] leaves of the set, the attributes and the collaborators. *)
Lemma Throttle_frame (q : TaskQueuePtr) (w w' : World Env) :
  Throttle q w = Some w' →
  throttled_queues_ w' = {[q]} ∪ throttled_queues_ w
  ∧ task_queues w' = <[q := mkTaskQueue throttled_time_domain MANUAL]> (task_queues w)
  ∧ task_runner_ w' = task_runner_ w
  ∧ env w' = OnSetPumpPolicy q MANUAL
               (OnSetTimeDomain q throttled_time_domain (env w)).
Proof.
  intros Hthr. destruct (Throttle_Some_inv _ _ _ Hthr) as (Hne & tq & Hq).
  rewrite (Throttle_unfold _ _ _ Hne Hq) in Hthr.
  destruct (IsEmpty q _); [by injection Hthr as <-|].
  destruct (HasPendingImmediateWork q _).
  - injection Hthr as <-.
    by destruct (OnTimeDomainHasImmediateWork_frame (throttled_world q w))
      as (-> & -> & -> & ->).
  - by destruct (OnTimeDomainHasDelayedWork_frame _ _ Hthr) as (-> & -> & -> & ->).
Qed.

(** C7: [Throttle] on the helper's own control task runner fails its
    DCHECK.  On any other queue it adds the queue to [throttled_queues_],
    binds it to the throttled time domain and makes its pump policy MANUAL;
    then, when the queue is not empty, it goes on as
    [OnTimeDomainHasImmediateWork] when the queue has pending immediate work
    and as [OnTimeDomainHasDelayedWork] otherwise. *)
Theorem Throttle_spec (task_queue : TaskQueuePtr) (w : World Env) :
  (task_queue = task_runner_ w → Throttle task_queue w = None)
  ∧ (∀ tq, task_queue ≠ task_runner_ w → task_queues w !! task_queue = Some tq →
       let w3 :=
         mkWorld ({[task_queue]} ∪ throttled_queues_ w) (task_runner_ w)
           (pending_pump_throttled_tasks_runtime_ w) (closure_generation w)
           (<[task_queue := mkTaskQueue throttled_time_domain MANUAL]> (task_queues w))
           (posted_tasks w)
           (OnSetPumpPolicy task_queue MANUAL
              (OnSetTimeDomain task_queue throttled_time_domain (env w))) in
       Throttle task_queue w =
         if IsEmpty task_queue (env w3) then Some w3
         else if HasPendingImmediateWork task_queue (env w3)
              then Some (OnTimeDomainHasImmediateWork w3)
              else OnTimeDomainHasDelayedWork w3)
  ∧ (∀ w', Throttle task_queue w = Some w' →
       task_queue ≠ task_runner_ w
       ∧ task_queue ∈ throttled_queues_ w'
       ∧ task_queues w' !! task_queue = Some (mkTaskQueue throttled_time_domain MANUAL)
       ∧ (∀ q, q ≠ task_queue → task_queues w' !! q = task_queues w !! q)).
Proof.
  split_and!.
  - apply Throttle_None_control.
  - intros tq Hne Hq. apply (Throttle_unfold _ _ _ Hne Hq).
  - intros w' Hthr. destruct (Throttle_Some_inv _ _ _ Hthr) as (Hne & _).
    destruct (Throttle_frame _ _ _ Hthr) as (-> & -> & _ & _).
    split_and!; [done|set_solver|apply lookup_insert_eq|].
    intros q Hq. by rewrite lookup_insert_ne.
Qed.

(** C10: [Unthrottle] on any live queue, throttled or not, goes through,
    binds the queue to the real time domain with pump policy AUTO and takes
    it out of [throttled_queues_], which is no change when it was not in it.
    A second [Unthrottle] leaves the helper and every queue's attributes as
    the first one left them; the collaborators only see the two assignments
    once more. *)
Theorem Unthrottle_idempotent (task_queue : TaskQueuePtr) (w : World Env)
    (tq : TaskQueue) :
  task_queues w !! task_queue = Some tq →
  ∃ w1 w2,
    Unthrottle task_queue w = Some w1
    ∧ Unthrottle task_queue w1 = Some w2
    ∧ task_queues w1 !! task_queue = Some (mkTaskQueue real_time_domain AUTO)
    ∧ throttled_queues_ w1 = throttled_queues_ w ∖ {[task_queue]}
    ∧ (task_queue ∉ throttled_queues_ w → throttled_queues_ w1 = throttled_queues_ w)
    ∧ w2 = set_env
             (OnSetPumpPolicy task_queue AUTO
                (OnSetTimeDomain task_queue real_time_domain (env w1))) w1
    ∧ ((∀ e, OnSetPumpPolicy task_queue AUTO
               (OnSetTimeDomain task_queue real_time_domain
                  (OnSetPumpPolicy task_queue AUTO
                     (OnSetTimeDomain task_queue real_time_domain e)))
             = OnSetPumpPolicy task_queue AUTO
                 (OnSetTimeDomain task_queue real_time_domain e)) →
       w2 = w1).
Proof.
  intros Hq. exists (unthrottled_world task_queue w),
    (unthrottled_world task_queue (unthrottled_world task_queue w)).
  split; [by apply (Unthrottle_unfold _ _ _ Hq)|].
  assert (task_queues (unthrottled_world task_queue w) !! task_queue
          = Some (mkTaskQueue real_time_domain AUTO)) as Hq1.
  { apply lookup_insert_eq. }
  split; [by apply (Unthrottle_unfold _ _ _ Hq1)|].
  split; [done|]. split; [done|]. split; [simpl; set_solver|].
  assert (unthrottled_world task_queue (unthrottled_world task_queue w)
          = set_env
              (OnSetPumpPolicy task_queue AUTO
                 (OnSetTimeDomain task_queue real_time_domain
                    (env (unthrottled_world task_queue w))))
              (unthrottled_world task_queue w)) as Heq.
  { unfold unthrottled_world, set_env; simpl. f_equal.
    - set_solver.
    - by rewrite insert_insert_eq. }
  split; [done|].
  intros Hidem. rewrite Heq. unfold unthrottled_world, set_env; simpl.
  by rewrite Hidem.
Qed.

End ThrottlingHelper_properties.

(* ================================================================== *)
(** * ThrottlingHelper and the tasks of the queues *)

Section ThrottlingHelper_tasks.
Import base ThrottlingHelper.
Context {Env : Type} `{!Collaborators Env} `{!TaskAccounting Env}.









End ThrottlingHelper_tasks.

(* ================================================================== *)
(** * ThrottlingHelper with recording collaborators *)

Section ThrottlingHelper_scenarios.
Import base ThrottlingHelper recording.

(** The end-to-end scenario of the spec: throttling a queue whose pending
    task is due at 2.3 s schedules one pump, for 3.0 s. *)
Example throttle_schedules_pump_at_3s :
  pending_pump_throttled_tasks_runtime_ world1 = 3000000%Z
  ∧ pending_pumps world1
    = [mkPostedTask (pump_throttled_tasks_closure 1) (3000000 - 1000000)%Z]
  ∧ commands (env world1)
    = [CmdSetTimeDomain 1 throttled_time_domain; CmdSetPumpPolicy 1 MANUAL].
Proof. vm_compute. done. Qed.

(** Throttling the control task runner fails. *)
Example throttle_control_queue : Throttle 0%nat world0 = None.
Proof. vm_compute. reflexivity. Qed.

(** The pump cycle with queues 1, 2 and 3 throttled: the queues that hold
    tasks are pumped between [AdvanceTo] and [ClearExpiredWakeups], the empty
    queue 2 is not, and the next pump is scheduled for 3.0 s. *)
Example pump_cycle_commands :
  commands (env (PumpThrottledTasks world3))
  = commands (env world3) ++
      [CmdAdvanceTo 1000000; CmdPumpQueue 3 false; CmdPumpQueue 1 false;
       CmdClearExpiredWakeups]
  ∧ pending_pump_throttled_tasks_runtime_ (PumpThrottledTasks world3) = 3000000%Z
  ∧ length (pending_pumps (PumpThrottledTasks world3)) = 1%nat.
Proof. vm_compute. done. Qed.

(** A request for a later time than the pending pump changes nothing, one
    for an earlier time replaces the pending pump. *)
Example coalescing_later_request :
  MaybeSchedulePumpThrottledTasksLocked 1000000 3500000 world1 = world1.
Proof. vm_compute. reflexivity. Qed.

Example coalescing_earlier_request :
  pending_pumps (MaybeSchedulePumpThrottledTasksLocked 1000000 1500000 world1)
  = [mkPostedTask (pump_throttled_tasks_closure 2) (2000000 - 1000000)%Z].
Proof. vm_compute. reflexivity. Qed.

Lemma foldl_pump_commands (l : list nat) (e : Env) :
  foldl pump_if_not_empty e l
  = mkEnv (clock e) (non_empty e) (immediate e) (next_run_time e)
      (on_control_thread e)
      (commands e ++
         ((λ q, CmdPumpQueue q false) <$> filter (λ q, q ∈ non_empty e) l)).
Proof.
  revert e. induction l as [|q l IH]; intros e; simpl.
  - rewrite app_nil_r. by destruct e.
  - rewrite IH. unfold pump_if_not_empty; simpl. rewrite filter_cons.
    destruct (decide (q ∈ non_empty e)) as [Hq|Hq].
    + rewrite bool_decide_eq_true_2 by done. simpl.
      by rewrite <- app_assoc.
    + by rewrite bool_decide_eq_false_2 by done.
Qed.

(** The commands of a pump cycle, for any set of throttled queues: the
    domain is advanced, the throttled queues that hold tasks are pumped, each
    once, and the expired wake-ups are cleared. *)
Lemma PumpThrottledTasks_commands (w : World Env) :
  commands (env (PumpThrottledTasks w))
  = commands (env w) ++
      [CmdAdvanceTo (clock (env w))] ++
      ((λ q, CmdPumpQueue q false) <$>
         filter (λ q, q ∈ non_empty (env w)) (elements (throttled_queues_ w))) ++
      [CmdClearExpiredWakeups].
Proof.
  assert (env (PumpThrottledTasks w)
          = ClearExpiredWakeups
              (foldl pump_if_not_empty (AdvanceTo (NowTicks (env w)) (env w))
                 (elements (throttled_queues_ w)))) as ->.
  { rewrite PumpThrottledTasks_unfold. cbv zeta.
    destruct (NextScheduledRunTime _) as [next|]; [|done].
    match goal with
    | |- env (MaybeSchedulePumpThrottledTasksLocked ?n ?u ?w0) = _ =>
        destruct (MaybeSchedule_frame n u w0) as (_ & _ & _ & ->)
    end.
    done. }
  rewrite foldl_pump_commands. simpl. by rewrite <- !app_assoc.
Qed.

Lemma world1_throttled : Throttle 1%nat world0 = Some world1.
Proof. vm_compute. reflexivity. Qed.

Lemma world1_reachable : reachable world1.
Proof.
  eapply reachable_step; [apply reachable_new|].
  eapply step_Throttle. apply world1_throttled.
Qed.

(** With a pump pending for 3.0 s: a request for 1.5 s is throttled to 2.0 s
    and replaces the pending pump; a request for 3.5 s is throttled to 4.0 s
    and changes nothing. *)
Lemma MaybeSchedulePumpThrottledTasksLocked_coalesces_witness :
  (let w' := MaybeSchedulePumpThrottledTasksLocked 1000000 1500000 world1 in
   pending_pump_throttled_tasks_runtime_ w' = ThrottledRunTime 1500000
   ∧ closure_generation w' = S (closure_generation world1)
   ∧ posted_tasks w'
     = posted_tasks world1 ++
         [mkPostedTask (callback w') (ThrottledRunTime 1500000 - 1000000)%Z]
   ∧ throttled_queues_ w' = throttled_queues_ world1
   ∧ task_queues w' = task_queues world1
   ∧ env w' = env world1)
  ∧ MaybeSchedulePumpThrottledTasksLocked 1000000 3500000 world1 = world1
  ∧ (length (pending_pumps world1) ≤ 1)%nat.
Proof.
  split; [|split].
  - apply (MaybeSchedulePumpThrottledTasksLocked_coalesces 1000000 1500000 world1).
    right. vm_compute. reflexivity.
  - apply (MaybeSchedulePumpThrottledTasksLocked_coalesces 1000000 3500000 world1).
    split; [vm_compute; reflexivity|vm_compute; discriminate].
  - apply (MaybeSchedulePumpThrottledTasksLocked_coalesces 1000000 1500000 world1).
    apply world1_reachable.
Defined.

Lemma Throttle_spec_witness :
  Throttle 0%nat world0 = None
  ∧ (let w3 :=
       mkWorld ({[1%nat]} ∪ throttled_queues_ world0) (task_runner_ world0)
         (pending_pump_throttled_tasks_runtime_ world0) (closure_generation world0)
         (<[1%nat := mkTaskQueue throttled_time_domain MANUAL]> (task_queues world0))
         (posted_tasks world0)
         (OnSetPumpPolicy 1%nat MANUAL
            (OnSetTimeDomain 1%nat throttled_time_domain (env world0))) in
     Throttle 1%nat world0 =
       if IsEmpty 1%nat (env w3) then Some w3
       else if HasPendingImmediateWork 1%nat (env w3)
            then Some (OnTimeDomainHasImmediateWork w3)
            else OnTimeDomainHasDelayedWork w3)
  ∧ (1%nat ≠ task_runner_ world0
     ∧ 1%nat ∈ throttled_queues_ world1
     ∧ task_queues world1 !! 1%nat = Some (mkTaskQueue throttled_time_domain MANUAL)
     ∧ (∀ q, q ≠ 1%nat → task_queues world1 !! q = task_queues world0 !! q)).
Proof.
  split; [|split].
  - apply (Throttle_spec 0%nat world0). reflexivity.
  - apply (proj1 (proj2 (Throttle_spec 1%nat world0)) unthrottled).
    + vm_compute. discriminate.
    + vm_compute. reflexivity.
  - apply (proj2 (proj2 (Throttle_spec 1%nat world0)) world1).
    vm_compute. reflexivity.
Defined.

Lemma Unthrottle_idempotent_witness :
  ∃ w1 w2,
    Unthrottle 2%nat world1 = Some w1
    ∧ Unthrottle 2%nat w1 = Some w2
    ∧ task_queues w1 !! 2%nat = Some (mkTaskQueue real_time_domain AUTO)
    ∧ throttled_queues_ w1 = throttled_queues_ world1 ∖ {[2%nat]}
    ∧ (2%nat ∉ throttled_queues_ world1 →
       throttled_queues_ w1 = throttled_queues_ world1)
    ∧ w2 = set_env
             (OnSetPumpPolicy 2%nat AUTO
                (OnSetTimeDomain 2%nat real_time_domain (env w1))) w1
    ∧ ((∀ e, OnSetPumpPolicy 2%nat AUTO
               (OnSetTimeDomain 2%nat real_time_domain
                  (OnSetPumpPolicy 2%nat AUTO
                     (OnSetTimeDomain 2%nat real_time_domain e)))
             = OnSetPumpPolicy 2%nat AUTO
                 (OnSetTimeDomain 2%nat real_time_domain e)) →
       w2 = w1).
Proof.
  apply (Unthrottle_idempotent 2%nat world1 unthrottled).
  vm_compute. reflexivity.
Defined.

End ThrottlingHelper_scenarios.

(* ================================================================== *)
(** * The round trip on queues that hold tasks *)

Section ThrottlingHelper_task_scenarios.
Import base ThrottlingHelper task_model.


(** The pump posted for queue 3 is still pending after the round trip of
    queue 1; when it runs it drains queue 3 and leaves queue 1 alone. *)
Example pump_after_round_trip :
  (w2 ← Unthrottle 1%nat world_31;
   w3 ← RunPostedTask 0 w2;
   Some (queued 1%nat (env w3), dispatched 1%nat (env w3),
         queued 3%nat (env w3), dispatched 3%nat (env w3)))
  = Some ([7; 8]%nat, [], [], [9]%nat).
Proof. vm_compute. reflexivity. Qed.

End ThrottlingHelper_task_scenarios.

(* ================================================================== *)
(** * More on WorkQueueSets: AssignQueueToSet, OnPushQueue, IsSetEmpty *)

Section WorkQueueSets_operations.
Import internal.
Local Open Scope nat_scope.

(** The maps are determined by the queues: two states with the same queues
    and the same number of sets whose maps agree with the queues are equal. *)
Lemma maps_agree_unique (σa σb : State) :
  maps_agree σa → maps_agree σb →
  work_queues σa = work_queues σb →
  length (enqueue_order_to_work_queue_maps_ σa)
    = length (enqueue_order_to_work_queue_maps_ σb) →
  σa = σb.
Proof.
  destruct σa as [qa la], σb as [qb lb]; simpl.
  intros Ha Hb -> Hlen. f_equal. apply list_eq. intros i.
  destruct (la !! i) as [ma|] eqn:Hma, (lb !! i) as [mb|] eqn:Hmb.
  - f_equal. apply map_eq. intros k. apply option_eq. intros p.
    rewrite (Ha i ma k p Hma), (Hb i mb k p Hmb). done.
  - apply lookup_lt_Some in Hma. apply lookup_ge_None in Hmb. lia.
  - apply lookup_lt_Some in Hmb. apply lookup_ge_None in Hma. lia.
  - done.
Qed.

Lemma AssignQueueToSet_is_Some (p : WorkQueuePtr) (j : nat) (σ : State)
    (wq : WorkQueue) :
  work_queues σ !! p = Some wq →
  j < length (enqueue_order_to_work_queue_maps_ σ) →
  work_queue_set_index_ wq < length (enqueue_order_to_work_queue_maps_ σ) →
  is_Some (AssignQueueToSet p j σ).
Proof.
  intros Hp Hj Hold.
  destruct (lookup_lt_is_Some_2 _ _ Hold) as [m_old Hm_old].
  destruct (GetFrontTaskEnqueueOrder wq) as [k|] eqn:Hk.
  - assert (is_Some (enqueue_order_to_work_queue_maps_
                       (set_map (work_queue_set_index_ wq) (map_erase k m_old)
                          (set_queue p (mkWorkQueue (work_queue_ wq) j) σ)) !! j))
      as [m_new Hm_new].
    { apply lookup_lt_is_Some_2. simpl. by rewrite length_insert. }
    eexists. apply AssignQueueToSet_Some. exists wq. do 3 (split; [done|]).
    cbv zeta. rewrite Hk. eauto.
  - eexists. apply AssignQueueToSet_Some. exists wq. do 3 (split; [done|]).
    cbv zeta. by rewrite Hk.
Qed.

Lemma AssignQueueToSet_work_queues (p : WorkQueuePtr) (j : nat) (σ σ' : State)
    (wq : WorkQueue) :
  work_queues σ !! p = Some wq → AssignQueueToSet p j σ = Some σ' →
  work_queues σ' = <[p := mkWorkQueue (work_queue_ wq) j]> (work_queues σ).
Proof.
  intros Hp (wq' & Hp' & _ & _ & H)%AssignQueueToSet_Some. cbv zeta in H.
  rewrite Hp in Hp'. injection Hp' as <-.
  destruct (GetFrontTaskEnqueueOrder wq); [|by subst].
  by destruct H as (? & ? & _ & _ & ->).
Qed.

(** X1: [AssignQueueToSet] goes through exactly when the queue is live and
    both the new set index and the queue's recorded one are in range; an index
    out of range fails a DCHECK_LT, whatever the queue holds. *)
Theorem AssignQueueToSet_succeeds_iff (p : WorkQueuePtr) (j : nat) (σ : State) :
  is_Some (AssignQueueToSet p j σ) ↔
  ∃ wq, work_queues σ !! p = Some wq
    ∧ j < length (enqueue_order_to_work_queue_maps_ σ)
    ∧ work_queue_set_index_ wq < length (enqueue_order_to_work_queue_maps_ σ).
Proof.
  split.
  - intros [σ' Hσ']. apply AssignQueueToSet_Some in Hσ'
      as (wq & Hp & Hj & Hold & _). eauto.
  - intros (wq & Hp & Hj & Hold). by eapply AssignQueueToSet_is_Some.
Qed.

(** X2: in a WorkQueueSets driven by pushes and pops, after
    [AssignQueueToSet queue set_index] the queue keeps its tasks and carries
    the new set index; it is registered in the map of the new set under the
    EnqueueOrder of its front task and in no other map (in no map at all when
    it has no front task), and the entries of all other queues are where they
    were. *)
Theorem AssignQueueToSet_moves (n : nat) (s : System) (p : WorkQueuePtr) (j : nat)
    (wq : WorkQueue) (σ' : State) :
  reachable n s →
  work_queues (sets s) !! p = Some wq →
  AssignQueueToSet p j (sets s) = Some σ' →
  work_queues σ' !! p = Some (mkWorkQueue (work_queue_ wq) j)
  ∧ (∀ q, q ≠ p → work_queues σ' !! q = work_queues (sets s) !! q)
  ∧ (∀ i m' k, enqueue_order_to_work_queue_maps_ σ' !! i = Some m' →
       (m' !! k = Some p ↔ i = j ∧ GetFrontTaskEnqueueOrder wq = Some k))
  ∧ (∀ i m m' k q, q ≠ p →
       enqueue_order_to_work_queue_maps_ (sets s) !! i = Some m →
       enqueue_order_to_work_queue_maps_ σ' !! i = Some m' →
       (m' !! k = Some q ↔ m !! k = Some q)).
Proof.
  intros Hreach Hp Hassign. destruct s as [σ next]; simpl in *.
  pose proof (reachable_Inv _ _ Hreach) as HInv.
  pose proof HInv as [Hmaps _]; simpl in Hmaps.
  destruct (AssignQueueToSet_Inv _ _ _ _ _ HInv Hassign) as [Hmaps' _].
  simpl in Hmaps'.
  pose proof (AssignQueueToSet_work_queues _ _ _ _ _ Hp Hassign) as Hqueues.
  split_and!.
  - rewrite Hqueues. apply lookup_insert_eq.
  - intros q Hq. rewrite Hqueues. by apply lookup_insert_ne.
  - intros i m' k Hm'. rewrite (Hmaps' _ _ _ _ Hm').
    unfold front_in_set. rewrite Hqueues, lookup_insert_eq. split.
    + intros (wq' & [= <-] & Hi & Hk). done.
    + intros [-> Hk]. eauto.
  - intros i m m' k q Hq Hm Hm'.
    rewrite (Hmaps' _ _ _ _ Hm'), (Hmaps _ _ _ _ Hm).
    unfold front_in_set. rewrite Hqueues. by rewrite lookup_insert_ne.
Qed.

Lemma AssignQueueToSet_moves_witness :
  work_queues
    (default (sets scenario.after_pushes)
       (AssignQueueToSet 1 1 (sets scenario.after_pushes))) !! 1
  = Some (mkWorkQueue (work_queue_ (mkWorkQueue [mkTask 101 2] 0)) 1)
  ∧ (∀ q, q ≠ 1 →
       work_queues
         (default (sets scenario.after_pushes)
            (AssignQueueToSet 1 1 (sets scenario.after_pushes))) !! q
       = work_queues (sets scenario.after_pushes) !! q)
  ∧ (∀ i m' k,
       enqueue_order_to_work_queue_maps_
         (default (sets scenario.after_pushes)
            (AssignQueueToSet 1 1 (sets scenario.after_pushes))) !! i = Some m' →
       (m' !! k = Some 1
        ↔ i = 1 ∧ GetFrontTaskEnqueueOrder (mkWorkQueue [mkTask 101 2] 0) = Some k))
  ∧ (∀ i m m' k q, q ≠ 1 →
       enqueue_order_to_work_queue_maps_ (sets scenario.after_pushes) !! i = Some m →
       enqueue_order_to_work_queue_maps_
         (default (sets scenario.after_pushes)
            (AssignQueueToSet 1 1 (sets scenario.after_pushes))) !! i = Some m' →
       (m' !! k = Some q ↔ m !! k = Some q)).
Proof.
  apply (AssignQueueToSet_moves 2 scenario.after_pushes 1 1
           (mkWorkQueue [mkTask 101 2] 0)).
  - apply scenario_after_pushes_reachable.
  - vm_compute. reflexivity.
  - vm_compute. reflexivity.
Defined.

Lemma set_map_same (i : nat) (m : gmap N nat) (σ : State) :
  enqueue_order_to_work_queue_maps_ σ !! i = Some m → set_map i m σ = σ.
Proof.
  intros Hm. destruct σ as [qs l]; unfold set_map; simpl in *.
  by rewrite list_insert_id.
Qed.

Lemma set_map_set_map (i : nat) (m1 m2 : gmap N nat) (σ : State) :
  set_map i m2 (set_map i m1 σ) = set_map i m2 σ.
Proof. unfold set_map; simpl. by rewrite list_insert_insert_eq. Qed.

(** X3: in a WorkQueueSets driven by pushes and pops, assigning a queue to
    the set it is already in changes nothing, and assigning it to another set
    and then back to its old set restores the state exactly. *)
Theorem AssignQueueToSet_round_trip (n : nat) (s : System) (p : WorkQueuePtr)
    (j : nat) (wq : WorkQueue) :
  reachable n s →
  work_queues (sets s) !! p = Some wq →
  j < n →
  AssignQueueToSet p (work_queue_set_index_ wq) (sets s) = Some (sets s)
  ∧ ∃ σ1, AssignQueueToSet p j (sets s) = Some σ1
      ∧ AssignQueueToSet p (work_queue_set_index_ wq) σ1 = Some (sets s).
Proof.
  intros Hreach Hp Hj. destruct s as [σ next]; simpl in *.
  pose proof (reachable_Inv _ _ Hreach) as HInv.
  pose proof HInv as [Hmaps Hok]; simpl in Hmaps, Hok.
  pose proof (reachable_length _ _ Hreach) as Hlen; simpl in Hlen.
  pose proof (ok_index _ _ Hok _ _ Hp) as Hold.
  assert (∀ σ0 σ2 wq0,
            Inv (mkSystem σ0 next) →
            work_queues σ0 !! p = Some wq0 →
            work_queue_ wq0 = work_queue_ wq →
            <[p := wq]> (work_queues σ0) = work_queues σ →
            length (enqueue_order_to_work_queue_maps_ σ0) = n →
            AssignQueueToSet p (work_queue_set_index_ wq) σ0 = Some σ2 →
            σ2 = σ) as Hback.
  { intros σ0 σ2 wq0 HInv0 Hp0 Htasks Hheap Hlen0 Hassign.
    destruct (AssignQueueToSet_Inv _ _ _ _ _ HInv0 Hassign) as [Hmaps2 _].
    apply maps_agree_unique; [done..| |].
    - rewrite (AssignQueueToSet_work_queues _ _ _ _ _ Hp0 Hassign), Htasks.
      destruct wq; simpl. apply Hheap.
    - rewrite (run_call_length (CallAssignQueueToSet p _) _ _ Hassign). lia. }
  split.
  - destruct (AssignQueueToSet_is_Some p (work_queue_set_index_ wq) σ wq)
      as [σ2 Hσ2]; [done..|].
    rewrite Hσ2. f_equal. eapply (Hback σ σ2 wq); eauto. by apply insert_id.
  - destruct (AssignQueueToSet_is_Some p j σ wq) as [σ1 Hσ1]; [done|lia|done|].
    exists σ1. split; [done|].
    pose proof (AssignQueueToSet_Inv _ _ _ _ _ HInv Hσ1) as HInv1.
    pose proof (AssignQueueToSet_work_queues _ _ _ _ _ Hp Hσ1) as Hqueues1.
    pose proof (run_call_length (CallAssignQueueToSet p j) _ _ Hσ1) as Hlen1.
    simpl in Hlen1.
    assert (work_queues σ1 !! p = Some (mkWorkQueue (work_queue_ wq) j)) as Hp1.
    { rewrite Hqueues1. apply lookup_insert_eq. }
    destruct (AssignQueueToSet_is_Some p (work_queue_set_index_ wq) σ1 _ Hp1)
      as [σ2 Hσ2]; [lia|simpl; lia|].
    rewrite Hσ2. f_equal.
    eapply (Hback σ1 σ2 _ HInv1 Hp1); [done| |lia|done].
    rewrite Hqueues1, insert_insert_eq. by apply insert_id.
Qed.

Lemma AssignQueueToSet_round_trip_witness :
  AssignQueueToSet 1 (work_queue_set_index_ (mkWorkQueue [mkTask 101 2] 0))
    (sets scenario.after_pushes) = Some (sets scenario.after_pushes)
  ∧ ∃ σ1, AssignQueueToSet 1 1 (sets scenario.after_pushes) = Some σ1
      ∧ AssignQueueToSet 1 (work_queue_set_index_ (mkWorkQueue [mkTask 101 2] 0)) σ1
        = Some (sets scenario.after_pushes).
Proof.
  apply (AssignQueueToSet_round_trip 2 scenario.after_pushes 1 1
           (mkWorkQueue [mkTask 101 2] 0)).
  - apply scenario_after_pushes_reachable.
  - vm_compute. reflexivity.
  - lia.
Defined.

(** X4: [OnPushQueue] goes through exactly when the queue is live, has a
    front task and its set index is in range; a queue without a front task
    fails the DCHECK.  Calling it a second time changes nothing: the entry
    that is already in the map is kept. *)
Theorem OnPushQueue_succeeds_iff_and_idempotent (p : WorkQueuePtr) (σ : State) :
  (is_Some (OnPushQueue p σ) ↔
   ∃ wq, work_queues σ !! p = Some wq
     ∧ is_Some (GetFrontTaskEnqueueOrder wq)
     ∧ work_queue_set_index_ wq < length (enqueue_order_to_work_queue_maps_ σ))
  ∧ (∀ σ', OnPushQueue p σ = Some σ' → OnPushQueue p σ' = Some σ').
Proof.
  split.
  - split.
    + intros [σ' (wq & k & m & Hp & Hk & Hm & _)%OnPushQueue_Some].
      exists wq. split_and!; [done|by eexists|by eapply lookup_lt_Some].
    + intros (wq & Hp & [k Hk] & Hlt).
      destruct (lookup_lt_is_Some_2 _ _ Hlt) as [m Hm].
      eexists. apply OnPushQueue_Some. eauto 10.
  - intros σ' (wq & k & m & Hp & Hk & Hm & ->)%OnPushQueue_Some.
    apply OnPushQueue_Some. exists wq, k, (map_insert k p m).
    split_and!; [done|done| |].
    + rewrite lookup_set_map by (by eapply lookup_lt_Some).
      by rewrite decide_True.
    + rewrite set_map_set_map. f_equal.
      unfold map_insert. destruct (m !! k) eqn:Hmk.
      * by rewrite Hmk.
      * by rewrite lookup_insert_eq.
Qed.

(** X5: in a WorkQueueSets driven by pushes and pops, [RemoveQueue] of a
    queue that has a front task followed by [OnPushQueue] of that queue
    restores the state; a second [RemoveQueue] instead finds no entry for the
    queue and fails (it would dereference [end()]). *)
Theorem RemoveQueue_then_OnPushQueue (n : nat) (s : System) (p : WorkQueuePtr)
    (wq : WorkQueue) :
  reachable n s →
  work_queues (sets s) !! p = Some wq →
  is_Some (GetFrontTaskEnqueueOrder wq) →
  ∃ σ1, RemoveQueue p (sets s) = Some σ1
    ∧ OnPushQueue p σ1 = Some (sets s)
    ∧ RemoveQueue p σ1 = None.
Proof.
  intros Hreach Hp [k Hk]. destruct s as [σ next]; simpl in *.
  pose proof (reachable_Inv _ _ Hreach) as [Hmaps Hok]; simpl in *.
  pose proof (ok_index _ _ Hok _ _ Hp) as Hlt.
  destruct (lookup_lt_is_Some_2 _ _ Hlt) as [m Hm].
  pose proof (agree_registered _ _ _ _ _ Hmaps Hp Hk Hm) as Hreg.
  exists (set_map (work_queue_set_index_ wq) (map_erase k m) σ).
  assert (enqueue_order_to_work_queue_maps_
            (set_map (work_queue_set_index_ wq) (map_erase k m) σ)
            !! work_queue_set_index_ wq = Some (map_erase k m)) as Hm1.
  { rewrite lookup_set_map by done. by rewrite decide_True. }
  split_and!.
  - apply RemoveQueue_Some. exists wq. rewrite Hk. eauto.
  - apply OnPushQueue_Some. exists wq, k, (map_erase k m).
    split_and!; [done..|].
    rewrite set_map_set_map. symmetry. apply set_map_same.
    rewrite Hm. f_equal. unfold map_erase.
    rewrite map_insert_fresh by apply lookup_delete_eq.
    rewrite insert_delete_eq. by rewrite insert_id.
  - destruct (RemoveQueue p _) as [σ2|] eqn:Hagain; [|done].
    apply RemoveQueue_Some in Hagain as (wq' & Hp' & H). simpl in Hp'.
    rewrite Hp in Hp'. injection Hp' as <-. rewrite Hk in H.
    destruct H as (m' & Hm' & Hfound & _). rewrite Hm1 in Hm'.
    injection Hm' as <-. unfold map_erase in Hfound.
    by rewrite lookup_delete_eq in Hfound.
Qed.

Lemma RemoveQueue_then_OnPushQueue_witness :
  ∃ σ1, RemoveQueue 1 (sets scenario.after_pushes) = Some σ1
    ∧ OnPushQueue 1 σ1 = Some (sets scenario.after_pushes)
    ∧ RemoveQueue 1 σ1 = None.
Proof.
  apply (RemoveQueue_then_OnPushQueue 2 scenario.after_pushes 1
           (mkWorkQueue [mkTask 101 2] 0)).
  - apply scenario_after_pushes_reachable.
  - vm_compute. reflexivity.
  - eexists. reflexivity.
Defined.

(** X6: [IsSetEmpty] and [GetOldestQueueInSet] agree in every state: both
    fail their DCHECK_LT exactly for a set index out of range, [IsSetEmpty]
    is true exactly when [GetOldestQueueInSet] finds no queue, and false
    exactly when it returns one. *)
Theorem IsSetEmpty_agrees_with_GetOldestQueueInSet (set_index : nat) (σ : State) :
  (IsSetEmpty set_index σ = None
   ↔ length (enqueue_order_to_work_queue_maps_ σ) ≤ set_index)
  ∧ (GetOldestQueueInSet set_index σ = None
     ↔ length (enqueue_order_to_work_queue_maps_ σ) ≤ set_index)
  ∧ (IsSetEmpty set_index σ = Some true
     ↔ GetOldestQueueInSet set_index σ = Some None)
  ∧ (IsSetEmpty set_index σ = Some false
     ↔ ∃ p, GetOldestQueueInSet set_index σ = Some (Some p)).
Proof.
  unfold IsSetEmpty, GetOldestQueueInSet.
  destruct (enqueue_order_to_work_queue_maps_ σ !! set_index) as [m|] eqn:Hm;
    simpl.
  - apply lookup_lt_Some in Hm as Hlt. split_and!.
    + split; [done|lia].
    + split; [by destruct (map_empty m)|lia].
    + destruct (map_empty m) eqn:He; [done|].
      apply map_empty_false in He as (k & q & ->). simpl. split; done.
    + destruct (map_empty m) eqn:He.
      * split; [done|]. by intros (q & ?).
      * apply map_empty_false in He as (k & q & ->). simpl. split; [eauto|done].
  - apply lookup_ge_None in Hm. split_and!; try done.
    split; [done|]. by intros (q & ?).
Qed.

(** X7: a call on WorkQueueSets never changes the number of sets, the tasks
    of any queue, or any attribute of another queue, and it leaves alone the
    map of every set other than the one the queue is in and, for
    [AssignQueueToSet], the one it is assigned to. *)
Theorem run_call_frame (c : Call) (σ σ' : State) (wq : WorkQueue) :
  run_call c σ = Some σ' →
  work_queues σ !! call_queue c = Some wq →
  length (enqueue_order_to_work_queue_maps_ σ')
    = length (enqueue_order_to_work_queue_maps_ σ)
  ∧ (∀ q, q ≠ call_queue c → work_queues σ' !! q = work_queues σ !! q)
  ∧ (∀ q, work_queue_ <$> (work_queues σ' !! q) = work_queue_ <$> (work_queues σ !! q))
  ∧ (∀ i, i ≠ work_queue_set_index_ wq →
          match c with CallAssignQueueToSet _ j => i ≠ j | _ => True end →
          enqueue_order_to_work_queue_maps_ σ' !! i
            = enqueue_order_to_work_queue_maps_ σ !! i).
Proof.
  intros Hrun Hp. split; [by eapply run_call_length|].
  destruct c as [p|p j|p|p]; simpl in *.
  - apply RemoveQueue_Some in Hrun as (wq' & Hp' & H).
    rewrite Hp in Hp'. injection Hp' as <-.
    destruct (GetFrontTaskEnqueueOrder wq); [|by subst].
    destruct H as (m & Hm & _ & ->). simpl. split_and!; try done.
    intros i Hi _. by rewrite list_lookup_insert_ne.
  - pose proof (AssignQueueToSet_work_queues _ _ _ _ _ Hp Hrun) as Hqueues.
    split_and!.
    + intros q Hq. rewrite Hqueues. by rewrite lookup_insert_ne.
    + intros q. rewrite Hqueues. destruct (decide (p = q)) as [<-|Hq].
      * by rewrite lookup_insert_eq, Hp.
      * by rewrite lookup_insert_ne.
    + intros i Hi Hj.
      apply AssignQueueToSet_Some in Hrun as (wq' & Hp' & _ & _ & H).
      cbv zeta in H. rewrite Hp in Hp'. injection Hp' as <-.
      destruct (GetFrontTaskEnqueueOrder wq); [|by subst].
      destruct H as (m_old & m_new & _ & _ & ->). simpl.
      by rewrite !list_lookup_insert_ne.
  - apply OnPushQueue_Some in Hrun as (wq' & k & m & Hp' & _ & _ & ->).
    rewrite Hp in Hp'. injection Hp' as <-. simpl. split_and!; try done.
    intros i Hi _. by rewrite list_lookup_insert_ne.
  - apply OnPopQueue_Some in Hrun as (wq' & m & k & Hp' & _ & _ & ->).
    rewrite Hp in Hp'. injection Hp' as <-. simpl. split_and!; try done.
    intros i Hi _. by rewrite list_lookup_insert_ne.
Qed.

Lemma run_call_frame_witness :
  length (enqueue_order_to_work_queue_maps_
            (default (sets scenario.after_pushes)
               (run_call (CallOnPopQueue 3) (sets scenario.after_pushes))))
    = length (enqueue_order_to_work_queue_maps_ (sets scenario.after_pushes))
  ∧ (∀ q, q ≠ call_queue (CallOnPopQueue 3) →
       work_queues
         (default (sets scenario.after_pushes)
            (run_call (CallOnPopQueue 3) (sets scenario.after_pushes))) !! q
       = work_queues (sets scenario.after_pushes) !! q)
  ∧ (∀ q,
       work_queue_ <$>
         (work_queues
            (default (sets scenario.after_pushes)
               (run_call (CallOnPopQueue 3) (sets scenario.after_pushes))) !! q)
       = work_queue_ <$> (work_queues (sets scenario.after_pushes) !! q))
  ∧ (∀ i, i ≠ work_queue_set_index_ (mkWorkQueue [mkTask 100 1] 1) →
          True →
          enqueue_order_to_work_queue_maps_
            (default (sets scenario.after_pushes)
               (run_call (CallOnPopQueue 3) (sets scenario.after_pushes))) !! i
          = enqueue_order_to_work_queue_maps_ (sets scenario.after_pushes) !! i).
Proof.
  apply (run_call_frame (CallOnPopQueue 3) (sets scenario.after_pushes)
           (default (sets scenario.after_pushes)
              (run_call (CallOnPopQueue 3) (sets scenario.after_pushes)))
           (mkWorkQueue [mkTask 100 1] 1)).
  - vm_compute. reflexivity.
  - vm_compute. reflexivity.
Defined.

End WorkQueueSets_operations.

(* ================================================================== *)
(** * More on RealTimeDomain: polling and delays *)

Section RealTimeDomain_polling.
Import base RealTimeDomain.

Lemma MaybeAdvanceTime_future (d : State) (t : TimeTicks) :
  NextScheduledRunTime d = Some t → now_ticks (task_queue_manager_ d) < t →
  MaybeAdvanceTime d
  = (false,
     mkState (delayed_wakeups d)
       (mkTaskQueueManager (now_ticks (task_queue_manager_ d))
          (delayed_work_requests (task_queue_manager_ d)
             ++ [t - now_ticks (task_queue_manager_ d)]))).
Proof.
  intros Hnext Hlt. unfold MaybeAdvanceTime. rewrite Hnext.
  destruct (Z.leb_spec t (now_ticks (task_queue_manager_ d))); [lia|done].
Qed.

Lemma MaybeAdvanceTime_due (d : State) (t : TimeTicks) :
  NextScheduledRunTime d = Some t → t ≤ now_ticks (task_queue_manager_ d) →
  MaybeAdvanceTime d = (true, d).
Proof.
  intros Hnext Hle. unfold MaybeAdvanceTime. rewrite Hnext.
  destruct (Z.leb_spec t (now_ticks (task_queue_manager_ d))); [done|lia].
Qed.

Lemma MaybeAdvanceTime_keeps (d : State) :
  delayed_wakeups (MaybeAdvanceTime d).2 = delayed_wakeups d
  ∧ now_ticks (task_queue_manager_ (MaybeAdvanceTime d).2)
    = now_ticks (task_queue_manager_ d).
Proof.
  unfold MaybeAdvanceTime. destruct (NextScheduledRunTime d) as [t|]; [|done].
  by destruct (t <=? _).
Qed.

Lemma NextScheduledRunTime_wakeups (d d' : State) :
  delayed_wakeups d' = delayed_wakeups d →
  NextScheduledRunTime d' = NextScheduledRunTime d.
Proof. unfold NextScheduledRunTime. by intros ->. Qed.

(** X8: polling with [MaybeAdvanceTime] never changes the scheduled
    run-times or the clock, so while time stands still every poll gives the
    same answer; every delay it asks the manager for is strictly positive; and
    the domain does not deduplicate: [n] polls while the next run-time is
    ahead leave [n] requests for the same delay. *)
Theorem MaybeAdvanceTime_polling (d : State) :
  delayed_wakeups (MaybeAdvanceTime d).2 = delayed_wakeups d
  ∧ now_ticks (task_queue_manager_ (MaybeAdvanceTime d).2)
    = now_ticks (task_queue_manager_ d)
  ∧ (MaybeAdvanceTime (MaybeAdvanceTime d).2).1 = (MaybeAdvanceTime d).1
  ∧ (∃ new, delayed_work_requests (task_queue_manager_ (MaybeAdvanceTime d).2)
              = delayed_work_requests (task_queue_manager_ d) ++ new
            ∧ Forall (λ delay, 0 < delay) new
            ∧ (length new ≤ 1)%nat)
  ∧ (∀ t n, NextScheduledRunTime d = Some t →
       now_ticks (task_queue_manager_ d) < t →
       delayed_work_requests
         (task_queue_manager_ (Nat.iter n (λ d0, (MaybeAdvanceTime d0).2) d))
       = delayed_work_requests (task_queue_manager_ d)
           ++ replicate n (t - now_ticks (task_queue_manager_ d))).
Proof.
  destruct (MaybeAdvanceTime_keeps d) as [Hw Hn]. split_and!; [done|done| | |].
  - unfold MaybeAdvanceTime at 1 3.
    rewrite (NextScheduledRunTime_wakeups _ _ Hw), Hn.
    destruct (NextScheduledRunTime d) as [t|]; [|done].
    by destruct (t <=? _).
  - unfold MaybeAdvanceTime. destruct (NextScheduledRunTime d) as [t|].
    + destruct (Z.leb_spec t (now_ticks (task_queue_manager_ d))); simpl.
      * exists []. rewrite app_nil_r. split_and!; [done|constructor|simpl; lia].
      * eexists [_]. split; [done|]. split; [|simpl; lia].
        constructor; [|done]. unfold since. lia.
    + exists []. rewrite app_nil_r. split_and!; [done|constructor|simpl; lia].
  - intros t n Hnext Hlt. induction n as [|n IH]; simpl.
    + by rewrite app_nil_r.
    + set (dn := Nat.iter n (λ d0, (MaybeAdvanceTime d0).2) d) in *.
      assert (delayed_wakeups dn = delayed_wakeups d
              ∧ now_ticks (task_queue_manager_ dn)
                = now_ticks (task_queue_manager_ d)) as [Hwn Hnn].
      { subst dn. clear IH. induction n as [|n [IHw IHn]]; simpl; [done|].
        destruct (MaybeAdvanceTime_keeps
                    (Nat.iter n (λ d0, (MaybeAdvanceTime d0).2) d)) as [-> ->].
        done. }
      rewrite (MaybeAdvanceTime_future dn t).
      * simpl. rewrite IH, Hnn, <- app_assoc. f_equal.
        change (?x :: replicate n ?x) with (replicate (S n) x).
        by rewrite replicate_S_end.
      * by rewrite (NextScheduledRunTime_wakeups _ _ Hwn).
      * by rewrite Hnn.
Qed.

(** X9: a run-time computed by [ComputeDelayedRunTime] from the manager's
    current time comes back as the delay [MaybeAdvanceTime] asks for: when it
    is the earliest run-time of the domain and the delay is positive, the
    domain answers false and requests a wake-up after exactly that delay; a
    delay of zero or less makes it answer true at once. *)
Theorem ComputeDelayedRunTime_MaybeAdvanceTime (d : State) (delay : TimeDelta) :
  earliest_run_time d
    (ComputeDelayedRunTime (now_ticks (task_queue_manager_ d)) delay) →
  (0 < delay →
     (MaybeAdvanceTime d).1 = false
     ∧ delayed_work_requests (task_queue_manager_ (MaybeAdvanceTime d).2)
       = delayed_work_requests (task_queue_manager_ d) ++ [delay])
  ∧ (delay ≤ 0 → MaybeAdvanceTime d = (true, d)).
Proof.
  intros Hearly%NextScheduledRunTime_earliest.
  unfold ComputeDelayedRunTime, plus_delta in Hearly. split.
  - intros Hpos. rewrite (MaybeAdvanceTime_future _ _ Hearly) by lia. simpl.
    split; [done|]. do 2 f_equal. lia.
  - intros Hle. apply (MaybeAdvanceTime_due _ _ Hearly). lia.
Qed.

Lemma ComputeDelayedRunTime_MaybeAdvanceTime_witness :
  (0 < 250 →
     (MaybeAdvanceTime
        (mkState [5000; 1250; 9000] (mkTaskQueueManager 1000 []))).1 = false
     ∧ delayed_work_requests
         (task_queue_manager_
            (MaybeAdvanceTime
               (mkState [5000; 1250; 9000] (mkTaskQueueManager 1000 []))).2)
       = delayed_work_requests
           (task_queue_manager_
              (mkState [5000; 1250; 9000] (mkTaskQueueManager 1000 []))) ++ [250])
  ∧ (250 ≤ 0 →
     MaybeAdvanceTime (mkState [5000; 1250; 9000] (mkTaskQueueManager 1000 []))
     = (true, mkState [5000; 1250; 9000] (mkTaskQueueManager 1000 []))).
Proof.
  apply (ComputeDelayedRunTime_MaybeAdvanceTime
           (mkState [5000; 1250; 9000] (mkTaskQueueManager 1000 [])) 250).
  split.
  - vm_compute. right. left.
  - intros t' Ht'. vm_compute in Ht'. vm_compute.
    repeat (apply elem_of_cons in Ht' as [->|Ht']; [discriminate|]).
    by apply elem_of_nil in Ht'.
Defined.

End RealTimeDomain_polling.

(* ================================================================== *)
(** * More on ThrottlingHelper *)

Section ThrottlingHelper_more.
Import base ThrottlingHelper.
Context {Env : Type} `{!Collaborators Env}.

(** ** Quantization *)

Lemma ThrottledRunTime_mono (t1 t2 : TimeTicks) :
  t1 ≤ t2 → ThrottledRunTime t1 ≤ ThrottledRunTime t2.
Proof.
  intros Hle. rewrite !ThrottledRunTime_quot.
  pose proof (Z.quot_le_mono t1 t2 1000000 ltac:(lia) Hle). lia.
Qed.

Lemma ThrottledRunTime_pos (t : TimeTicks) : 0 ≤ t → 0 < ThrottledRunTime t.
Proof.
  intros Ht. rewrite ThrottledRunTime_eq.
  pose proof (Z.rem_bound_pos t 1000000 Ht ltac:(lia)). lia.
Qed.

(** X10: [ThrottledRunTime] is monotone; from the epoch on it delays a
    run-time by at most one second, and before the epoch, where [%] truncates
    towards zero, by less than two; all run-times within one second after a
    boundary are sent to the same next boundary. *)
Theorem ThrottledRunTime_monotone_bounded :
  (∀ t1 t2 : TimeTicks, t1 ≤ t2 → ThrottledRunTime t1 ≤ ThrottledRunTime t2)
  ∧ (∀ t : TimeTicks, 0 ≤ t → ThrottledRunTime t - t ≤ FromSeconds 1)
  ∧ (∀ t : TimeTicks, ThrottledRunTime t - t < FromSeconds 2)
  ∧ (∀ (t : TimeTicks) (N : Z), 0 ≤ N →
       FromSeconds N ≤ t < FromSeconds (N + 1) →
       ThrottledRunTime t = FromSeconds (N + 1)).
Proof.
  unfold FromSeconds. change kMicrosecondsPerSecond with 1000000. split_and!.
  - apply ThrottledRunTime_mono.
  - intros t Ht. rewrite ThrottledRunTime_eq.
    pose proof (Z.rem_bound_pos t 1000000 Ht ltac:(lia)). lia.
  - intros t. rewrite ThrottledRunTime_eq.
    pose proof (Z.rem_bound_abs t 1000000 ltac:(lia)). lia.
  - intros t N HN [Hlo Hhi]. rewrite ThrottledRunTime_quot.
    assert (Z.quot t 1000000 = N) as ->; [|lia].
    rewrite Z.quot_div_nonneg by lia.
    symmetry. apply (Z.div_unique t 1000000 N (t - N * 1000000)); lia.
Qed.

(** ** Coalescing a batch of requests *)

Lemma filter_stale_pumps (generation : nat) (posted : list PostedTask) :
  timers_ok generation posted →
  filter (λ t, is_live_pump (S generation) t = true) posted = [].
Proof.
  intros [Hbound _]. induction Hbound as [|t l Ht _ IH]; [done|].
  rewrite filter_cons_False; [done|]. unfold is_live_pump.
  intros Heq%bool_decide_eq_true. specialize (Ht _ Heq). lia.
Qed.

Lemma MaybeSchedule_pending (now u : TimeTicks) (w : World Env) :
  pending_pump_throttled_tasks_runtime_ (MaybeSchedulePumpThrottledTasksLocked now u w)
  = if is_null (pending_pump_throttled_tasks_runtime_ w) then ThrottledRunTime u
    else Z.min (pending_pump_throttled_tasks_runtime_ w) (ThrottledRunTime u).
Proof.
  destruct (MaybeSchedule_cases now u w) as [[Hnull Hle]|Hpost].
  - rewrite MaybeSchedule_skip by done. rewrite Hnull. lia.
  - rewrite MaybeSchedule_post by done. simpl.
    destruct (is_null _) eqn:Hnull; [done|].
    destruct Hpost as [?|Hlt]; [done|lia].
Qed.

(** The one live pump callback is the one posted for the recorded pending
    run-time. *)
Lemma MaybeSchedule_pump_for_pending (now u : TimeTicks) (w : World Env) :
  timers_ok (closure_generation w) (posted_tasks w) →
  0 ≤ u →
  (is_null (pending_pump_throttled_tasks_runtime_ w) = false →
   pending_pumps w
   = [mkPostedTask (callback w) (pending_pump_throttled_tasks_runtime_ w - now)]) →
  let w' := MaybeSchedulePumpThrottledTasksLocked now u w in
  is_null (pending_pump_throttled_tasks_runtime_ w') = false
  ∧ pending_pumps w'
    = [mkPostedTask (callback w') (pending_pump_throttled_tasks_runtime_ w' - now)].
Proof.
  intros Hok Hu Hpump w'. subst w'.
  destruct (MaybeSchedule_cases now u w) as [[Hnull Hle]|Hpost].
  - rewrite MaybeSchedule_skip by done. auto.
  - rewrite MaybeSchedule_post by done. simpl. split.
    + pose proof (ThrottledRunTime_pos u Hu). unfold is_null.
      apply Z.eqb_neq. lia.
    + unfold pending_pumps, callback; simpl.
      rewrite filter_app, (filter_stale_pumps _ _ Hok). simpl.
      rewrite filter_cons_True; [done|]. unfold is_live_pump; simpl.
      by apply bool_decide_eq_true.
Qed.

Lemma schedule_all_snoc (now u : TimeTicks) (us : list TimeTicks) (w : World Env) :
  schedule_all now (us ++ [u]) w
  = MaybeSchedulePumpThrottledTasksLocked now u (schedule_all now us w).
Proof. unfold schedule_all. by rewrite foldl_app. Qed.

Lemma schedule_all_timers_ok (now : TimeTicks) (us : list TimeTicks) (w : World Env) :
  timers_ok (closure_generation w) (posted_tasks w) →
  timers_ok (closure_generation (schedule_all now us w))
    (posted_tasks (schedule_all now us w)).
Proof.
  intros Hok. induction us as [|u us IH] using rev_ind; [done|].
  rewrite schedule_all_snoc. by apply MaybeSchedule_timers_ok.
Qed.

(** X11: any number of requests made from a state with no pump pending
    coalesce into one pump: afterwards the recorded pending run-time is the
    throttled time of one of the requests and no later than the throttled time
    of any of them, and the only live posted callback is the pump for that
    run-time; the throttled set, the queues and the collaborators are not
    touched. *)
Theorem schedule_all_coalesces (now u0 : TimeTicks) (us : list TimeTicks)
    (w : World Env) :
  timers_ok (closure_generation w) (posted_tasks w) →
  is_null (pending_pump_throttled_tasks_runtime_ w) = true →
  Forall (λ u, 0 ≤ u) (u0 :: us) →
  let w' := schedule_all now (u0 :: us) w in
  (∃ u, u ∈ u0 :: us ∧ pending_pump_throttled_tasks_runtime_ w' = ThrottledRunTime u)
  ∧ (∀ u, u ∈ u0 :: us →
       pending_pump_throttled_tasks_runtime_ w' ≤ ThrottledRunTime u)
  ∧ pending_pumps w'
    = [mkPostedTask (callback w') (pending_pump_throttled_tasks_runtime_ w' - now)]
  ∧ throttled_queues_ w' = throttled_queues_ w
  ∧ task_queues w' = task_queues w
  ∧ env w' = env w.
Proof.
  intros Hok Hnull Hpos. cbv zeta.
  induction us as [|u us IH] using rev_ind.
  - apply Forall_cons in Hpos as [Hu0 _].
    unfold schedule_all; simpl.
    destruct (MaybeSchedule_pump_for_pending now u0 w Hok Hu0) as [_ Hpump];
      [congruence|].
    rewrite MaybeSchedule_pending, Hnull.
    rewrite MaybeSchedule_pending, Hnull in Hpump.
    destruct (MaybeSchedule_frame now u0 w) as (-> & -> & _ & ->).
    split_and!; try done.
    + exists u0. split; [by left|done].
    + intros u ->%list_elem_of_singleton. done.
  - rewrite app_comm_cons in Hpos. apply Forall_app in Hpos as [Hpos Hu].
    apply Forall_cons in Hu as [Hu _].
    destruct (IH Hpos) as ((u1 & Hu1 & Hpending) & Hleast & Hpump & Hset & Hqs & Henv).
    rewrite app_comm_cons, schedule_all_snoc.
    set (w1 := schedule_all now (u0 :: us) w) in *.
    assert (is_null (pending_pump_throttled_tasks_runtime_ w1) = false) as Hnull1.
    { rewrite Hpending. unfold is_null. apply Z.eqb_neq.
      assert (0 ≤ u1) as Hu1pos.
      { rewrite Forall_forall in Hpos. by apply Hpos. }
      pose proof (ThrottledRunTime_pos u1 Hu1pos). lia. }
    destruct (MaybeSchedule_pump_for_pending now u w1) as [_ Hpump'];
      [by apply schedule_all_timers_ok|done|done|].
    destruct (MaybeSchedule_frame now u w1) as (Hset' & Hqs' & _ & Henv').
    rewrite Hset', Hqs', Henv'.
    pose proof (MaybeSchedule_pending now u w1) as Hmin. rewrite Hnull1 in Hmin.
    split_and!; try done.
    + destruct (Z.min_spec (pending_pump_throttled_tasks_runtime_ w1)
                  (ThrottledRunTime u)) as [[_ Heq]|[_ Heq]];
        rewrite Heq in Hmin.
      * exists u1. split; [|congruence]. rewrite elem_of_app. by left.
      * exists u. split; [|done]. rewrite elem_of_app. right. by left.
    + intros u2. rewrite Hmin. rewrite elem_of_app, list_elem_of_singleton.
      intros [Hin| ->]; [|lia]. specialize (Hleast _ Hin). lia.
Qed.

(** ** The bookkeeping invariant *)

Lemma PumpThrottledTasks_frame (w : World Env) :
  throttled_queues_ (PumpThrottledTasks w) = throttled_queues_ w
  ∧ task_queues (PumpThrottledTasks w) = task_queues w
  ∧ task_runner_ (PumpThrottledTasks w) = task_runner_ w.
Proof.
  rewrite PumpThrottledTasks_unfold. cbv zeta.
  destruct (NextScheduledRunTime _) as [next|]; [|done].
  match goal with
  | |- context [MaybeSchedulePumpThrottledTasksLocked ?n ?u ?w0] =>
      destruct (MaybeSchedule_frame n u w0) as (-> & -> & -> & _)
  end.
  done.
Qed.

Lemma helper_ok_ext (w w' : World Env) :
  task_runner_ w' = task_runner_ w →
  throttled_queues_ w' = throttled_queues_ w →
  task_queues w' = task_queues w →
  helper_ok w → helper_ok w'.
Proof. unfold helper_ok. by intros -> -> ->. Qed.

Lemma helper_ok_throttled (q : TaskQueuePtr) (w : World Env) (tq : TaskQueue) :
  q ≠ task_runner_ w → task_queues w !! q = Some tq →
  helper_ok w → helper_ok (throttled_world q w).
Proof.
  intros Hne Hq (Hrunner & Hsub & Hattr). unfold helper_ok, throttled_world; simpl.
  split_and!.
  - set_solver.
  - rewrite dom_insert_L. set_solver.
  - intros q' tq'. rewrite lookup_insert. case_decide as Hqq.
    + subst q'. intros [= <-]. rewrite bool_decide_eq_true_2; [done|set_solver].
    + intros Hq'. rewrite (Hattr _ _ Hq').
      destruct (decide (q' ∈ throttled_queues_ w)).
      * rewrite !bool_decide_eq_true_2; [done|set_solver|done].
      * rewrite !bool_decide_eq_false_2; [done|set_solver|done].
Qed.

Lemma helper_ok_unthrottled (q : TaskQueuePtr) (w : World Env) :
  helper_ok w → helper_ok (unthrottled_world q w).
Proof.
  intros (Hrunner & Hsub & Hattr). unfold helper_ok, unthrottled_world; simpl.
  split_and!.
  - set_solver.
  - rewrite dom_insert_L. set_solver.
  - intros q' tq'. rewrite lookup_insert. case_decide as Hqq.
    + subst q'. intros [= <-]. rewrite bool_decide_eq_false_2; [done|set_solver].
    + intros Hq'. rewrite (Hattr _ _ Hq').
      destruct (decide (q' ∈ throttled_queues_ w)).
      * rewrite !bool_decide_eq_true_2; [done|set_solver|done].
      * rewrite !bool_decide_eq_false_2; [done|set_solver|done].
Qed.

Lemma step_helper_ok (w w' : World Env) :
  step w w' → helper_ok w →
  helper_ok w' ∧ task_runner_ w' = task_runner_ w
  ∧ dom (task_queues w') = dom (task_queues w).
Proof.
  intros Hstep Hinv.
  destruct Hstep as [q w w' Hthr|q w w' Hun|w|w w' Hdel|i w w' Hrun|e w].
  - destruct (Throttle_Some_inv _ _ _ Hthr) as (Hne & tq & Hq).
    destruct (Throttle_frame _ _ _ Hthr) as (Hset & Hqs & Hrunner & _).
    split_and!; [|done|].
    + apply (helper_ok_ext (throttled_world q w)); [done..|].
      by eapply helper_ok_throttled.
    + rewrite Hqs, dom_insert_L. apply elem_of_dom_2 in Hq. set_solver.
  - destruct (Unthrottle_Some_inv _ _ _ Hun) as (tq & Hq).
    rewrite (Unthrottle_unfold _ _ _ Hq) in Hun. injection Hun as <-.
    split_and!; [by apply helper_ok_unthrottled|done|].
    simpl. rewrite dom_insert_L. apply elem_of_dom_2 in Hq. set_solver.
  - destruct (OnTimeDomainHasImmediateWork_frame w) as (Hset & Hqs & Hrunner & _).
    split_and!; [by eapply helper_ok_ext|done|by rewrite Hqs].
  - destruct (OnTimeDomainHasDelayedWork_frame _ _ Hdel) as (Hset & Hqs & Hrunner & _).
    split_and!; [by eapply helper_ok_ext|done|by rewrite Hqs].
  - unfold RunPostedTask in Hrun.
    destruct (posted_tasks w !! i) as [t|]; simpl in Hrun; [|done].
    destruct (posted_closure t) as [g|].
    + case_decide; injection Hrun as <-; [|done].
      match goal with
      | |- context [PumpThrottledTasks ?w0] =>
          destruct (PumpThrottledTasks_frame w0) as (Hset & Hqs & Hrunner)
      end.
      split_and!; [by eapply helper_ok_ext|done|by rewrite Hqs].
    + injection Hrun as <-.
      match goal with
      | |- context [OnTimeDomainHasImmediateWork ?w0] =>
          destruct (OnTimeDomainHasImmediateWork_frame w0)
            as (Hset & Hqs & Hrunner & _)
      end.
      split_and!; [by eapply helper_ok_ext|done|by rewrite Hqs].
  - done.
Qed.

(** X12: whatever is called on the helper and whichever posted task runs,
    the helper's bookkeeping stays in step with the queues: the control task
    runner is never throttled, every throttled queue is a live queue bound to
    the throttled time domain with pump policy MANUAL, and every other queue is
    bound to the real time domain with pump policy AUTO.  The control task
    runner and the set of live queues never change. *)
Theorem helper_ok_invariant (w0 w : World Env) :
  rtc step w0 w → helper_ok w0 →
  helper_ok w
  ∧ task_runner_ w = task_runner_ w0
  ∧ dom (task_queues w) = dom (task_queues w0)
  ∧ (∀ q, q ∈ throttled_queues_ w →
       q ≠ task_runner_ w
       ∧ task_queues w !! q = Some (mkTaskQueue throttled_time_domain MANUAL))
  ∧ (∀ q tq, task_queues w !! q = Some tq → q ∉ throttled_queues_ w →
       tq = mkTaskQueue real_time_domain AUTO).
Proof.
  intros Hsteps Hinv0.
  assert (helper_ok w ∧ task_runner_ w = task_runner_ w0
          ∧ dom (task_queues w) = dom (task_queues w0)) as (Hinv & Hrunner & Hdom).
  { induction Hsteps as [w|w1 w2 w3 Hstep _ IH]; [done|].
    destruct (step_helper_ok _ _ Hstep Hinv0) as (Hinv2 & Hrunner2 & Hdom2).
    destruct (IH Hinv2) as (Hinv3 & Hrunner3 & Hdom3).
    split_and!; [done|congruence|congruence]. }
  split_and!; [done..| |].
  - intros q Hq. destruct Hinv as (Hnot & Hsub & Hattr). split.
    + intros ->. done.
    + assert (q ∈ dom (task_queues w)) as [tq Htq]%elem_of_dom by set_solver.
      rewrite Htq. f_equal. rewrite (Hattr _ _ Htq).
      by rewrite bool_decide_eq_true_2.
  - intros q tq Htq Hq. destruct Hinv as (_ & _ & Hattr).
    rewrite (Hattr _ _ Htq). by rewrite bool_decide_eq_false_2.
Qed.

(** ** Notifications leave a pump pending *)

Lemma MaybeSchedule_leaves_pump (now u : TimeTicks) (w : World Env) :
  pending_runtime_ok w → 0 ≤ u →
  let w' := MaybeSchedulePumpThrottledTasksLocked now u w in
  is_null (pending_pump_throttled_tasks_runtime_ w') = false
  ∧ pending_pump_throttled_tasks_runtime_ w' ≤ ThrottledRunTime u
  ∧ length (pending_pumps w') = 1%nat.
Proof.
  intros Hinv Hu w'. subst w'.
  pose proof (MaybeSchedule_pending_runtime_ok now u w Hinv) as [_ Hone].
  pose proof (MaybeSchedule_pending now u w) as Hmin.
  assert (is_null (pending_pump_throttled_tasks_runtime_
                     (MaybeSchedulePumpThrottledTasksLocked now u w)) = false)
    as Hnull.
  { rewrite Hmin. pose proof (ThrottledRunTime_pos u Hu).
    destruct (is_null (pending_pump_throttled_tasks_runtime_ w)) eqn:Hold;
      unfold is_null in *; apply Z.eqb_neq; [lia|].
    apply Z.eqb_neq in Hold. lia. }
  split_and!; [done| |by apply Hone].
  rewrite Hmin.
  destruct (is_null (pending_pump_throttled_tasks_runtime_ w)); lia.
Qed.

(** X13: from a state the helper can be in, a notification that the
    throttled domain has work never goes unanswered.  On the control thread
    [OnTimeDomainHasImmediateWork] leaves exactly one live pump posted, recorded
    for no later than the throttled current time; [OnTimeDomainHasDelayedWork]
    fails its DCHECK exactly when the domain reports no run-time, and otherwise
    leaves exactly one live pump posted, recorded for no later than the
    throttled next run-time. *)
Theorem notifications_leave_pump_pending (w : World Env) :
  pending_runtime_ok w →
  (RunsTasksOnCurrentThread (task_runner_ w) (env w) = true →
   0 ≤ NowTicks (env w) →
   let w' := OnTimeDomainHasImmediateWork w in
   is_null (pending_pump_throttled_tasks_runtime_ w') = false
   ∧ pending_pump_throttled_tasks_runtime_ w' ≤ ThrottledRunTime (NowTicks (env w))
   ∧ length (pending_pumps w') = 1%nat)
  ∧ (OnTimeDomainHasDelayedWork w = None ↔ NextScheduledRunTime (env w) = None)
  ∧ (∀ next w', NextScheduledRunTime (env w) = Some next → 0 ≤ next →
       OnTimeDomainHasDelayedWork w = Some w' →
       is_null (pending_pump_throttled_tasks_runtime_ w') = false
       ∧ pending_pump_throttled_tasks_runtime_ w' ≤ ThrottledRunTime next
       ∧ length (pending_pumps w') = 1%nat).
Proof.
  intros Hinv. split_and!.
  - intros Hthread Hnow. unfold OnTimeDomainHasImmediateWork. rewrite Hthread.
    simpl. by apply MaybeSchedule_leaves_pump.
  - unfold OnTimeDomainHasDelayedWork.
    by destruct (NextScheduledRunTime (env w)).
  - intros next w' Hnext Hpos. unfold OnTimeDomainHasDelayedWork. rewrite Hnext.
    simpl. intros [= <-]. by apply MaybeSchedule_leaves_pump.
Qed.

(** X15: [Throttle] strands no work.  From a state the helper can be in,
    throttling an empty queue schedules nothing; throttling, on the control
    thread, a queue that holds tasks leaves exactly one live pump posted,
    recorded for no later than the throttled current time when the queue has
    immediate work, and for no later than the throttled next run-time of the
    domain otherwise. *)
Theorem Throttle_schedules_pump (task_queue : TaskQueuePtr) (w w' : World Env) :
  pending_runtime_ok w →
  Throttle task_queue w = Some w' →
  (IsEmpty task_queue (env w') = true →
     posted_tasks w' = posted_tasks w
     ∧ pending_pump_throttled_tasks_runtime_ w'
       = pending_pump_throttled_tasks_runtime_ w)
  ∧ (IsEmpty task_queue (env w') = false →
     RunsTasksOnCurrentThread (task_runner_ w') (env w') = true →
     0 ≤ NowTicks (env w') →
     (∀ t, NextScheduledRunTime (env w') = Some t → 0 ≤ t) →
     is_null (pending_pump_throttled_tasks_runtime_ w') = false
     ∧ length (pending_pumps w') = 1%nat
     ∧ (HasPendingImmediateWork task_queue (env w') = true →
        pending_pump_throttled_tasks_runtime_ w'
          ≤ ThrottledRunTime (NowTicks (env w')))
     ∧ (HasPendingImmediateWork task_queue (env w') = false →
        ∃ next, NextScheduledRunTime (env w') = Some next
          ∧ pending_pump_throttled_tasks_runtime_ w' ≤ ThrottledRunTime next)).
Proof.
  intros Hinv Hthr.
  destruct (Throttle_Some_inv _ _ _ Hthr) as (Hne & tq & Hq).
  destruct (Throttle_frame _ _ _ Hthr) as (_ & _ & Hrunner & Henv).
  assert (task_runner_ w' = task_runner_ (throttled_world task_queue w)) as ->
    by done.
  assert (env w' = env (throttled_world task_queue w)) as -> by done.
  assert (pending_runtime_ok (throttled_world task_queue w)) as Hinv3 by done.
  rewrite (Throttle_unfold _ _ _ Hne Hq) in Hthr. split.
  - intros Hempty. rewrite Hempty in Hthr. by injection Hthr as <-.
  - intros Hempty Hthread Hnow Hnext. rewrite Hempty in Hthr.
    destruct (HasPendingImmediateWork task_queue _) eqn:Himm.
    + injection Hthr as <-. unfold OnTimeDomainHasImmediateWork.
      rewrite Hthread. simpl negb. cbv iota.
      destruct (MaybeSchedule_leaves_pump
                  (NowTicks (env (throttled_world task_queue w)))
                  (NowTicks (env (throttled_world task_queue w)))
                  _ Hinv3 Hnow) as (Hnull & Hle & Hone).
      split_and!; [done|done|done|done].
    + unfold OnTimeDomainHasDelayedWork in Hthr.
      destruct (NextScheduledRunTime (env (throttled_world task_queue w)))
        as [next|] eqn:Hnx; simpl in Hthr; [|done].
      injection Hthr as <-.
      destruct (MaybeSchedule_leaves_pump
                  (NowTicks (env (throttled_world task_queue w))) next
                  _ Hinv3 (Hnext _ eq_refl)) as (Hnull & Hle & Hone).
      split_and!; [done|done|done|]. intros _. eauto.
Qed.

(** ** Forwarding from another thread *)

(** X14: called off the control thread, [OnTimeDomainHasImmediateWork] only
    posts the forwarding task to the control task runner, with no delay: the
    pending run-time, the pump callbacks, the throttled set, the queues and the
    collaborators are as before.  When the control task runner then runs that
    task, the helper ends in the state a direct notification at that moment
    would have given. *)
Theorem OnTimeDomainHasImmediateWork_forwards (w : World Env) :
  RunsTasksOnCurrentThread (task_runner_ w) (env w) = false →
  let w' := OnTimeDomainHasImmediateWork w in
  posted_tasks w' = posted_tasks w ++ [mkPostedTask forward_immediate_work_closure 0]
  ∧ pending_pump_throttled_tasks_runtime_ w' = pending_pump_throttled_tasks_runtime_ w
  ∧ closure_generation w' = closure_generation w
  ∧ pending_pumps w' = pending_pumps w
  ∧ throttled_queues_ w' = throttled_queues_ w
  ∧ task_queues w' = task_queues w
  ∧ env w' = env w
  ∧ (∀ e, RunPostedTask (length (posted_tasks w)) (set_env e w')
          = Some (OnTimeDomainHasImmediateWork (set_env e w))).
Proof.
  intros Hthread w'. subst w'.
  assert (OnTimeDomainHasImmediateWork w
          = PostTask forward_immediate_work_closure w) as ->.
  { unfold OnTimeDomainHasImmediateWork. by rewrite Hthread. }
  simpl. split_and!; try done.
  - unfold pending_pumps; simpl. rewrite filter_app.
    rewrite filter_cons_False; [by rewrite filter_nil, app_nil_r|].
    unfold is_live_pump; simpl. done.
  - intros e. unfold RunPostedTask. simpl.
    rewrite lookup_app_r by done. rewrite Nat.sub_diag. simpl.
    do 2 f_equal. unfold set_env; simpl. f_equal.
    assert (∀ (l : list PostedTask) x, delete (length l) (l ++ [x]) = l) as Hdel.
    { intros l x. induction l as [|y l IH]; [done|]. simpl. by rewrite IH. }
    apply Hdel.
Qed.

End ThrottlingHelper_more.

(* ================================================================== *)
(** * More on ThrottlingHelper with recording collaborators *)

Section ThrottlingHelper_pumped_queues.
Import base ThrottlingHelper recording.

Lemma cycle_commands_eq (w : World Env) :
  cycle_commands w
  = [CmdAdvanceTo (clock (env w))] ++
    ((λ q, CmdPumpQueue q false) <$>
       filter (λ q, q ∈ non_empty (env w)) (elements (throttled_queues_ w))) ++
    [CmdClearExpiredWakeups].
Proof.
  unfold cycle_commands. rewrite PumpThrottledTasks_commands.
  by rewrite drop_app_length.
Qed.

Lemma cycle_commands_pumped (w : World Env) (q : TaskQueuePtr) (b : bool) :
  CmdPumpQueue q b ∈ cycle_commands w
  ↔ b = false ∧ q ∈ throttled_queues_ w ∧ q ∈ non_empty (env w).
Proof.
  rewrite cycle_commands_eq. rewrite !elem_of_app, !list_elem_of_singleton.
  rewrite list_elem_of_fmap. setoid_rewrite list_elem_of_filter.
  setoid_rewrite elem_of_elements. split.
  - intros [?|[(q' & [= -> ->] & Hne & Hthr)|?]]; done.
  - intros (-> & Hthr & Hne). right. left. eauto.
Qed.

(** X16: which queues a pump cycle pumps follows the throttled set.  After
    [Throttle] the next pump cycle pumps the queue if it holds tasks; after
    [Unthrottle] no pump cycle pumps it, also not the pump that was scheduled
    while it was throttled; and a cycle never pumps with [may_post_dowork]
    set, and never a queue that is not throttled. *)
Theorem pump_cycle_follows_throttled_set (q : TaskQueuePtr) (w w1 : World Env) :
  (Throttle q w = Some w1 → q ∈ non_empty (env w) →
     CmdPumpQueue q false ∈ cycle_commands w1)
  ∧ (Unthrottle q w = Some w1 → ∀ b, CmdPumpQueue q b ∉ cycle_commands w1)
  ∧ (∀ q' b, CmdPumpQueue q' b ∈ cycle_commands w →
       b = false ∧ q' ∈ throttled_queues_ w).
Proof.
  split_and!.
  - intros Hthr Hne. apply cycle_commands_pumped.
    destruct (Throttle_frame _ _ _ Hthr) as (-> & _ & _ & ->). simpl.
    split_and!; [done|set_solver|done].
  - intros Hun b. rewrite cycle_commands_pumped.
    destruct (Unthrottle_Some_inv _ _ _ Hun) as (tq & Hq).
    rewrite (Unthrottle_unfold _ _ _ Hq) in Hun. injection Hun as <-. simpl.
    set_solver.
  - intros q' b (-> & Hthr & _)%cycle_commands_pumped. done.
Qed.

Lemma pump_cycle_follows_throttled_set_witness :
  CmdPumpQueue 1%nat false ∈ cycle_commands world1
  ∧ (∀ b, CmdPumpQueue 1%nat b
           ∉ cycle_commands (default world1 (Unthrottle 1%nat world1))).
Proof.
  split.
  - apply (proj1 (pump_cycle_follows_throttled_set 1%nat world0 world1)).
    + vm_compute. reflexivity.
    + vm_compute. left.
  - apply (proj1 (proj2 (pump_cycle_follows_throttled_set 1%nat world1
                           (default world1 (Unthrottle 1%nat world1))))).
    vm_compute. reflexivity.
Defined.

Lemma world0_timers_ok :
  timers_ok (closure_generation world0) (posted_tasks world0).
Proof. split; [constructor|simpl; lia]. Qed.

Lemma world1_pending_runtime_ok : pending_runtime_ok world1.
Proof. apply reachable_pending_runtime_ok, world1_reachable. Qed.

Lemma schedule_all_coalesces_witness :
  let w' := schedule_all 1000000 [2300000; 1500000; 3500000]%Z world0 in
  (∃ u, u ∈ [2300000; 1500000; 3500000]%Z
        ∧ pending_pump_throttled_tasks_runtime_ w' = ThrottledRunTime u)
  ∧ (∀ u, u ∈ [2300000; 1500000; 3500000]%Z →
       (pending_pump_throttled_tasks_runtime_ w' ≤ ThrottledRunTime u)%Z)
  ∧ pending_pumps w'
    = [mkPostedTask (callback w')
         (pending_pump_throttled_tasks_runtime_ w' - 1000000)%Z]
  ∧ throttled_queues_ w' = throttled_queues_ world0
  ∧ task_queues w' = task_queues world0
  ∧ env w' = env world0.
Proof.
  apply (schedule_all_coalesces 1000000 2300000 [1500000; 3500000]%Z world0).
  - apply world0_timers_ok.
  - reflexivity.
  - repeat constructor; discriminate.
Defined.

Lemma helper_ok_invariant_witness :
  helper_ok world1
  ∧ task_runner_ world1 = task_runner_ world0
  ∧ dom (task_queues world1) = dom (task_queues world0)
  ∧ (∀ q, q ∈ throttled_queues_ world1 →
       q ≠ task_runner_ world1
       ∧ task_queues world1 !! q = Some (mkTaskQueue throttled_time_domain MANUAL))
  ∧ (∀ q tq, task_queues world1 !! q = Some tq → q ∉ throttled_queues_ world1 →
       tq = mkTaskQueue real_time_domain AUTO).
Proof.
  apply (helper_ok_invariant world0 world1).
  - apply rtc_once. apply (step_Throttle 1%nat). vm_compute. reflexivity.
  - split_and!.
    + simpl. apply not_elem_of_empty.
    + apply empty_subseteq.
    + unfold world0, ThrottlingHelper_new; simpl.
      repeat (apply map_Forall_insert_2; [reflexivity|]).
      apply map_Forall_empty.
Defined.

Lemma notifications_leave_pump_pending_witness :
  (RunsTasksOnCurrentThread (task_runner_ world1) (env world1) = true →
   (0 ≤ NowTicks (env world1))%Z →
   let w' := OnTimeDomainHasImmediateWork world1 in
   is_null (pending_pump_throttled_tasks_runtime_ w') = false
   ∧ (pending_pump_throttled_tasks_runtime_ w'
        ≤ ThrottledRunTime (NowTicks (env world1)))%Z
   ∧ length (pending_pumps w') = 1%nat)
  ∧ (OnTimeDomainHasDelayedWork world1 = None
     ↔ NextScheduledRunTime (env world1) = None)
  ∧ (∀ next w', NextScheduledRunTime (env world1) = Some next → (0 ≤ next)%Z →
       OnTimeDomainHasDelayedWork world1 = Some w' →
       is_null (pending_pump_throttled_tasks_runtime_ w') = false
       ∧ (pending_pump_throttled_tasks_runtime_ w' ≤ ThrottledRunTime next)%Z
       ∧ length (pending_pumps w') = 1%nat).
Proof.
  apply (notifications_leave_pump_pending world1).
  apply world1_pending_runtime_ok.
Defined.

Lemma OnTimeDomainHasImmediateWork_forwards_witness :
  let w := set_env env0_off_thread world1 in
  let w' := OnTimeDomainHasImmediateWork w in
  posted_tasks w' = posted_tasks w ++ [mkPostedTask forward_immediate_work_closure 0]
  ∧ pending_pump_throttled_tasks_runtime_ w' = pending_pump_throttled_tasks_runtime_ w
  ∧ closure_generation w' = closure_generation w
  ∧ pending_pumps w' = pending_pumps w
  ∧ throttled_queues_ w' = throttled_queues_ w
  ∧ task_queues w' = task_queues w
  ∧ env w' = env w
  ∧ (∀ e, RunPostedTask (length (posted_tasks w)) (set_env e w')
          = Some (OnTimeDomainHasImmediateWork (set_env e w))).
Proof.
  apply (OnTimeDomainHasImmediateWork_forwards (set_env env0_off_thread world1)).
  reflexivity.
Defined.

Lemma Throttle_schedules_pump_witness :
  (IsEmpty 3%nat (env (default world1 (Throttle 3%nat world1))) = true →
     posted_tasks (default world1 (Throttle 3%nat world1)) = posted_tasks world1
     ∧ pending_pump_throttled_tasks_runtime_ (default world1 (Throttle 3%nat world1))
       = pending_pump_throttled_tasks_runtime_ world1)
  ∧ (IsEmpty 3%nat (env (default world1 (Throttle 3%nat world1))) = false →
     RunsTasksOnCurrentThread
       (task_runner_ (default world1 (Throttle 3%nat world1)))
       (env (default world1 (Throttle 3%nat world1))) = true →
     (0 ≤ NowTicks (env (default world1 (Throttle 3%nat world1))))%Z →
     (∀ t, NextScheduledRunTime (env (default world1 (Throttle 3%nat world1)))
           = Some t → (0 ≤ t)%Z) →
     is_null (pending_pump_throttled_tasks_runtime_
                (default world1 (Throttle 3%nat world1))) = false
     ∧ length (pending_pumps (default world1 (Throttle 3%nat world1))) = 1%nat
     ∧ (HasPendingImmediateWork 3%nat
          (env (default world1 (Throttle 3%nat world1))) = true →
        (pending_pump_throttled_tasks_runtime_
           (default world1 (Throttle 3%nat world1))
         ≤ ThrottledRunTime
             (NowTicks (env (default world1 (Throttle 3%nat world1)))))%Z)
     ∧ (HasPendingImmediateWork 3%nat
          (env (default world1 (Throttle 3%nat world1))) = false →
        ∃ next, NextScheduledRunTime
                  (env (default world1 (Throttle 3%nat world1))) = Some next
          ∧ (pending_pump_throttled_tasks_runtime_
               (default world1 (Throttle 3%nat world1))
             ≤ ThrottledRunTime next)%Z)).
Proof.
  apply (Throttle_schedules_pump 3%nat world1
           (default world1 (Throttle 3%nat world1))).
  - apply world1_pending_runtime_ok.
  - vm_compute. reflexivity.
Defined.

End ThrottlingHelper_pumped_queues.
